(** * The collider system of micosmogames/aframe

    A shallow embedding of the [collider] system and component
    (registry, per-tick collision tracker, narrow-phase shape tests) and of
    [isVisibleInScene] from [lib/utils.js], followed by the properties the
    specification states about them.

    JavaScript values are modelled as follows.
    - A [Set] is a duplicate-free list in insertion order, a [Map] an
      association list in insertion order: iteration order is observable in
      the tracker.
    - Numbers are IEEE 754 doubles, Rocq's primitive [float].
    - Objects with identity (collider behaviours, entities) are named by
      natural numbers; the state of the scene during one tick is a [World]
      giving every behaviour its current fields.
    - A method is a procedure on the machine state that either completes or
      throws, keeping the state it had reached.

    The lifecycle handlers of the [collider] component, the synchronous
    operations of the [states] component ([states.js]) and the [mipool]
    component are embedded after the system, each with the host calls that
    drive it. *)

From Stdlib Require Import PrimFloat SpecFloat FloatOps FloatAxioms.
From Stdlib Require Import List Bool Arith ZArith Lia String Permutation.
Import ListNotations.

Set Warnings "-register-all".

(** ** JavaScript containers *)

(** [Set]: insertion-ordered, no duplicates. *)
Module JsSet.
Section WithElem.
Context {A : Type}.
Variable eqb : A -> A -> bool.

Definition has (x : A) (s : list A) : bool := existsb (eqb x) s.

(** [s.add(x)]: appended when absent, otherwise the set is unchanged. *)
Fixpoint add (x : A) (s : list A) : list A :=
  match s with
  | [] => [x]
  | y :: r => if eqb x y then y :: r else y :: add x r
  end.

(** [s.delete(x)]. *)
Definition delete (x : A) (s : list A) : list A :=
  filter (fun y => negb (eqb x y)) s.

End WithElem.
End JsSet.

(** [Map]: insertion-ordered association list; [set] on a present key
    replaces the value in place, on an absent key it appends. *)
Module JsMap.
Section WithKey.
Context {K V : Type}.
Variable eqb : K -> K -> bool.

Fixpoint get (k : K) (m : list (K * V)) : option V :=
  match m with
  | [] => None
  | (k', v) :: r => if eqb k k' then Some v else get k r
  end.

Definition has (k : K) (m : list (K * V)) : bool :=
  match get k m with Some _ => true | None => false end.

Fixpoint set (k : K) (v : V) (m : list (K * V)) : list (K * V) :=
  match m with
  | [] => [(k, v)]
  | (k', v') :: r => if eqb k k' then (k', v) :: r else (k', v') :: set k v r
  end.

End WithKey.
End JsMap.

(** ** Numbers and the host library's geometry *)

Module Math.
Local Open Scope float_scope.

(** [Math.max]: NaN when an argument is NaN, and [+0] above [-0]. *)
Definition max (a b : float) : float :=
  if is_nan a || is_nan b then nan
  else if a <? b then b
  else if b <? a then a
  else if get_sign a then b else a.

(** [Math.min]: NaN when an argument is NaN, and [-0] below [+0]. *)
Definition min (a b : float) : float :=
  if is_nan a || is_nan b then nan
  else if a <? b then a
  else if b <? a then b
  else if get_sign a then a else b.
End Math.

(** The parts of three.js the shape tests call: [Vector3], [Sphere], [Box3].
    They belong to the host library, not to this repository. *)
Module THREE.
Local Open Scope float_scope.

Record Vector3 := mkVector3 { x : float; y : float; z : float }.

Definition distanceToSquared (a b : Vector3) : float :=
  let dx := x a - x b in
  let dy := y a - y b in
  let dz := z a - z b in
  dx * dx + dy * dy + dz * dz.

Definition distanceTo (a b : Vector3) : float := sqrt (distanceToSquared a b).

Definition multiply (a b : Vector3) : Vector3 :=
  mkVector3 (x a * x b) (y a * y b) (z a * z b).

Definition multiplyScalar (a : Vector3) (k : float) : Vector3 :=
  mkVector3 (x a * k) (y a * k) (z a * k).

Definition vadd (a b : Vector3) : Vector3 :=
  mkVector3 (x a + x b) (y a + y b) (z a + z b).

Definition vsub (a b : Vector3) : Vector3 :=
  mkVector3 (x a - x b) (y a - y b) (z a - z b).

Definition clamp (v lo hi : Vector3) : Vector3 :=
  mkVector3 (Math.max (x lo) (Math.min (x hi) (x v)))
            (Math.max (y lo) (Math.min (y hi) (y v)))
            (Math.max (z lo) (Math.min (z hi) (z v))).

Record Sphere := mkSphere { center : Vector3; sradius : float }.
Record Box3 := mkBox3 { bmin : Vector3; bmax : Vector3 }.

Definition setFromCenterAndSize (c size : Vector3) : Box3 :=
  let halfSize := multiplyScalar size 0.5 in
  mkBox3 (vsub c halfSize) (vadd c halfSize).

Definition intersectsSphere (b : Box3) (s : Sphere) : bool :=
  distanceToSquared (clamp (center s) (bmin b) (bmax b)) (center s)
    <=? sradius s * sradius s.

Definition intersectsBox (a b : Box3) : bool :=
  if (x (bmax b) <? x (bmin a)) || (x (bmax a) <? x (bmin b))
     || (y (bmax b) <? y (bmin a)) || (y (bmax a) <? y (bmin b))
     || (z (bmax b) <? z (bmin a)) || (z (bmax a) <? z (bmin b))
  then false else true.

(** A scene-graph node: its own [visible] flag, its [parent] ([null] at the
    root), and what [getWorldPosition] and [getWorldScale] answer for it. *)
Inductive Object3D : Type :=
  mkObject3D (visible : bool) (parent : option Object3D)
             (worldPosition worldScale : Vector3).

Definition visible (o : Object3D) : bool :=
  match o with mkObject3D v _ _ _ => v end.
Definition parent (o : Object3D) : option Object3D :=
  match o with mkObject3D _ p _ _ => p end.
Definition getWorldPosition (o : Object3D) : Vector3 :=
  match o with mkObject3D _ _ p _ => p end.
Definition getWorldScale (o : Object3D) : Vector3 :=
  match o with mkObject3D _ _ _ s => s end.
End THREE.

(** ** Data model *)

Definition ColliderId := nat.
Definition EntityId := nat.

(** The [data] of a collider behaviour (its schema), with the shape
    parameters the shape schemas add. *)
Record ColliderData := mkData {
  collideNonVisible : bool;
  enabled : bool;
  shape : string;
  layer : string;
  collidesWith : list string;
  eventTarget : option EntityId;
  ignoreDuplicates : bool;
  radius : float;
  width : float;
  height : float;
  depth : float
}.

(** An entity: [components] is [undefined] or the table of attached
    behaviours by attribute name. *)
Record Entity := mkEntity {
  entityId : EntityId;
  components : option (list (string * ColliderData));
  isPlaying : bool;
  object3D : THREE.Object3D
}.

(** A collider behaviour instance. *)
Record Collider := mkCollider {
  el : Entity;
  attrName : string;
  data : ColliderData
}.

(** The scene as one tick sees it. *)
Definition World := ColliderId -> Collider.

(** ** lib/utils.js *)

(** The walk of [isVisibleInScene] from a node up to the root. *)
Fixpoint visibleUpToRoot (iter : THREE.Object3D) : bool :=
  match iter with
  | THREE.mkObject3D v p _ _ =>
      if negb v then false
      else match p with
           | None => true
           | Some up => visibleUpToRoot up
           end
  end.

(** The argument of [isVisibleInScene] is a scene-graph node
    ([isObject3D]) or an entity. *)
Inductive SceneArg :=
| ArgObject3D (o : THREE.Object3D)
| ArgEntity (e : Entity).

Definition isVisibleInScene (a : SceneArg) : bool :=
  let iter := match a with
              | ArgObject3D o => o
              | ArgEntity e => object3D e
              end in
  visibleUpToRoot iter.

(** ** Collider behaviour queries *)

Definition getScaledRadius (c : Collider) : float :=
  let scale := THREE.getWorldScale (object3D (el c)) in
  (Math.max (THREE.x scale) (Math.max (THREE.y scale) (THREE.z scale))
   * radius (data c))%float.

Definition getScaledDimensions (c : Collider) : THREE.Vector3 :=
  let scale := THREE.getWorldScale (object3D (el c)) in
  THREE.multiply
    (THREE.mkVector3 (width (data c)) (height (data c)) (depth (data c)))
    scale.

(** ** Narrow-phase shape tests *)

Definition collision_sphere_sphere (sphere1 sphere2 : Collider) : bool :=
  let s1Pos := THREE.getWorldPosition (object3D (el sphere1)) in
  let s2Pos := THREE.getWorldPosition (object3D (el sphere2)) in
  let distance := THREE.distanceTo s1Pos s2Pos in
  let combinedRadius :=
    (getScaledRadius sphere1 + getScaledRadius sphere2)%float in
  (distance <=? combinedRadius)%float.

Definition collision_sphere_box (sphere box : Collider) : bool :=
  let spherePos := THREE.getWorldPosition (object3D (el sphere)) in
  let sphereRadius := getScaledRadius sphere in
  let s := THREE.mkSphere spherePos sphereRadius in
  let boxPos := THREE.getWorldPosition (object3D (el box)) in
  let boxSize := getScaledDimensions box in
  let b := THREE.setFromCenterAndSize boxPos boxSize in
  THREE.intersectsSphere b s.

Definition collision_box_sphere (c1 c2 : Collider) : bool :=
  collision_sphere_box c2 c1.

Definition collision_box_box (box1 box2 : Collider) : bool :=
  let box1Pos := THREE.getWorldPosition (object3D (el box1)) in
  let box1Size := getScaledDimensions box1 in
  let b1 := THREE.setFromCenterAndSize box1Pos box1Size in
  let box2Pos := THREE.getWorldPosition (object3D (el box2)) in
  let box2Size := getScaledDimensions box2 in
  let b2 := THREE.setFromCenterAndSize box2Pos box2Size in
  THREE.intersectsBox b1 b2.

(** The methods of the system whose name starts with [collision_]: what
    [this[methName]] finds. *)
Definition shapeMethods : list (string * (Collider -> Collider -> bool)) :=
  [ ("collision_sphere_sphere"%string, collision_sphere_sphere);
    ("collision_box_sphere"%string, collision_box_sphere);
    ("collision_sphere_box"%string, collision_sphere_box);
    ("collision_box_box"%string, collision_box_box) ].

Definition methName (c1 c2 : Collider) : string :=
  ("collision_" ++ shape (data c1) ++ "_" ++ shape (data c2))%string.

Definition lookupMethod (name : string) : option (Collider -> Collider -> bool) :=
  JsMap.get String.eqb name shapeMethods.

(** ** The collider system: state *)

(** A collision graph: [Map<Collider, Set<Collider>>]. *)
Definition Graph := list (ColliderId * list ColliderId).

Record System := mkSystem {
  collisions : Graph;
  prevCollisions : Graph;
  newCollisions : Graph;
  colliders : list ColliderId;
  layers : list (string * list ColliderId)
}.

(** [init()]. *)
Definition init : System := mkSystem [] [] [] [] [].

Definition setCollisions (g : Graph) (s : System) : System :=
  mkSystem g (prevCollisions s) (newCollisions s) (colliders s) (layers s).
Definition setPrevCollisions (g : Graph) (s : System) : System :=
  mkSystem (collisions s) g (newCollisions s) (colliders s) (layers s).
Definition setNewCollisions (g : Graph) (s : System) : System :=
  mkSystem (collisions s) (prevCollisions s) g (colliders s) (layers s).
Definition setColliders (cs : list ColliderId) (s : System) : System :=
  mkSystem (collisions s) (prevCollisions s) (newCollisions s) cs (layers s).
Definition setLayers (ls : list (string * list ColliderId)) (s : System) : System :=
  mkSystem (collisions s) (prevCollisions s) (newCollisions s) (colliders s) ls.

(** ** Events *)

Inductive EventName := collisionstart | collisionend.

(** The [detail] of an emitted event: the partner entity, or the pooled
    object with both entities and both layer tags. *)
Inductive Detail :=
| DetailEntity (elWith : EntityId)
| DetailPair (el1 el2 : EntityId) (layer1 layer2 : string).

(** One [emit] of [emitEvent(name, c1, c2)]: the two behaviours of the
    call, the entity the event is emitted on, its detail and whether it
    bubbles. *)
Record Event := mkEvent {
  evName : EventName;
  evC1 : ColliderId;
  evC2 : ColliderId;
  evOn : EntityId;
  evDetail : Detail;
  evBubbles : bool
}.

(** ** Procedures: state, event log and exceptions *)

Inductive Error :=
| InvalidShapes (shape1 shape2 : string)
| TypeError.

Record Machine := mkMachine { sys : System; emitted : list Event }.

(** A call completes, or throws and leaves the state it had reached. *)
Inductive Outcome :=
| Done (m : Machine)
| Raised (e : Error) (m : Machine).

Definition Proc := Machine -> Outcome.

Definition machineOf (o : Outcome) : Machine :=
  match o with Done m => m | Raised _ m => m end.

Definition seq (p q : Proc) : Proc :=
  fun m => match p m with
           | Done m' => q m'
           | Raised e m' => Raised e m'
           end.

Notation "p >> q" := (seq p q) (at level 61, left associativity).

Definition update (f : System -> System) : Proc :=
  fun m => Done (mkMachine (f (sys m)) (emitted m)).

(** [for (const x of xs) body(x)], over the elements [xs] the iteration
    visits. *)
Fixpoint forOf {X : Type} (xs : list X) (body : X -> Proc) (m : Machine) : Outcome :=
  match xs with
  | [] => Done m
  | x :: r => match body x m with
              | Done m' => forOf r body m'
              | Raised e m' => Raised e m'
              end
  end.

(** ** The collider system: methods *)

Definition hasCollided (collider other : ColliderId) (list : Graph) : bool :=
  JsMap.has Nat.eqb collider list
  && match JsMap.get Nat.eqb collider list with
     | Some cols => JsSet.has Nat.eqb other cols
     | None => false
     end.

(** [addCollision(c1, c2, list = this.collisions)]. The body never reads
    [list]: it tests and updates [this.collisions]. *)
Definition addCollision (w : World) (c1 c2 : ColliderId) (list : Graph) : Proc :=
  fun m =>
    let s := sys m in
    if ignoreDuplicates (data (w c1))
       && JsMap.has Nat.eqb c2 (collisions s)
       && match JsMap.get Nat.eqb c2 (collisions s) with
          | Some cols => JsSet.has Nat.eqb c1 cols
          | None => false
          end
    then Done m
    else
      let s1 := if negb (JsMap.has Nat.eqb c1 (collisions s))
                then setCollisions (JsMap.set Nat.eqb c1 [] (collisions s)) s
                else s in
      match JsMap.get Nat.eqb c1 (collisions s1) with
      | Some cols =>
          Done (mkMachine
                  (setCollisions
                     (JsMap.set Nat.eqb c1 (JsSet.add Nat.eqb c2 cols) (collisions s1)) s1)
                  (emitted m))
      | None => Raised TypeError (mkMachine s1 (emitted m))
      end.

(** [el.components === undefined || el.components[c.attrName] === undefined]. *)
Definition behaviourMissing (c : Collider) : bool :=
  match components (el c) with
  | None => true
  | Some comps => negb (JsMap.has String.eqb (attrName c) comps)
  end.

(** The three silent returns of [addAnyCollisions], in source order. *)
Definition skipped (c1 c2 : Collider) : bool :=
  let el1 := el c1 in
  let el2 := el c2 in
  if behaviourMissing c1 || negb (enabled (data c1))
     || behaviourMissing c2 || negb (enabled (data c2))
  then true
  else if negb (isPlaying el1) || negb (isPlaying el2) then true
  else if negb (collideNonVisible (data c1))
          && (negb (isVisibleInScene (ArgEntity el2))
              || negb (isVisibleInScene (ArgEntity el1)))
  then true
  else false.

Definition addAnyCollisions (w : World) (c1 c2 : ColliderId) : Proc :=
  fun m =>
    if skipped (w c1) (w c2) then Done m
    else
      match lookupMethod (methName (w c1) (w c2)) with
      | None =>
          Raised (InvalidShapes (shape (data (w c1))) (shape (data (w c2)))) m
      | Some meth =>
          if meth (w c1) (w c2)
          then addCollision w c1 c2 (collisions (sys m)) m
          else Done m
      end.

(** What [emitEvent(name, c1, c2)] emits; [None] when a property is read
    from [undefined]. *)
Definition emission (w : World) (name : EventName) (c1 c2 : ColliderId) : option Event :=
  let e := el (w c1) in
  let elWith := el (w c2) in
  match components e with
  | None => None
  | Some comps =>
      match JsMap.get String.eqb (attrName (w c1)) comps with
      | None => None
      | Some d1 =>
          match eventTarget d1 with
          | None =>
              Some (mkEvent name c1 c2 (entityId e)
                            (DetailEntity (entityId elWith)) true)
          | Some elTarget =>
              match components elWith with
              | None => None
              | Some comps2 =>
                  match JsMap.get String.eqb (attrName (w c2)) comps2 with
                  | None => None
                  | Some d2 =>
                      Some (mkEvent name c1 c2 elTarget
                                    (DetailPair (entityId e) (entityId elWith)
                                                (layer d1) (layer d2))
                                    false)
                  end
              end
          end
      end
  end.

Definition emitEvent (w : World) (name : EventName) (c1 c2 : ColliderId) : Proc :=
  fun m =>
    match emission w name c1 c2 with
    | Some ev => Done (mkMachine (sys m) (emitted m ++ [ev]))
    | None => Raised TypeError m
    end.

(** The buffer swap that opens [tick]. *)
Definition swapBuffers : Proc :=
  update (fun s =>
            let temp := @nil (ColliderId * list ColliderId) in
            setCollisions temp (setPrevCollisions (collisions s) s)).

(** The candidate loop of [tick]. *)
Definition buildGraph (w : World) : Proc :=
  fun m =>
    forOf (colliders (sys m)) (fun c1 =>
      forOf (collidesWith (data (w c1))) (fun layer m1 =>
        if negb (JsMap.has String.eqb layer (layers (sys m1))) then Done m1
        else
          match JsMap.get String.eqb layer (layers (sys m1)) with
          | Some bucket =>
              forOf bucket (fun c2 m2 =>
                if negb (Nat.eqb c1 c2) then addAnyCollisions w c1 c2 m2
                else Done m2) m1
          | None => Raised TypeError m1
          end)) m.

(** "Get newly intersected entities." *)
Definition startDiff (w : World) : Proc :=
  update (setNewCollisions []) >>
  (fun m =>
     forOf (collisions (sys m)) (fun entry =>
       forOf (snd entry) (fun c2 m1 =>
         let c1 := fst entry in
         if negb (hasCollided c1 c2 (prevCollisions (sys m1)))
         then (addCollision w c1 c2 (newCollisions (sys m1))
               >> emitEvent w collisionstart c1 c2) m1
         else Done m1)) m).

(** "Find collision which have cleared." *)
Definition endDiff (w : World) : Proc :=
  fun m =>
    forOf (prevCollisions (sys m)) (fun entry =>
      forOf (snd entry) (fun c2 m1 =>
        let c1 := fst entry in
        if negb (hasCollided c1 c2 (collisions (sys m1)))
        then emitEvent w collisionend c1 c2 m1
        else Done m1)) m.

Definition tick (w : World) : Proc :=
  swapBuffers >> buildGraph w >> startDiff w >> endDiff w.

(** [addCollider(c, layer)]. *)
Definition addCollider (c : ColliderId) (layer : string) : Proc :=
  fun m =>
    let s := sys m in
    let s1 := if negb (JsMap.has String.eqb layer (layers s))
              then setLayers (JsMap.set String.eqb layer [] (layers s)) s
              else s in
    match JsMap.get String.eqb layer (layers s1) with
    | Some bucket =>
        let s2 := setLayers (JsMap.set String.eqb layer
                               (JsSet.add Nat.eqb c bucket) (layers s1)) s1 in
        Done (mkMachine (setColliders (JsSet.add Nat.eqb c (colliders s2)) s2)
                        (emitted m))
    | None => Raised TypeError (mkMachine s1 (emitted m))
    end.

(** [removeCollider(c, layer)]: [this.layers.get(layer)] is [undefined]
    when the layer has no bucket. *)
Definition removeCollider (c : ColliderId) (layer : string) : Proc :=
  fun m =>
    let s := sys m in
    match JsMap.get String.eqb layer (layers s) with
    | Some bucket =>
        let s1 := setLayers (JsMap.set String.eqb layer
                               (JsSet.delete Nat.eqb c bucket) (layers s)) s in
        Done (mkMachine (setColliders (JsSet.delete Nat.eqb c (colliders s1)) s1)
                        (emitted m))
    | None => Raised TypeError m
    end.

(** ** Notions used to state the properties *)

(** The directed edges of a graph, in the order the nested [for ... of]
    loops of the diff passes visit them. *)
Definition edgesOf (g : Graph) : list (ColliderId * ColliderId) :=
  flat_map (fun entry => map (pair (fst entry)) (snd entry)) g.

(** What the [Map] and [Set] classes guarantee of a graph: no key and no
    member twice. *)
Definition wfGraph (g : Graph) : Prop :=
  NoDup (map fst g) /\ Forall (fun entry => NoDup (snd entry)) g.

(** The effect of [addCollision(c1, c2)] on [this.collisions], where [ign]
    is [c1.data.ignoreDuplicates]. *)
Definition recordEdge (ign : bool) (c1 c2 : ColliderId) (g : Graph) : Graph :=
  if ign && hasCollided c2 c1 g then g
  else JsMap.set Nat.eqb c1
         (JsSet.add Nat.eqb c2
            (match JsMap.get Nat.eqb c1 g with Some cols => cols | None => [] end))
         g.

Definition eventNameEqb (a b : EventName) : bool :=
  match a, b with
  | collisionstart, collisionstart => true
  | collisionend, collisionend => true
  | _, _ => false
  end.

(** [ev] was emitted by [emitEvent(name, c1, c2)]. *)
Definition isEvent (name : EventName) (c1 c2 : ColliderId) (ev : Event) : bool :=
  eventNameEqb (evName ev) name && Nat.eqb (evC1 ev) c1 && Nat.eqb (evC2 ev) c2.

Definition countEvents (name : EventName) (c1 c2 : ColliderId) (evs : list Event) : nat :=
  List.length (filter (isEvent name c1 c2) evs).

(** The pairs the candidate loop of [tick] hands to [addAnyCollisions]
    while [c1] is the collider of the outer loop, in order. *)
Definition turnOf (w : World) (s : System) (c1 : ColliderId) : list (ColliderId * ColliderId) :=
  flat_map (fun layer =>
    match JsMap.get String.eqb layer (layers s) with
    | Some bucket => map (pair c1) (filter (fun c2 => negb (Nat.eqb c1 c2)) bucket)
    | None => []
    end) (collidesWith (data (w c1))).

(** All the pairs of the candidate loop, in order. *)
Definition candidates (w : World) (s : System) : list (ColliderId * ColliderId) :=
  flat_map (turnOf w s) (colliders s).

(** A pair passes the three silent returns and its shape test answers
    [true]. *)
Definition overlapping (c1 c2 : Collider) : bool :=
  negb (skipped c1 c2)
  && match lookupMethod (methName c1 c2) with
     | Some meth => meth c1 c2
     | None => false
     end.


(** Calls of the collider behaviours into the registry between two ticks. *)
Inductive RegistryCall :=
| CallAdd (c : ColliderId) (layer : string)
| CallRemove (c : ColliderId) (layer : string).

(** A call that throws leaves the system as it was when it threw; the
    exception goes to the caller of the behaviour. *)
Definition applyCall (s : System) (call : RegistryCall) : System :=
  sys (machineOf
         (match call with
          | CallAdd c l => addCollider c l (mkMachine s [])
          | CallRemove c l => removeCollider c l (mkMachine s [])
          end)).

Definition applyCalls (calls : list RegistryCall) (s : System) : System :=
  fold_left applyCall calls s.

(** One frame: the registry calls since the last tick, then the scene the
    tick sees. *)
Record Frame := mkFrame { calls : list RegistryCall; world : World }.

(** One completed tick of a run: the scene it saw, the system it started
    from, the system it left and the events it emitted. *)
Record TickRecord := mkTick {
  tickWorld : World;
  tickBefore : System;
  tickAfter : System;
  tickEvents : list Event
}.

(** Runs the frames' ticks in order. [None] when a tick throws. *)
Fixpoint run (s : System) (frames : list Frame) : option (list TickRecord) :=
  match frames with
  | [] => Some []
  | f :: rest =>
      let s0 := applyCalls (calls f) s in
      match tick (world f) (mkMachine s0 []) with
      | Done m =>
          match run (sys m) rest with
          | Some trace => Some (mkTick (world f) s0 (sys m) (emitted m) :: trace)
          | None => None
          end
      | Raised _ _ => None
      end
  end.

(** Each tick of a trace starts from the graph the tick before it built
    ([g] for the first). *)
Fixpoint chained (g : Graph) (trace : list TickRecord) : Prop :=
  match trace with
  | [] => True
  | r :: rest => collisions (tickBefore r) = g /\ chained (collisions (tickAfter r)) rest
  end.

(** The pair [(a, b)] is recorded as overlapping before and after a
    tick. *)
Definition overlapBefore (r : TickRecord) (a b : ColliderId) : bool :=
  hasCollided a b (collisions (tickBefore r)).
Definition overlapAfter (r : TickRecord) (a b : ColliderId) : bool :=
  hasCollided a b (collisions (tickAfter r)).

(** The registry invariant of the specification, and the discipline of the
    collider behaviour: a collider sits in one bucket at most. *)
Definition inSomeBucket (c : ColliderId) (s : System) : Prop :=
  exists l bucket, JsMap.get String.eqb l (layers s) = Some bucket /\ In c bucket.

Definition registryInvariant (s : System) : Prop :=
  forall c, In c (colliders s) <-> inSomeBucket c s.

(** The edges the two diff passes emit for, in order. *)
Definition startEdges (prev cur : Graph) : list (ColliderId * ColliderId) :=
  filter (fun p => negb (hasCollided (fst p) (snd p) prev)) (edgesOf cur).

Definition endEdges (prev cur : Graph) : list (ColliderId * ColliderId) :=
  filter (fun p => negb (hasCollided (fst p) (snd p) cur)) (edgesOf prev).

Definition emitAll (w : World) (name : EventName) (edges : list (ColliderId * ColliderId)) : Proc :=
  forOf edges (fun p => emitEvent w name (fst p) (snd p)).

Definition canEmit (w : World) (name : EventName) (p : ColliderId * ColliderId) : bool :=
  match emission w name (fst p) (snd p) with Some _ => true | None => false end.

Definition eventsFor (w : World) (name : EventName) (edges : list (ColliderId * ColliderId)) : list Event :=
  flat_map (fun p => match emission w name (fst p) (snd p) with
                     | Some ev => [ev]
                     | None => []
                     end) edges.

(** What a loop of [addAnyCollisions] calls leaves alone. *)
Definition frameOf (m0 m : Machine) : Prop :=
  prevCollisions (sys m) = prevCollisions (sys m0)
  /\ newCollisions (sys m) = newCollisions (sys m0)
  /\ colliders (sys m) = colliders (sys m0)
  /\ layers (sys m) = layers (sys m0)
  /\ emitted m = emitted m0.

(** The state [tick] hands to its candidate loop. *)
Definition swapped (m : Machine) : Machine :=
  mkMachine (setCollisions [] (setPrevCollisions (collisions (sys m)) (sys m)))
            (emitted m).

(** What the specification says of one tick of a run, per directed pair. *)
Definition transitionsOnly (r : TickRecord) : Prop :=
  forall a b,
    countEvents collisionstart a b (tickEvents r)
    = (if overlapAfter r a b && negb (overlapBefore r a b) then 1 else 0)
    /\ countEvents collisionend a b (tickEvents r)
       = (if overlapBefore r a b && negb (overlapAfter r a b) then 1 else 0).

(** The pair [(a, b)] overlaps in the scene of a tick: the candidate loop
    of the tick tests it, it passes the silent returns and its shape test
    holds. *)
Definition overlapsIn (r : TickRecord) (a b : ColliderId) : bool :=
  existsb (fun p => Nat.eqb (fst p) a && Nat.eqb (snd p) b)
          (candidates (tickWorld r) (tickBefore r))
  && overlapping (tickWorld r a) (tickWorld r b).

(** How the recorded pairs of a tick follow the overlapping ones: a
    recorded pair overlaps; when the first collider does not suppress
    duplicates, a pair is recorded exactly when it overlaps; in any case a
    pair that overlaps is recorded in one direction at least. *)
Definition recordsWhatOverlaps (r : TickRecord) : Prop :=
  forall a b,
    (overlapAfter r a b = true -> overlapsIn r a b = true)
    /\ (ignoreDuplicates (data (tickWorld r a)) = false ->
        overlapAfter r a b = overlapsIn r a b)
    /\ (overlapsIn r a b = true ->
        overlapAfter r a b = true \/ overlapAfter r b a = true).

(** ** Scenes used as concrete inputs *)

Module Scenes.
Local Open Scope string_scope.

Definition unitScale : THREE.Vector3 := THREE.mkVector3 1 1 1.
Definition atX (x : float) : THREE.Vector3 := THREE.mkVector3 x 0 0.

(** A root node at [p], visible or not. *)
Definition node (vis : bool) (p : THREE.Vector3) : THREE.Object3D :=
  THREE.mkObject3D vis None p unitScale.

(** Sphere data of radius 1. *)
Definition sphereData (ly : string) (cw : list string)
           (ign nonVisible en : bool) : ColliderData :=
  mkData nonVisible en "sphere" ly cw None ign 1 1 1 1.

(** A behaviour attached as [collider] to its own entity. *)
Definition behaviour (id : EntityId) (playing vis : bool)
           (p : THREE.Vector3) (d : ColliderData) : Collider :=
  mkCollider (mkEntity id (Some [("collider", d)]) playing (node vis p))
             "collider" d.

(** Collider 0 is on layer [a], every other collider on layer [b]. *)
Definition twoColliders (c0 c1 : Collider) : World :=
  fun c => if Nat.eqb c 0 then c0 else c1.

Definition registerBoth : list RegistryCall := [CallAdd 0 "a"; CallAdd 1 "b"].

(** The scenario of the specification: sphere 0 at the origin tests
    layer [b]; sphere 1 at distance [x]. *)
Definition drift (x : float) : World :=
  twoColliders
    (behaviour 0 true true (atX 0) (sphereData "a" ["b"] false false true))
    (behaviour 1 true true (atX x) (sphereData "b" [] false false true)).

Definition driftFrames : list Frame :=
  [ mkFrame registerBoth (drift 3);
    mkFrame [] (drift 2);
    mkFrame [] (drift 0.5);
    mkFrame [] (drift 2.5);
    mkFrame [] (drift 3) ].

Definition driftTrace : list TickRecord :=
  match run init driftFrames with Some t => t | None => [] end.

(** Both registered, one unit apart. [oneWay]: only collider 1 tests the
    other's layer. [bothWays]: each tests the other's layer. *)
Definition registered : System := applyCalls registerBoth init.

Definition oneWay : World :=
  twoColliders
    (behaviour 0 true true (atX 0) (sphereData "a" [] false false true))
    (behaviour 1 true true (atX 1) (sphereData "b" ["a"] false false true)).

Definition bothWays : World :=
  twoColliders
    (behaviour 0 true true (atX 0) (sphereData "a" ["b"] false false true))
    (behaviour 1 true true (atX 1) (sphereData "b" ["a"] false false true)).

(** The system after one tick of [oneWay]: the graph holds [(1, 0)]. *)
Definition afterOneWay : System :=
  sys (machineOf (tick oneWay (mkMachine registered []))).

(** The system after one tick of [drift 1]: the graph holds [(0, 1)]. *)
Definition afterTouch : System :=
  sys (machineOf (tick (drift 1) (mkMachine registered []))).

(** Collider 0 has since been disabled, its entity paused and hidden, and
    it has left the registry. *)
Definition gone : World :=
  twoColliders
    (behaviour 0 false false (atX 0) (sphereData "a" ["b"] false false false))
    (behaviour 1 true true (atX 1) (sphereData "b" [] false false true)).

Definition afterLeaving : System := applyCalls [CallRemove 0 "a"] afterTouch.

(** Collider 0 collides with non-visible entities and tests layer [b];
    collider 1 requires visibility and its entity is hidden. *)
Definition hiddenPartner : World :=
  twoColliders
    (behaviour 0 true true (atX 0) (sphereData "a" ["b"] false true true))
    (behaviour 1 true false (atX 1) (sphereData "b" [] false false true)).

(** [drift 1] with the entity of collider 0 hidden; collider 0 requires
    visibility. *)
Definition hiddenSelf : World :=
  twoColliders
    (behaviour 0 true false (atX 0) (sphereData "a" ["b"] false false true))
    (behaviour 1 true true (atX 1) (sphereData "b" [] false false true)).

(** Collider 0 suppresses duplicates, collider 1 does not; each tests the
    other's layer and they overlap. *)
Definition suppressing : World :=
  twoColliders
    (behaviour 0 true true (atX 0) (sphereData "a" ["b"] true false true))
    (behaviour 1 true true (atX 1) (sphereData "b" ["a"] false false true)).

(** Collider 1 registers first; before the second tick it leaves the
    registry and enters it again, which moves it behind collider 0 in the
    iteration order. *)
Definition reorderFrames : list Frame :=
  [ mkFrame [CallAdd 1 "b"; CallAdd 0 "a"] suppressing;
    mkFrame [CallRemove 1 "b"; CallAdd 1 "b"] suppressing ].

Definition reorderTrace : list TickRecord :=
  match run init reorderFrames with Some t => t | None => [] end.


(** Collider 1 carries a shape literal with no test. *)
Definition cylinder : World :=
  twoColliders
    (behaviour 0 true true (atX 0) (sphereData "a" ["b"] false false true))
    (behaviour 1 true true (atX 1)
       (mkData false true "cylinder" "b" [] None false 1 1 1 1)).

(** A sphere of radius [r] centred at [p], and a box of the given size. *)
Definition sphereAt (p : THREE.Vector3) (r : float) : Collider :=
  behaviour 0 true true p (mkData false true "sphere" "a" [] None false r 1 1 1).

Definition boxAt (p : THREE.Vector3) (wd ht dp : float) : Collider :=
  behaviour 1 true true p (mkData false true "box" "b" [] None false 1 wd ht dp).

(** A sphere of radius [r] centred at [p] on an entity of world scale [k]. *)
Definition scaledSphereAt (p k : THREE.Vector3) (r : float) : Collider :=
  mkCollider (mkEntity 0 (Some [("collider",
                                 mkData false true "sphere" "a" [] None false r 1 1 1)])
                       true (THREE.mkObject3D true None p k))
             "collider" (mkData false true "sphere" "a" [] None false r 1 1 1).


(** [cylinder] with collider 1 disabled. *)
Definition cylinderDisabled : World :=
  twoColliders
    (behaviour 0 true true (atX 0) (sphereData "a" ["b"] false false true))
    (behaviour 1 true true (atX 1)
       (mkData false false "cylinder" "b" [] None false 1 1 1 1)).

(** [cylinder] with the entity of collider 1 hidden: collider 1 requires
    visibility, collider 0 collides with non-visible entities. *)
Definition hiddenCylinder : World :=
  twoColliders
    (behaviour 0 true true (atX 0) (sphereData "a" ["b"] false true true))
    (behaviour 1 true false (atX 1)
       (mkData false true "cylinder" "b" [] None false 1 1 1 1)).

(** [drift 1] after the behaviour of collider 0 was taken off its entity. *)
Definition detached : World :=
  twoColliders
    (mkCollider (mkEntity 0 (Some []) true (node true (atX 0))) "collider"
                (sphereData "a" ["b"] false false true))
    (behaviour 1 true true (atX 1) (sphereData "b" [] false false true)).
End Scenes.

(** [c] is in the bucket of layer [l]. *)
Definition inBucket (c : ColliderId) (l : string) (s : System) : bool :=
  match JsMap.get String.eqb l (layers s) with
  | Some bucket => JsSet.has Nat.eqb c bucket
  | None => false
  end.

(** No collider is in two buckets. *)
Definition atMostOneBucket (s : System) : Prop :=
  forall c l1 l2, inBucket c l1 s = true -> inBucket c l2 s = true -> l1 = l2.

(** The calls the collider behaviour makes: it adds a collider that is not
    registered (or again to its own layer), and removes a collider from the
    layer it is registered on (or one that is not registered). *)
Definition keepsOneLayer (s : System) (call : RegistryCall) : bool :=
  match call with
  | CallAdd c l => negb (JsSet.has Nat.eqb c (colliders s)) || inBucket c l s
  | CallRemove c l => inBucket c l s || negb (JsSet.has Nat.eqb c (colliders s))
  end.

(** [c] is in no bucket, or only in the bucket of layer [l]. *)
Definition inNoOtherBucket (c : ColliderId) (l : string) (s : System) : bool :=
  forallb (fun l' => String.eqb l' l || negb (inBucket c l' s)) (map fst (layers s)).

(** The calls that keep the registry invariant: every [addCollider], and a
    [removeCollider(c, l)] that finds no bucket for [l], and so throws, or
    that takes [c] out of the only bucket it is in. *)
Definition keepsInvariant (s : System) (call : RegistryCall) : bool :=
  match call with
  | CallAdd _ _ => true
  | CallRemove c l =>
      negb (JsMap.has String.eqb l (layers s)) || inNoOtherBucket c l s
  end.

Fixpoint keepInvariant (s : System) (cs : list RegistryCall) : bool :=
  match cs with
  | [] => true
  | call :: rest => keepsInvariant s call && keepInvariant (applyCall s call) rest
  end.

(** ** Notions used for the further properties *)

(** The nodes [isVisibleInScene] visits: a node, then its ancestors up to
    the root. *)
Fixpoint pathToRoot (o : THREE.Object3D) : list THREE.Object3D :=
  o :: match o with
       | THREE.mkObject3D _ (Some up) _ _ => pathToRoot up
       | THREE.mkObject3D _ None _ _ => []
       end.

Definition sceneNode (a : SceneArg) : THREE.Object3D :=
  match a with
  | ArgObject3D o => o
  | ArgEntity e => object3D e
  end.

(** The layer has a bucket. *)
Definition hasBucket (l : string) (s : System) : bool :=
  JsMap.has String.eqb l (layers s).

(** Every pair the candidate loop meets is skipped or has a shape test. *)
Definition shapesKnown (w : World) (s : System) : bool :=
  forallb (fun p =>
             skipped (w (fst p)) (w (snd p))
             || match lookupMethod (methName (w (fst p)) (w (snd p))) with
                | Some _ => true
                | None => false
                end)
          (candidates w s).

(** Both behaviours of every edge of [g] are attached to their entities. *)
Definition edgesAttached (w : World) (g : Graph) : bool :=
  forallb (fun p => negb (behaviourMissing (w (fst p)))
                    && negb (behaviourMissing (w (snd p))))
          (edgesOf g).

(** The two behaviours an event was emitted for. *)
Definition pairOf (ev : Event) : ColliderId * ColliderId := (evC1 ev, evC2 ev).

(** ** The collider behaviour: lifecycle handlers *)

(** What the lifecycle handlers read and write of a behaviour:
    [this.activated], [this.data] and, beside the fields of [ColliderData],
    [this.data.policy]. *)
Record Instance := mkInstance {
  activated : bool;
  idata : ColliderData;
  policy : string
}.

Definition setActivated (b : bool) (this : Instance) : Instance :=
  mkInstance b (idata this) (policy this).

(** A handler runs on the behaviour [this], named [c] in the system, and on
    the system; it gives back [this] and how the call ended. *)
Module Behaviour.

(** [init()], without the debug mesh. *)
Definition init (this : Instance) : Instance := setActivated false this.

(** [this.data.layer !== oldData.layer], where [oldData.layer] is
    [undefined] on the first update. *)
Definition layerChanged (this : Instance) (oldLayer : option string) : bool :=
  match oldLayer with
  | Some old => negb (String.eqb (layer (idata this)) old)
  | None => true
  end.

Definition update (c : ColliderId) (oldLayer : option string)
           (this : Instance) (m : Machine) : Instance * Outcome :=
  if layerChanged this oldLayer
     && (activated this || String.eqb (policy this) "init")
  then
    match (match oldLayer with
           | Some old => removeCollider c old m
           | None => Done m
           end) with
    | Done m1 => (this, addCollider c (layer (idata this)) m1)
    | Raised e m1 => (this, Raised e m1)
    end
  else (this, Done m).

Definition remove (c : ColliderId) (this : Instance) (m : Machine) : Instance * Outcome :=
  (this, removeCollider c (layer (idata this)) m).

(** The body shared by [play] and ['pool-remove'], for their policy. *)
Definition activate (p : string) (c : ColliderId) (this : Instance) (m : Machine)
  : Instance * Outcome :=
  if negb (String.eqb (policy this) p) then (this, Done m)
  else
    match addCollider c (layer (idata this)) m with
    | Done m1 => (setActivated true this, Done m1)
    | Raised e m1 => (this, Raised e m1)
    end.

(** The body shared by [pause] and ['pool-return'], for their policy. *)
Definition deactivate (p : string) (c : ColliderId) (this : Instance) (m : Machine)
  : Instance * Outcome :=
  if negb (String.eqb (policy this) p) then (this, Done m)
  else
    match removeCollider c (layer (idata this)) m with
    | Done m1 => (setActivated false this, Done m1)
    | Raised e m1 => (this, Raised e m1)
    end.

Definition pool_remove := activate "pool".
Definition pool_return := deactivate "pool".
Definition play := activate "play".
Definition pause := deactivate "play".

End Behaviour.

(** What the host runtime does with a behaviour: it attaches it ([init],
    then [update] with an empty [oldData]), replaces its data ([update]
    with the data it had), detaches it ([remove], after which the
    behaviour is gone), plays and pauses its entity, and delivers the pool
    events. *)
Inductive HostCall :=
| Attach (c : ColliderId) (d : ColliderData) (p : string)
| SetData (c : ColliderId) (d : ColliderData) (p : string)
| Detach (c : ColliderId)
| Play (c : ColliderId)
| Pause (c : ColliderId)
| PoolRemove (c : ColliderId)
| PoolReturn (c : ColliderId).

(** The system and the behaviours that are attached. *)
Record Stage := mkStage {
  registry : System;
  instances : ColliderId -> option Instance
}.

Definition emptyStage : Stage := mkStage init (fun _ => None).

Definition setInstance (c : ColliderId) (oi : option Instance)
           (f : ColliderId -> option Instance) : ColliderId -> option Instance :=
  fun c' => if Nat.eqb c' c then oi else f c'.

(** The handler a host call runs, on which behaviour; [None] when the call
    is for a behaviour that is not attached. *)
Definition handlerOf (st : Stage) (call : HostCall)
  : option (ColliderId * Instance * (Instance -> Machine -> Instance * Outcome)) :=
  match call with
  | Attach c d p =>
      Some (c, Behaviour.init (mkInstance false d p), Behaviour.update c None)
  | SetData c d p =>
      match instances st c with
      | Some i => Some (c, mkInstance (activated i) d p,
                        Behaviour.update c (Some (layer (idata i))))
      | None => None
      end
  | Detach c =>
      match instances st c with
      | Some i => Some (c, i, Behaviour.remove c)
      | None => None
      end
  | Play c =>
      match instances st c with
      | Some i => Some (c, i, Behaviour.play c)
      | None => None
      end
  | Pause c =>
      match instances st c with
      | Some i => Some (c, i, Behaviour.pause c)
      | None => None
      end
  | PoolRemove c =>
      match instances st c with
      | Some i => Some (c, i, Behaviour.pool_remove c)
      | None => None
      end
  | PoolReturn c =>
      match instances st c with
      | Some i => Some (c, i, Behaviour.pool_return c)
      | None => None
      end
  end.

(** How the handler of a host call ends. *)
Definition outcomeOf (st : Stage) (call : HostCall) : Outcome :=
  match handlerOf st call with
  | Some (_, this, h) => snd (h this (mkMachine (registry st) []))
  | None => Done (mkMachine (registry st) [])
  end.

(** The stage after a host call. A handler that throws leaves the system
    and the behaviour as they were when it threw; a detached behaviour is
    gone either way. *)
Definition dispatch (st : Stage) (call : HostCall) : Stage :=
  match handlerOf st call with
  | Some (c, this, h) =>
      let r := h this (mkMachine (registry st) []) in
      mkStage (sys (machineOf (snd r)))
              (setInstance c
                 (match call with Detach _ => None | _ => Some (fst r) end)
                 (instances st))
  | None => st
  end.

(** The host attaches a behaviour once, and here it never changes the
    policy of an attached behaviour. *)
Definition allowed (st : Stage) (call : HostCall) : bool :=
  match call with
  | Attach c _ _ =>
      match instances st c with Some _ => false | None => true end
  | SetData c _ p =>
      match instances st c with
      | Some i => String.eqb p (policy i)
      | None => true
      end
  | _ => true
  end.

Fixpoint followsProtocol (st : Stage) (cs : list HostCall) : bool :=
  match cs with
  | [] => true
  | call :: rest => allowed st call && followsProtocol (dispatch st call) rest
  end.

(** A behaviour is meant to be registered: it is activated or its policy
    is [init]. *)
Definition registered (i : Instance) : bool :=
  activated i || String.eqb (policy i) "init".

(** The registry agrees with a behaviour: a registered one is in the
    bucket of its layer, another one, or none, is not in the flat set. *)
Definition coherentAt (s : System) (c : ColliderId) (oi : option Instance) : Prop :=
  match oi with
  | Some i =>
      if registered i then inBucket c (layer (idata i)) s = true
      else ~ In c (colliders s)
  | None => ~ In c (colliders s)
  end.

Definition coherent (st : Stage) : Prop :=
  registryInvariant (registry st)
  /\ atMostOneBucket (registry st)
  /\ forall c, coherentAt (registry st) c (instances st c).

(** A life of two behaviours: collider 0 is always registered and changes
    layer, collider 1 registers while its entity plays. *)
Definition exampleLifecycle : list HostCall :=
  [ Attach 0 (Scenes.sphereData "a" ["b"%string] false false true) "init";
    Attach 1 (Scenes.sphereData "b" [] false false true) "play";
    Play 1;
    SetData 0 (Scenes.sphereData "c" ["b"%string] false false true) "init";
    Pause 1;
    Play 1;
    Detach 0 ].

(** ** JavaScript arrays *)

Module JsArray.
Section WithElem.
Context {A : Type}.

Definition push (x : A) (l : list A) : list A := l ++ [x].

(** [l.pop()]: the array without its last element, and that element;
    [None] on an empty array. *)
Fixpoint pop (l : list A) : option (list A * A) :=
  match l with
  | [] => None
  | x :: r =>
      match pop r with
      | Some (r', y) => Some (x :: r', y)
      | None => Some ([], x)
      end
  end.

End WithElem.
End JsArray.

(** ** The states component ([states.js]): the synchronous operations *)

Module States.

(** A state handed to an operation or held by the component: a name, or
    [undefined]. *)
Definition State := option string.

Inductive Op := chain | call | return_.

Inductive Error :=
| StateNotDefined (toState : State)
| CallStackEmpty.

(** What a state change event tells of the transition: the operation and
    the two states its [from] and [to] contexts are created for. *)
Record Change := mkChange { op : Op; fromState : State; toState : State }.

(** The component: [data.list], [intState.currentState], [callStack] and
    the events emitted on its element so far. *)
Record Component := mkComponent {
  data_list : list string;
  currentState : State;
  callStack : list State;
  emitted : list Change
}.

Inductive Result :=
| Ok (states : Component)
| Threw (e : Error) (states : Component).

Definition after (r : Result) : Component :=
  match r with Ok s => s | Threw _ s => s end.

(** [init()]. *)
Definition init (l : list string) : Component := mkComponent l None [] [].

(** [data.list.includes(toState)], the list holding names only. *)
Definition includes (l : list string) (x : State) : bool :=
  match x with
  | Some s => existsb (String.eqb s) l
  | None => false
  end.

(** [a || b] on states: [undefined] and the empty string are falsy. *)
Definition orElse (a b : State) : State :=
  match a with
  | Some s => if String.eqb s "" then b else a
  | None => b
  end.

Definition emitStateChange (states : Component) (fromState toState : State) (o : Op)
  : Result :=
  if negb (includes (data_list states) toState)
  then Threw (StateNotDefined toState) states
  else Ok (mkComponent (data_list states) toState (callStack states)
                       (emitted states ++ [mkChange o fromState toState])).

Definition callAndEmit (states : Component) (state : State) : Result :=
  let curState := currentState states in
  let states1 := mkComponent (data_list states) (currentState states)
                             (JsArray.push curState (callStack states))
                             (emitted states) in
  emitStateChange states1 curState state call.

Definition returnAndEmit (states : Component) (state : State) : Result :=
  match JsArray.pop (callStack states) with
  | None => Threw CallStackEmpty states
  | Some (rest, oldState) =>
      let states1 := mkComponent (data_list states) (currentState states) rest
                                 (emitted states) in
      emitStateChange states1 (currentState states) (orElse state oldState) return_
  end.

Definition syncChain (state : State) (this : Component) : Result :=
  emitStateChange this (currentState this) state chain.

Definition syncCall (state : State) (this : Component) : Result :=
  callAndEmit this state.

Definition syncReturn (state : State) (this : Component) : Result :=
  returnAndEmit this state.

(** The operations as data, and a run of them in which every exception is
    caught by the caller. *)
Inductive Method :=
| SyncChain (state : State)
| SyncCall (state : State)
| SyncReturn (state : State).

Definition invoke (m : Method) (this : Component) : Result :=
  match m with
  | SyncChain s => syncChain s this
  | SyncCall s => syncCall s this
  | SyncReturn s => syncReturn s this
  end.

Definition run (ms : list Method) (this : Component) : Component :=
  fold_left (fun c m => after (invoke m c)) ms this.

(** The events lead from [start] to [finish], each one leaving the state
    the one before it entered. *)
Fixpoint linked (start : State) (log : list Change) (finish : State) : Prop :=
  match log with
  | [] => start = finish
  | ch :: r => fromState ch = start /\ linked (toState ch) r finish
  end.

(** A state of the list, or [undefined]. *)
Definition known (l : list string) (x : State) : Prop :=
  match x with
  | Some s => In s l
  | None => True
  end.

(** The calls and returns of [ms] match like brackets, [depth] calls being
    open at its start; a chain counts for nothing. *)
Fixpoint balancedFrom (depth : nat) (ms : list Method) : bool :=
  match ms with
  | [] => Nat.eqb depth 0
  | SyncChain _ :: r => balancedFrom depth r
  | SyncCall _ :: r => balancedFrom (S depth) r
  | SyncReturn _ :: r =>
      match depth with
      | 0 => false
      | S d => balancedFrom d r
      end
  end.

Definition balanced (ms : list Method) : bool := balancedFrom 0 ms.

End States.

(** ** The pool component ([mipool]) *)

(** Entities are named by the order in which [createEntity] made them.
    The numbers of the schema are taken to be whole numbers; the
    container, the visibility of entities and the console are left out,
    and [createEntity] is taken not to throw. *)
Module Pool.

Definition El := nat.

(** A number of [this.state] that may be [undefined]. *)
Inductive Num := Undefined | Number (z : Z).

Record Data := mkData {
  mixin : string;
  datagroup : string;
  size : Z;
  maxSize : Z;
  threshold : Z;
  poolPolicy : string
}.

Inductive EventName := pool_add | pool_remove | pool_return.

(** The component: [this.data], [this.state], the three arrays, the
    entities whose [loaded] listener is still registered, the number of
    entities created so far, [this.dynamicInfo], and the events emitted on
    the entities. *)
Record Component := mkComponent {
  data : Data;
  state_threshold : Num;
  state_maxSize : Z;
  state_size : Z;
  deletedEls : list El;
  availableEls : list El;
  usedEls : list El;
  loading : list El;
  created : nat;
  dynamicInfo : bool;
  events : list (EventName * El)
}.

Definition setData (d : Data) (this : Component) : Component :=
  mkComponent d (state_threshold this) (state_maxSize this) (state_size this)
    (deletedEls this) (availableEls this) (usedEls this) (loading this)
    (created this) (dynamicInfo this) (events this).

Definition setThreshold (t : Num) (this : Component) : Component :=
  mkComponent (data this) t (state_maxSize this) (state_size this)
    (deletedEls this) (availableEls this) (usedEls this) (loading this)
    (created this) (dynamicInfo this) (events this).

Definition setMaxSize (m : Z) (this : Component) : Component :=
  mkComponent (data this) (state_threshold this) m (state_size this)
    (deletedEls this) (availableEls this) (usedEls this) (loading this)
    (created this) (dynamicInfo this) (events this).

Definition setDynamicInfo (b : bool) (this : Component) : Component :=
  mkComponent (data this) (state_threshold this) (state_maxSize this) (state_size this)
    (deletedEls this) (availableEls this) (usedEls this) (loading this)
    (created this) b (events this).

Definition setDeletedEls (l : list El) (this : Component) : Component :=
  mkComponent (data this) (state_threshold this) (state_maxSize this) (state_size this)
    l (availableEls this) (usedEls this) (loading this)
    (created this) (dynamicInfo this) (events this).

(** [l.indexOf(x)]; [None] for [-1]. *)
Fixpoint indexOf (x : El) (l : list El) : option nat :=
  match l with
  | [] => None
  | y :: r =>
      if Nat.eqb x y then Some 0
      else match indexOf x r with
           | Some i => Some (S i)
           | None => None
           end
  end.

(** [init()]. [this.state.size] is not set before [initPool] has run,
    which the first [update] always does; it is modelled as [0]. *)
Definition init (d : Data) : Component :=
  mkComponent d (Number 0) 0 0 [] [] [] [] 0 false [].

(** [initPool()]: the entities in use are moved, last first, to
    [deletedEls]; the available ones are dropped. *)
Definition initPool (this : Component) : Component :=
  mkComponent (data this) (state_threshold this) (state_maxSize this) 0
    (deletedEls this ++ rev (usedEls this)) [] [] (loading this)
    (created this) (dynamicInfo this) (events this).

(** [createEntity()]: a new entity, paused and hidden, is added to the
    container with a listener for its [loaded] event. *)
Definition createEntity (this : Component) : Component :=
  mkComponent (data this) (state_threshold this) (state_maxSize this) (state_size this)
    (deletedEls this) (availableEls this) (usedEls this)
    (loading this ++ [created this])
    (S (created this)) (dynamicInfo this) (events this).

(** The listener of [createEntity], run when [el] is loaded; it removes
    itself. Without a listener the event does nothing here. *)
Definition loaded (el : El) (this : Component) : Component :=
  if JsSet.has Nat.eqb el (loading this)
  then mkComponent (data this) (state_threshold this) (state_maxSize this)
         (state_size this + 1)
         (deletedEls this) (availableEls this ++ [el]) (usedEls this)
         (JsSet.delete Nat.eqb el (loading this))
         (created this) (dynamicInfo this) (events this ++ [(pool_add, el)])
  else this.

(** [for (let i = n; i > 0; i--) f()]. *)
Fixpoint times (n : nat) (f : Component -> Component) (this : Component) : Component :=
  match n with
  | 0 => this
  | S k => times k f (f this)
  end.

(** [oldData.f !== data.f], [oldData] being [{}] on the first update. *)
Definition differs {A : Type} (eqb : A -> A -> bool) (f : Data -> A)
           (oldData : option Data) (d : Data) : bool :=
  match oldData with
  | Some o => negb (eqb (f o) (f d))
  | None => true
  end.

(** [const tgt = Math.ceil(data.size / 2);
     if (this.state.threshold === 0 && this.state.threshold < tgt)
       this.state.threshold = tgt]. *)
Definition thresholdFromSize (this : Component) : Component :=
  let tgt := ((size (data this) + 1) / 2)%Z in
  match state_threshold this with
  | Number z => if (z =? 0)%Z && (z <? tgt)%Z then setThreshold (Number tgt) this else this
  | Undefined => this
  end.

(** [data.threshold > this.state.threshold]. *)
Definition above (x : Z) (n : Num) : bool :=
  match n with
  | Number z => (z <? x)%Z
  | Undefined => false
  end.

(** [update(oldData)]; the value assigned to [this.state.threshold] is
    [data.threshhold], a property the data does not have. *)
Definition update (oldData : option Data) (this : Component) : Component :=
  let d := data this in
  let this1 :=
    if differs String.eqb mixin oldData d || differs String.eqb datagroup oldData d
    then initPool this else this in
  let this2 :=
    if differs Z.eqb size oldData d
    then let this' := setMaxSize (Z.max (size d) (state_maxSize this1)) this1 in
         times (Z.to_nat (size d - state_size this')) createEntity this'
    else this1 in
  let this3 :=
    if differs Z.eqb threshold oldData d && above (threshold d) (state_threshold this2)
    then setThreshold Undefined this2 else this2 in
  let this4 :=
    if differs Z.eqb maxSize oldData d
    then thresholdFromSize (setMaxSize (Z.max (maxSize d) (size d)) this3)
    else this3 in
  if differs String.eqb poolPolicy oldData d
  then if String.eqb (poolPolicy d) "dynamic" then thresholdFromSize this4 else this4
  else this4.

(** The play method [wrapPlay] gives a pooled entity: whether it plays. *)
Definition wrapPlay (el : El) (this : Component) : bool :=
  match indexOf el (usedEls this) with
  | Some _ => true
  | None => false
  end.

(** [this.state.threshold && this.availableEls.length <= this.state.threshold]. *)
Definition atThreshold (this : Component) : bool :=
  match state_threshold this with
  | Number z => negb (z =? 0)%Z && (Z.of_nat (List.length (availableEls this)) <=? z)%Z
  | Undefined => false
  end.

Inductive Reply :=
| Returned (el : option El) (this : Component)
| Thrown (this : Component).

Definition requestEntity (this : Component) : Reply :=
  let this1 :=
    if atThreshold this
    then if (state_size this <? state_maxSize this)%Z then createEntity this
         else if String.eqb (poolPolicy (data this)) "dynamic"
              then createEntity
                     (if (state_maxSize this * 2 <=? state_size this)%Z then this
                      else if negb (dynamicInfo this) then setDynamicInfo true this
                           else this)
              else this
    else this in
  match availableEls this1 with
  | [] =>
      if String.eqb (poolPolicy (data this1)) "ignore" then Returned None this1
      else if String.eqb (poolPolicy (data this1)) "warn" then Returned None this1
           else Thrown this1
  | el :: rest =>
      Returned (Some el)
        (mkComponent (data this1) (state_threshold this1) (state_maxSize this1)
           (state_size this1)
           (deletedEls this1) rest (usedEls this1 ++ [el]) (loading this1)
           (created this1) (dynamicInfo this1) (events this1 ++ [(pool_remove, el)]))
  end.

Section WithRemoveIndex.

(** [removeIndex] of [@micosmo/core/object]. *)
Variable removeIndex : list El -> nat -> list El.

Definition returnEntity (el : El) (this : Component) : option El * Component :=
  match indexOf el (usedEls this) with
  | None =>
      match indexOf el (deletedEls this) with
      | None => (None, this)
      | Some index => (None, setDeletedEls (removeIndex (deletedEls this) index) this)
      end
  | Some index =>
      (Some el,
       mkComponent (data this) (state_threshold this) (state_maxSize this)
         (state_size this)
         (deletedEls this) (availableEls this ++ [el])
         (removeIndex (usedEls this) index) (loading this)
         (created this) (dynamicInfo this) (events this ++ [(pool_return, el)]))
  end.

(** What happens to a pool: its data is replaced, an entity it created is
    loaded, an entity is requested from it or returned to it. *)
Inductive Call :=
| SetData (d : Data)
| Loaded (el : El)
| RequestEntity
| ReturnEntity (el : El).

Definition step (this : Component) (c : Call) : Component :=
  match c with
  | SetData d => update (Some (data this)) (setData d this)
  | Loaded el => loaded el this
  | RequestEntity =>
      match requestEntity this with
      | Returned _ this' => this'
      | Thrown this' => this'
      end
  | ReturnEntity el => snd (returnEntity el this)
  end.

Definition run (cs : list Call) (this : Component) : Component :=
  fold_left step cs this.

End WithRemoveIndex.

(** The pool once attached: [init()], then the first [update]. *)
Definition attach (d : Data) : Component := update None (init d).

(** [removeIndex] as [array.splice(index, 1)]. *)
Definition splice1 (l : list El) (index : nat) : list El :=
  firstn index l ++ skipn (S index) l.

(** What the events say of an entity: not yet in the pool, available in
    it, or handed out. *)
Inductive Phase := Fresh | Idle | Out.

Definition phaseStep (ph : option Phase) (e : EventName) : option Phase :=
  match ph, e with
  | Some Fresh, pool_add => Some Idle
  | Some Idle, pool_remove => Some Out
  | Some Out, pool_return => Some Idle
  | _, _ => None
  end.

(** The phase the events of [log] on [el] lead to: they are to be one
    [pool-add], then [pool-remove] and [pool-return] in turn; [None] when
    they are not. *)
Definition phaseOf (el : El) (log : list (EventName * El)) : option Phase :=
  fold_left (fun ph ev => if Nat.eqb (snd ev) el then phaseStep ph (fst ev) else ph)
            log (Some Fresh).

(** The data of the updates of a run. *)
Definition dataOf (c : Call) : list Data :=
  match c with
  | SetData d => [d]
  | _ => []
  end.

End Pool.

(** ** Invariants used in the proofs *)

(** The registry, apart from what it says of [c]. *)
Definition coherentBut (c : ColliderId) (s : System)
           (ins : ColliderId -> option Instance) : Prop :=
  registryInvariant s /\ atMostOneBucket s
  /\ forall c', c' <> c -> coherentAt s c' (ins c').

(** What every run keeps of a component whose list is [l]. *)
Definition statesInvariant (l : list string) (c : States.Component) : Prop :=
  States.data_list c = l
  /\ States.linked None (States.emitted c) (States.currentState c)
  /\ States.known l (States.currentState c)
  /\ Forall (States.known l) (States.callStack c)
  /\ Forall (fun ch => exists s, States.toState ch = Some s /\ In s l)
            (States.emitted c).

(** What every run keeps of a pool. *)
Record poolInvariant (p : Pool.Component) : Prop := mkPoolInvariant {
  inv_loading : forall el, In el (Pool.loading p) ->
      Pool.phaseOf el (Pool.events p) = Some Pool.Fresh /\ el < Pool.created p;
  inv_available : forall el, In el (Pool.availableEls p) ->
      Pool.phaseOf el (Pool.events p) = Some Pool.Idle;
  inv_used : forall el, In el (Pool.usedEls p) ->
      Pool.phaseOf el (Pool.events p) = Some Pool.Out;
  inv_deleted : forall el, In el (Pool.deletedEls p) ->
      Pool.phaseOf el (Pool.events p) = Some Pool.Out /\ ~ In el (Pool.usedEls p);
  inv_fresh : forall el, Pool.created p <= el ->
      Pool.phaseOf el (Pool.events p) = Some Pool.Fresh;
  inv_phase : forall el, exists ph, Pool.phaseOf el (Pool.events p) = Some ph;
  inv_nodup : NoDup (Pool.loading p) /\ NoDup (Pool.availableEls p)
              /\ NoDup (Pool.usedEls p) /\ NoDup (Pool.deletedEls p);
  inv_size : Pool.state_size p
             = Z.of_nat (List.length (Pool.availableEls p)
                         + List.length (Pool.usedEls p))
}.

(** The thresholds [update] can leave for the data [ds]. *)
Definition thresholdFrom (ds : list Pool.Data) (t : Pool.Num) : Prop :=
  t = Pool.Undefined \/ t = Pool.Number 0
  \/ exists d, In d ds /\ t = Pool.Number ((Pool.size d + 1) / 2).

(** * Properties *)

(** ** Containers *)

Section SetFacts.
Context {A : Type} {eqb : A -> A -> bool}.
Hypothesis eqb_eq : forall x y, eqb x y = true <-> x = y.

Lemma eqb_refl' : forall x, eqb x x = true.
Proof. intro x. apply eqb_eq. reflexivity. Qed.

Lemma eqb_neq' : forall x y, x <> y -> eqb x y = false.
Proof.
  intros x y N. destruct (eqb x y) eqn:E; [|reflexivity].
  apply eqb_eq in E. contradiction.
Qed.

Lemma set_has_In : forall x s, JsSet.has eqb x s = true <-> In x s.
Proof.
  intros x s. unfold JsSet.has. rewrite existsb_exists. split.
  - intros [y [Hy E]]. apply eqb_eq in E. subst. assumption.
  - intro H. exists x. split; [assumption | apply eqb_refl'].
Qed.

Lemma set_has_false : forall x s, JsSet.has eqb x s = false <-> ~ In x s.
Proof.
  intros x s. rewrite <- set_has_In.
  destruct (JsSet.has eqb x s); split; congruence.
Qed.

Lemma set_add_present : forall x s, JsSet.has eqb x s = true -> JsSet.add eqb x s = s.
Proof.
  intros x s. induction s as [|y r IH]; simpl; intro H.
  - discriminate.
  - destruct (eqb x y); [reflexivity|]. simpl in H. rewrite IH; auto.
Qed.

Lemma set_In_add : forall x y s, In y (JsSet.add eqb x s) <-> y = x \/ In y s.
Proof.
  intros x y s. induction s as [|z r IH]; simpl.
  - intuition.
  - destruct (eqb x z) eqn:E.
    + apply eqb_eq in E. subst z. simpl. intuition.
    + simpl. rewrite IH. intuition.
Qed.

Lemma set_has_add : forall x y s,
  JsSet.has eqb y (JsSet.add eqb x s) = eqb y x || JsSet.has eqb y s.
Proof.
  intros x y s.
  destruct (JsSet.has eqb y (JsSet.add eqb x s)) eqn:H.
  - apply set_has_In, set_In_add in H. symmetry. apply orb_true_iff.
    destruct H as [H|H]; [left; apply eqb_eq; assumption | right; apply set_has_In; assumption].
  - symmetry. apply orb_false_iff. apply set_has_false in H.
    rewrite set_In_add in H. split.
    + destruct (eqb y x) eqn:E; [|reflexivity]. apply eqb_eq in E. tauto.
    + apply set_has_false. tauto.
Qed.

Lemma set_NoDup_add : forall x s, NoDup s -> NoDup (JsSet.add eqb x s).
Proof.
  intros x s. induction s as [|y r IH]; simpl; intro H.
  - constructor; [simpl; tauto | constructor].
  - destruct (eqb x y) eqn:E; [assumption|].
    inversion H as [|? ? Hy Hr]; subst. constructor.
    + rewrite set_In_add. intros [->|Hin]; [|contradiction].
      rewrite eqb_refl' in E. discriminate.
    + apply IH. assumption.
Qed.

Lemma set_In_delete : forall x y s, In y (JsSet.delete eqb x s) <-> In y s /\ y <> x.
Proof.
  intros x y s. unfold JsSet.delete. rewrite filter_In. split.
  - intros [Hin E]. split; [assumption|]. intros ->.
    rewrite eqb_refl' in E. discriminate.
  - intros [Hin N]. split; [assumption|]. rewrite eqb_neq'; auto.
Qed.

Lemma set_NoDup_delete : forall x s, NoDup s -> NoDup (JsSet.delete eqb x s).
Proof. intros x s H. unfold JsSet.delete. apply NoDup_filter. assumption. Qed.

Lemma set_delete_absent : forall x s, ~ In x s -> JsSet.delete eqb x s = s.
Proof.
  intros x s. induction s as [|y r IH]; simpl; intro H; [reflexivity|].
  rewrite eqb_neq' by (intros ->; apply H; left; reflexivity).
  simpl. rewrite IH; tauto.
Qed.
End SetFacts.

Section MapFacts.
Context {K V : Type} {eqb : K -> K -> bool}.
Hypothesis eqb_eq : forall x y, eqb x y = true <-> x = y.

Lemma map_get_set_same : forall k (v : V) m, JsMap.get eqb k (JsMap.set eqb k v m) = Some v.
Proof.
  intros k v m. induction m as [|[k' v'] r IH]; simpl.
  - rewrite (eqb_refl' eqb_eq). reflexivity.
  - destruct (eqb k k') eqn:E; simpl; rewrite E; auto.
Qed.

Lemma map_get_set_other : forall k k' (v : V) m,
  k <> k' -> JsMap.get eqb k' (JsMap.set eqb k v m) = JsMap.get eqb k' m.
Proof.
  intros k k' v m N. induction m as [|[k0 v0] r IH]; simpl.
  - rewrite (eqb_neq' eqb_eq); auto.
  - destruct (eqb k k0) eqn:E; simpl.
    + apply eqb_eq in E. subst k0. rewrite (eqb_neq' eqb_eq); auto.
    + destruct (eqb k' k0); auto.
Qed.

Lemma map_set_get_id : forall k (v : V) m, JsMap.get eqb k m = Some v -> JsMap.set eqb k v m = m.
Proof.
  intros k v m. induction m as [|[k' v'] r IH]; simpl; intro H.
  - discriminate.
  - destruct (eqb k k'); [congruence|]. rewrite IH; auto.
Qed.

Lemma map_set_set : forall k (v v' : V) m,
  JsMap.set eqb k v (JsMap.set eqb k v' m) = JsMap.set eqb k v m.
Proof.
  intros k v v' m. induction m as [|[k0 v0] r IH]; simpl.
  - rewrite (eqb_refl' eqb_eq). reflexivity.
  - destruct (eqb k k0) eqn:E; simpl; rewrite E; [reflexivity|]. rewrite IH. reflexivity.
Qed.

Lemma map_get_In : forall k (v : V) m, JsMap.get eqb k m = Some v -> In (k, v) m.
Proof.
  intros k v m. induction m as [|[k' v'] r IH]; simpl; intro H.
  - discriminate.
  - destruct (eqb k k') eqn:E.
    + apply eqb_eq in E. left. congruence.
    + right. auto.
Qed.

Lemma map_In_get : forall k (v : V) m,
  NoDup (map fst m) -> In (k, v) m -> JsMap.get eqb k m = Some v.
Proof.
  intros k v m. induction m as [|[k' v'] r IH]; simpl; intros ND H.
  - contradiction.
  - inversion ND as [|? ? Hk Hr]; subst. destruct H as [H|H].
    + inversion H; subst. rewrite (eqb_refl' eqb_eq). reflexivity.
    + destruct (eqb k k') eqn:E; [|auto].
      apply eqb_eq in E. subst k'. exfalso. apply Hk.
      change k with (fst (k, v)). apply in_map. assumption.
Qed.

Lemma map_get_none_keys : forall k (m : list (K * V)),
  JsMap.get eqb k m = None <-> ~ In k (map fst m).
Proof.
  intros k m. induction m as [|[k' v'] r IH]; simpl.
  - intuition.
  - destruct (eqb k k') eqn:E.
    + apply eqb_eq in E. subst. split; [discriminate |].
      intro H. exfalso. apply H. left. reflexivity.
    + rewrite IH. split; [|tauto]. intros H [H1|H1]; [|tauto].
      subst. rewrite (eqb_refl' eqb_eq) in E. discriminate.
Qed.

Lemma map_keys_set_present : forall k (v v0 : V) m,
  JsMap.get eqb k m = Some v0 -> map fst (JsMap.set eqb k v m) = map fst m.
Proof.
  intros k v v0 m. induction m as [|[k' v'] r IH]; simpl; intro H.
  - discriminate.
  - destruct (eqb k k'); simpl; [reflexivity|]. rewrite IH; auto.
Qed.

Lemma map_keys_set_absent : forall k (v : V) m,
  JsMap.get eqb k m = None -> map fst (JsMap.set eqb k v m) = map fst m ++ [k].
Proof.
  intros k v m. induction m as [|[k' v'] r IH]; simpl; intro H.
  - reflexivity.
  - destruct (eqb k k'); simpl; [discriminate|]. rewrite IH; auto.
Qed.

Lemma map_NoDup_set : forall k (v : V) m,
  NoDup (map fst m) -> NoDup (map fst (JsMap.set eqb k v m)).
Proof.
  intros k v m ND. destruct (JsMap.get eqb k m) eqn:G.
  - rewrite (map_keys_set_present _ v _ _ G). assumption.
  - rewrite (map_keys_set_absent _ v _ G).
    apply NoDup_app; [assumption | constructor; [simpl; tauto | constructor] |].
    intros a Ha [<-|[]]. apply map_get_none_keys in G. contradiction.
Qed.

Lemma map_In_set : forall k (v : V) m e,
  In e (JsMap.set eqb k v m) -> e = (k, v) \/ In e m.
Proof.
  intros k v m e. induction m as [|[k' v'] r IH]; simpl.
  - intuition.
  - destruct (eqb k k') eqn:E; simpl.
    + apply eqb_eq in E. subst k'. intuition.
    + intuition.
Qed.
End MapFacts.

(** ** Graphs *)

Lemma hasCollided_get : forall a b g,
  hasCollided a b g =
  match JsMap.get Nat.eqb a g with
  | Some cols => JsSet.has Nat.eqb b cols
  | None => false
  end.
Proof.
  intros a b g. unfold hasCollided, JsMap.has.
  destruct (JsMap.get Nat.eqb a g); reflexivity.
Qed.

Lemma addCollision_recordEdge : forall w c1 c2 l m,
  addCollision w c1 c2 l m =
  Done (mkMachine
          (setCollisions
             (recordEdge (ignoreDuplicates (data (w c1))) c1 c2 (collisions (sys m)))
             (sys m))
          (emitted m)).
Proof.
  intros w c1 c2 l [s evs]. unfold addCollision, recordEdge. simpl.
  rewrite <- andb_assoc. fold (hasCollided c2 c1 (collisions s)).
  destruct (ignoreDuplicates (data (w c1)) && hasCollided c2 c1 (collisions s)).
  - destruct s; reflexivity.
  - unfold JsMap.has. destruct (JsMap.get Nat.eqb c1 (collisions s)) eqn:G; simpl.
    + rewrite G. reflexivity.
    + rewrite (map_get_set_same Nat.eqb_eq). unfold setCollisions. simpl.
      rewrite (map_set_set Nat.eqb_eq). reflexivity.
Qed.

Lemma hasCollided_recordEdge : forall ign c1 c2 a b g,
  hasCollided a b (recordEdge ign c1 c2 g) =
  hasCollided a b g
  || (Nat.eqb a c1 && Nat.eqb b c2 && negb (ign && hasCollided c2 c1 g)).
Proof.
  intros ign c1 c2 a b g. unfold recordEdge.
  destruct (ign && hasCollided c2 c1 g) eqn:S; simpl.
  - rewrite andb_false_r, orb_false_r. reflexivity.
  - rewrite andb_true_r. rewrite !hasCollided_get.
    destruct (Nat.eqb a c1) eqn:E.
    + apply Nat.eqb_eq in E. subst a.
      rewrite (map_get_set_same Nat.eqb_eq), (set_has_add Nat.eqb_eq). simpl.
      destruct (JsMap.get Nat.eqb c1 g); simpl.
      * apply orb_comm.
      * rewrite orb_false_r. reflexivity.
    + apply Nat.eqb_neq in E.
      rewrite (map_get_set_other Nat.eqb_eq) by congruence.
      simpl. rewrite orb_false_r. reflexivity.
Qed.

Lemma recordEdge_present : forall ign c1 c2 g,
  hasCollided c1 c2 g = true -> recordEdge ign c1 c2 g = g.
Proof.
  intros ign c1 c2 g H. unfold recordEdge.
  destruct (ign && hasCollided c2 c1 g); [reflexivity|].
  rewrite hasCollided_get in H.
  destruct (JsMap.get Nat.eqb c1 g) eqn:G; [|discriminate].
  rewrite set_add_present by assumption.
  apply map_set_get_id. assumption.
Qed.

Lemma wfGraph_nil : wfGraph [].
Proof. split; constructor. Qed.

Lemma wfGraph_recordEdge : forall ign c1 c2 g,
  wfGraph g -> wfGraph (recordEdge ign c1 c2 g).
Proof.
  intros ign c1 c2 g [ND F]. unfold recordEdge.
  destruct (ign && hasCollided c2 c1 g); [split; assumption|].
  split.
  - apply (map_NoDup_set Nat.eqb_eq). assumption.
  - apply Forall_forall. intros e He.
    apply (map_In_set Nat.eqb_eq) in He. destruct He as [->|He].
    + simpl. apply (set_NoDup_add Nat.eqb_eq).
      destruct (JsMap.get Nat.eqb c1 g) eqn:G; [|constructor].
      apply (map_get_In Nat.eqb_eq) in G.
      rewrite Forall_forall in F. apply (F _ G).
    + rewrite Forall_forall in F. apply F. assumption.
Qed.

Lemma In_edgesOf : forall a b g,
  In (a, b) (edgesOf g) <-> exists cols, In (a, cols) g /\ In b cols.
Proof.
  intros a b g. unfold edgesOf. rewrite in_flat_map. split.
  - intros [[k cols] [He Hin]]. simpl in Hin. apply in_map_iff in Hin.
    destruct Hin as [x [E Hx]]. inversion E; subst. exists cols. auto.
  - intros [cols [He Hb]]. exists (a, cols). split; [assumption|].
    simpl. apply in_map. assumption.
Qed.

Lemma hasCollided_edgesOf : forall a b g,
  hasCollided a b g = true -> In (a, b) (edgesOf g).
Proof.
  intros a b g H. rewrite hasCollided_get in H.
  destruct (JsMap.get Nat.eqb a g) eqn:G; [|discriminate].
  apply In_edgesOf. exists l. split.
  - apply (map_get_In Nat.eqb_eq). assumption.
  - apply (set_has_In Nat.eqb_eq). assumption.
Qed.

Lemma edgesOf_hasCollided : forall a b g,
  NoDup (map fst g) -> In (a, b) (edgesOf g) -> hasCollided a b g = true.
Proof.
  intros a b g ND H. apply In_edgesOf in H. destruct H as [cols [He Hb]].
  rewrite hasCollided_get, (map_In_get Nat.eqb_eq _ _ _ ND He).
  apply (set_has_In Nat.eqb_eq). assumption.
Qed.

Lemma NoDup_map_pair : forall (k : ColliderId) (cols : list ColliderId),
  NoDup cols -> NoDup (map (pair k) cols).
Proof.
  intros k cols H. induction H as [|x r Hx Hr IH]; simpl; constructor.
  - intro Hin. apply in_map_iff in Hin. destruct Hin as [y [E Hy]].
    inversion E; subst. contradiction.
  - assumption.
Qed.

Lemma NoDup_edgesOf : forall g, wfGraph g -> NoDup (edgesOf g).
Proof.
  intros g [ND F]. induction g as [|[k cols] r IH]; simpl.
  - constructor.
  - inversion ND as [|? ? Hk Hr]; subst. inversion F as [|? ? Hc Hf]; subst.
    apply NoDup_app.
    + apply NoDup_map_pair. assumption.
    + apply IH; assumption.
    + intros [a b] H1 H2. apply in_map_iff in H1. destruct H1 as [x [E _]].
      inversion E; subst. apply In_edgesOf in H2. destruct H2 as [cols' [He _]].
      apply Hk. change a with (fst (a, cols')). apply in_map. assumption.
Qed.

(** ** Loops *)

Lemma forOf_app : forall {X} (xs ys : list X) body m,
  forOf (xs ++ ys) body m =
  match forOf xs body m with
  | Done m' => forOf ys body m'
  | Raised e m' => Raised e m'
  end.
Proof.
  intros X xs ys body. induction xs as [|x r IH]; intro m; simpl.
  - reflexivity.
  - destruct (body x m); [apply IH | reflexivity].
Qed.

Lemma forOf_map : forall {X Y} (f : X -> Y) xs body m,
  forOf (map f xs) body m = forOf xs (fun x => body (f x)) m.
Proof.
  intros X Y f xs body. induction xs as [|x r IH]; intro m; simpl.
  - reflexivity.
  - destruct (body (f x) m); [apply IH | reflexivity].
Qed.

Lemma forOf_filter : forall {X} (f : X -> bool) xs body m,
  forOf (filter f xs) body m =
  forOf xs (fun x m1 => if f x then body x m1 else Done m1) m.
Proof.
  intros X f xs body. induction xs as [|x r IH]; intro m; simpl.
  - reflexivity.
  - destruct (f x); simpl.
    + destruct (body x m); [apply IH | reflexivity].
    + apply IH.
Qed.

Lemma forOf_flat_map : forall {X Y} (f : X -> list Y) xs body m,
  forOf (flat_map f xs) body m = forOf xs (fun x => forOf (f x) body) m.
Proof.
  intros X Y f xs body. induction xs as [|x r IH]; intro m; simpl.
  - reflexivity.
  - rewrite forOf_app. destruct (forOf (f x) body m); [apply IH | reflexivity].
Qed.

(** A property every iteration keeps, whether it completes or throws, holds
    of the state the loop ends in. *)
Lemma forOf_invariant : forall {X} (P : Machine -> Prop) (xs : list X) body,
  (forall x m, In x xs -> P m -> P (machineOf (body x m))) ->
  forall m, P m -> P (machineOf (forOf xs body m)).
Proof.
  intros X P xs body. induction xs as [|x r IH]; intros H m Pm; simpl.
  - assumption.
  - assert (Hx : P (machineOf (body x m))) by (apply H; [left; reflexivity | assumption]).
    destruct (body x m) as [m'|e m']; simpl in *.
    + apply IH; [|assumption]. intros y m0 Hy. apply H. right. assumption.
    + assumption.
Qed.

(** Two bodies that agree on the states an invariant allows run the same
    loop. *)
Lemma forOf_ext : forall {X} (P : Machine -> Prop) (xs : list X) b1 b2,
  (forall x m, In x xs -> P m -> b1 x m = b2 x m) ->
  (forall x m, In x xs -> P m -> P (machineOf (b1 x m))) ->
  forall m, P m -> forOf xs b1 m = forOf xs b2 m.
Proof.
  intros X P xs b1 b2. induction xs as [|x r IH]; intros E I m Pm; simpl.
  - reflexivity.
  - rewrite <- (E x m) by (simpl; auto).
    assert (Hx : P (machineOf (b1 x m))) by (apply I; simpl; auto).
    destruct (b1 x m) as [m'|e m']; simpl in *; [|reflexivity].
    apply IH;
      [ intros y m0 Hy; apply E; right; assumption
      | intros y m0 Hy; apply I; right; assumption
      | assumption ].
Qed.

(** ** The candidate loop *)

(** [addAnyCollisions] changes nothing but [this.collisions], by
    [recordEdge] when it records. *)
Lemma addAnyCollisions_effect : forall w c1 c2 m,
  exists g,
    machineOf (addAnyCollisions w c1 c2 m)
    = mkMachine (setCollisions g (sys m)) (emitted m)
    /\ (g = collisions (sys m)
        \/ (overlapping (w c1) (w c2) = true
            /\ g = recordEdge (ignoreDuplicates (data (w c1))) c1 c2 (collisions (sys m)))).
Proof.
  intros w c1 c2 [s evs]. unfold addAnyCollisions, overlapping. simpl.
  destruct (skipped (w c1) (w c2)); simpl.
  - exists (collisions s). split; [destruct s; reflexivity | left; reflexivity].
  - destruct (lookupMethod (methName (w c1) (w c2))) as [meth|]; simpl.
    + destruct (meth (w c1) (w c2)) eqn:T.
      * rewrite addCollision_recordEdge. simpl. eexists. split; [reflexivity|].
        right. split; reflexivity.
      * exists (collisions s). split; [destruct s; reflexivity | left; reflexivity].
    + exists (collisions s). split; [destruct s; reflexivity | left; reflexivity].
Qed.

Lemma frameOf_refl : forall m, frameOf m m.
Proof. intro m. repeat split. Qed.

Lemma addAnyCollisions_frame : forall w c1 c2 m0 m,
  frameOf m0 m -> frameOf m0 (machineOf (addAnyCollisions w c1 c2 m)).
Proof.
  intros w c1 c2 m0 m F. destruct (addAnyCollisions_effect w c1 c2 m) as [g [E _]].
  rewrite E. unfold frameOf in *. simpl. assumption.
Qed.

Lemma buildGraph_candidates : forall w m,
  buildGraph w m =
  forOf (candidates w (sys m)) (fun p => addAnyCollisions w (fst p) (snd p)) m.
Proof.
  intros w m. unfold buildGraph, candidates, turnOf. rewrite forOf_flat_map.
  apply (forOf_ext (frameOf m)); [| |apply frameOf_refl].
  - intros c1 m1 _ F1. rewrite forOf_flat_map.
    apply (forOf_ext (frameOf m)); [| |assumption].
    + intros l m2 _ F2.
      assert (L : layers (sys m2) = layers (sys m)) by apply F2.
      rewrite L. unfold JsMap.has.
      destruct (JsMap.get String.eqb l (layers (sys m))) as [bucket|]; simpl.
      * rewrite forOf_map, forOf_filter. reflexivity.
      * reflexivity.
    + intros l m2 _ F2.
      destruct (negb (JsMap.has String.eqb l (layers (sys m2)))); [assumption|].
      destruct (JsMap.get String.eqb l (layers (sys m2))) as [bucket|]; [|assumption].
      apply forOf_invariant; [|assumption].
      intros c2 m3 _ F3. destruct (negb (Nat.eqb c1 c2)); [|assumption].
      apply addAnyCollisions_frame. assumption.
  - intros c1 m1 _ F1. apply forOf_invariant; [|assumption].
    intros l m2 _ F2.
    destruct (negb (JsMap.has String.eqb l (layers (sys m2)))); [assumption|].
    destruct (JsMap.get String.eqb l (layers (sys m2))) as [bucket|]; [|assumption].
    apply forOf_invariant; [|assumption].
    intros c2 m3 _ F3. destruct (negb (Nat.eqb c1 c2)); [|assumption].
    apply addAnyCollisions_frame. assumption.
Qed.

Lemma candidates_loop_invariant : forall (P : Graph -> Prop) w xs,
  (forall c1 c2 g, In (c1, c2) xs -> overlapping (w c1) (w c2) = true ->
                   P g -> P (recordEdge (ignoreDuplicates (data (w c1))) c1 c2 g)) ->
  forall m, P (collisions (sys m)) ->
  let m' := machineOf (forOf xs (fun p => addAnyCollisions w (fst p) (snd p)) m) in
  P (collisions (sys m')) /\ frameOf m m'.
Proof.
  intros P w xs Step m Pm.
  apply (forOf_invariant (fun m1 => P (collisions (sys m1)) /\ frameOf m m1)).
  - intros [c1 c2] m1 Hin [P1 F1]. simpl.
    destruct (addAnyCollisions_effect w c1 c2 m1) as [g [E Hg]].
    split; [|apply addAnyCollisions_frame; assumption].
    rewrite E. simpl. destruct Hg as [->|[O ->]]; [assumption|].
    apply Step; assumption.
  - split; [assumption | apply frameOf_refl].
Qed.

Lemma In_candidates : forall w s c1 c2,
  In (c1, c2) (candidates w s) <->
  In c1 (colliders s) /\ c1 <> c2
  /\ exists l bucket, In l (collidesWith (data (w c1)))
                      /\ JsMap.get String.eqb l (layers s) = Some bucket
                      /\ In c2 bucket.
Proof.
  intros w s c1 c2. unfold candidates, turnOf. rewrite in_flat_map. split.
  - intros [a [Ha H]]. apply in_flat_map in H. destruct H as [l [Hl H]].
    destruct (JsMap.get String.eqb l (layers s)) as [bucket|] eqn:G; [|contradiction].
    apply in_map_iff in H. destruct H as [b [E Hb]]. inversion E; subst.
    apply filter_In in Hb. destruct Hb as [Hb N].
    apply negb_true_iff, Nat.eqb_neq in N.
    split; [assumption|]. split; [assumption|]. exists l, bucket. auto.
  - intros [Hc [N [l [bucket [Hl [G Hb]]]]]]. exists c1. split; [assumption|].
    apply in_flat_map. exists l. split; [assumption|]. rewrite G.
    apply in_map. apply filter_In. split; [assumption|].
    apply negb_true_iff, Nat.eqb_neq. assumption.
Qed.

(** ** The diff passes *)

Lemma emission_fields : forall w name c1 c2 ev,
  emission w name c1 c2 = Some ev ->
  evName ev = name /\ evC1 ev = c1 /\ evC2 ev = c2.
Proof.
  intros w name c1 c2 ev. unfold emission.
  destruct (components (el (w c1))) as [comps|]; [|discriminate].
  destruct (JsMap.get String.eqb (attrName (w c1)) comps) as [d1|]; [|discriminate].
  destruct (eventTarget d1).
  - destruct (components (el (w c2))) as [comps2|]; [|discriminate].
    destruct (JsMap.get String.eqb (attrName (w c2)) comps2); [|discriminate].
    intro E. inversion E. auto.
  - intro E. inversion E. auto.
Qed.

Lemma emitAll_can : forall w name edges m,
  forallb (canEmit w name) edges = true ->
  emitAll w name edges m
  = Done (mkMachine (sys m) (emitted m ++ eventsFor w name edges)).
Proof.
  intros w name edges. unfold emitAll.
  induction edges as [|p r IH]; intros [s evs] H; simpl.
  - rewrite app_nil_r. reflexivity.
  - simpl in H. apply andb_true_iff in H. destruct H as [Hp Hr].
    unfold emitEvent, canEmit in *.
    destruct (emission w name (fst p) (snd p)) as [ev|]; [|discriminate].
    simpl. rewrite IH by assumption. simpl. rewrite <- app_assoc. reflexivity.
Qed.

Lemma emitAll_Done : forall w name edges m m',
  emitAll w name edges m = Done m' -> forallb (canEmit w name) edges = true.
Proof.
  intros w name edges. unfold emitAll.
  induction edges as [|p r IH]; intros m m' H; simpl in *.
  - reflexivity.
  - unfold emitEvent, canEmit in *.
    destruct (emission w name (fst p) (snd p)) as [ev|]; [|discriminate].
    simpl. eapply IH. eassumption.
Qed.

(** Whatever the outcome, [emitAll] touches only the event log, and logs
    only emissions of its edges. *)
Lemma emitAll_log : forall w name edges m,
  let m' := machineOf (emitAll w name edges m) in
  sys m' = sys m
  /\ exists evs, emitted m' = emitted m ++ evs
                 /\ forall ev, In ev evs ->
                      exists p, In p edges /\ emission w name (fst p) (snd p) = Some ev.
Proof.
  intros w name edges. unfold emitAll.
  induction edges as [|p r IH]; intros m; simpl.
  - split; [reflexivity|]. exists []. rewrite app_nil_r. split; [reflexivity|].
    intros ev [].
  - assert (Hb : emitEvent w name (fst p) (snd p) m
                 = match emission w name (fst p) (snd p) with
                   | Some ev => Done (mkMachine (sys m) (emitted m ++ [ev]))
                   | None => Raised TypeError m
                   end) by reflexivity.
    rewrite Hb. clear Hb.
    destruct (emission w name (fst p) (snd p)) as [ev|] eqn:E; simpl.
    + destruct (IH (mkMachine (sys m) (emitted m ++ [ev]))) as [S [evs [L H]]].
      simpl in *. split; [assumption|]. exists (ev :: evs). split.
      * rewrite L. rewrite <- app_assoc. reflexivity.
      * intros ev' [<-|Hin].
        -- exists p. auto.
        -- destruct (H ev' Hin) as [q [Hq Eq]]. exists q. auto.
    + split; [reflexivity|]. exists []. rewrite app_nil_r. split; [reflexivity|].
      intros ev [].
Qed.

Lemma endDiff_emitAll : forall w m,
  endDiff w m
  = emitAll w collisionend
      (endEdges (prevCollisions (sys m)) (collisions (sys m))) m.
Proof.
  intros w m. unfold endDiff, emitAll, endEdges, edgesOf.
  rewrite forOf_filter, forOf_flat_map.
  apply (forOf_ext (fun m1 => sys m1 = sys m)); [| |reflexivity].
  - intros [c1 cols] m1 _ S1. simpl. rewrite forOf_map.
    apply (forOf_ext (fun m1 => sys m1 = sys m)); [| |assumption].
    + intros c2 m2 _ S2. simpl. rewrite S2. reflexivity.
    + intros c2 m2 _ S2.
      destruct (negb (hasCollided c1 c2 (collisions (sys m2)))); [|assumption].
      unfold emitEvent. destruct (emission w collisionend c1 c2); assumption.
  - intros [c1 cols] m1 _ S1. simpl. apply forOf_invariant; [|assumption].
    intros c2 m2 _ S2.
    destruct (negb (hasCollided c1 c2 (collisions (sys m2)))); [|assumption].
    unfold emitEvent. destruct (emission w collisionend c1 c2); assumption.
Qed.

(** In the start pass [addCollision] meets an edge that is already in
    [this.collisions], so it changes nothing and [this.newCollisions] stays
    empty. *)
Lemma startDiff_emitAll : forall w m,
  NoDup (map fst (collisions (sys m))) ->
  startDiff w m
  = emitAll w collisionstart
      (startEdges (prevCollisions (sys m)) (collisions (sys m)))
      (mkMachine (setNewCollisions [] (sys m)) (emitted m)).
Proof.
  intros w m ND. unfold startDiff, seq, update.
  set (m0 := mkMachine (setNewCollisions [] (sys m)) (emitted m)).
  change (collisions (sys m0)) with (collisions (sys m)).
  unfold emitAll, startEdges. rewrite forOf_filter.
  assert (Body : forall c1 c2 m1, In (c1, c2) (edgesOf (collisions (sys m))) ->
            sys m1 = sys m0 ->
            (addCollision w c1 c2 (newCollisions (sys m1)) >> emitEvent w collisionstart c1 c2) m1
            = emitEvent w collisionstart c1 c2 m1).
  { intros c1 c2 m1 Hin S1. unfold seq. rewrite addCollision_recordEdge.
    rewrite S1. simpl. rewrite recordEdge_present by (apply edgesOf_hasCollided; assumption).
    replace (mkMachine (setCollisions (collisions (sys m)) (setNewCollisions [] (sys m))) (emitted m1))
      with m1; [reflexivity|].
    destruct m1 as [s1 e1]. simpl in S1. subst s1. unfold m0. simpl.
    destruct (sys m); reflexivity. }
  assert (Keep : forall c1 c2 m1, sys m1 = sys m0 ->
            sys (machineOf (emitEvent w collisionstart c1 c2 m1)) = sys m0).
  { intros c1 c2 m1 S1. unfold emitEvent.
    destruct (emission w collisionstart c1 c2); assumption. }
  unfold edgesOf. rewrite forOf_flat_map.
  assert (Inner : forall c1 cols m1, In (c1, cols) (collisions (sys m)) ->
            sys m1 = sys m0 ->
            forOf cols (fun c2 m2 =>
                if negb (hasCollided c1 c2 (prevCollisions (sys m2)))
                then (addCollision w c1 c2 (newCollisions (sys m2))
                      >> emitEvent w collisionstart c1 c2) m2
                else Done m2) m1
            = forOf (map (pair c1) cols) (fun x m2 =>
                if negb (hasCollided (fst x) (snd x) (prevCollisions (sys m)))
                then emitEvent w collisionstart (fst x) (snd x) m2
                else Done m2) m1
            /\ sys (machineOf (forOf cols (fun c2 m2 =>
                if negb (hasCollided c1 c2 (prevCollisions (sys m2)))
                then (addCollision w c1 c2 (newCollisions (sys m2))
                      >> emitEvent w collisionstart c1 c2) m2
                else Done m2) m1)) = sys m0).
  { intros c1 cols m1 Hin S1. split.
    - rewrite forOf_map.
      apply (forOf_ext (fun m2 => sys m2 = sys m0)); [| |assumption].
      + intros c2 m2 Hc S2. simpl. rewrite S2. simpl.
        destruct (negb (hasCollided c1 c2 (prevCollisions (sys m)))); [|reflexivity].
        apply Body; [|assumption]. apply In_edgesOf. exists cols. auto.
      + intros c2 m2 Hc S2.
        destruct (negb (hasCollided c1 c2 (prevCollisions (sys m2)))); [|assumption].
        rewrite Body; [apply Keep; assumption | | assumption].
        apply In_edgesOf. exists cols. auto.
    - apply (forOf_invariant (fun m2 => sys m2 = sys m0)); [|assumption].
      intros c2 m2 Hc S2.
      destruct (negb (hasCollided c1 c2 (prevCollisions (sys m2)))); [|assumption].
      rewrite Body; [apply Keep; assumption | | assumption].
      apply In_edgesOf. exists cols. auto. }
  apply (forOf_ext (fun m1 => sys m1 = sys m0)); [| |reflexivity].
  - intros [c1 cols] m1 Hin S1. simpl. apply Inner; assumption.
  - intros [c1 cols] m1 Hin S1. simpl. apply Inner; assumption.
Qed.

(** ** One tick *)

Lemma build_wfGraph : forall w m,
  wfGraph (collisions (sys m)) ->
  wfGraph (collisions (sys (machineOf (buildGraph w m))))
  /\ frameOf m (machineOf (buildGraph w m)).
Proof.
  intros w m W. rewrite buildGraph_candidates.
  apply (candidates_loop_invariant wfGraph); [|assumption].
  intros c1 c2 g _ _ Wg. apply wfGraph_recordEdge. assumption.
Qed.

Lemma tick_unfold : forall w m,
  tick w m =
  match buildGraph w (swapped m) with
  | Done mb => (startDiff w >> endDiff w) mb
  | Raised e mb => Raised e mb
  end.
Proof.
  intros w m. unfold tick, seq, swapBuffers, update, swapped.
  destruct (buildGraph w _); reflexivity.
Qed.

(** What a completed tick did: the graph of the tick before is kept as
    [prevCollisions], the candidate loop built the new graph, and the log
    grew by the start events, then the end events. *)
Lemma tick_Done : forall w m m',
  tick w m = Done m' ->
  exists mb,
    buildGraph w (swapped m) = Done mb
    /\ frameOf (swapped m) mb
    /\ wfGraph (collisions (sys mb))
    /\ sys m' = setNewCollisions [] (sys mb)
    /\ forallb (canEmit w collisionstart)
         (startEdges (collisions (sys m)) (collisions (sys mb))) = true
    /\ forallb (canEmit w collisionend)
         (endEdges (collisions (sys m)) (collisions (sys mb))) = true
    /\ emitted m' =
       emitted m
       ++ eventsFor w collisionstart (startEdges (collisions (sys m)) (collisions (sys mb)))
       ++ eventsFor w collisionend (endEdges (collisions (sys m)) (collisions (sys mb))).
Proof.
  intros w m m' H. rewrite tick_unfold in H.
  destruct (build_wfGraph w (swapped m) wfGraph_nil) as [W F].
  destruct (buildGraph w (swapped m)) as [mb|e mb] eqn:B; [|discriminate].
  simpl in W, F. exists mb. split; [reflexivity|]. split; [assumption|].
  split; [assumption|].
  assert (Pv : prevCollisions (sys mb) = collisions (sys m)) by apply F.
  assert (Em : emitted mb = emitted m) by apply F.
  unfold seq in H. rewrite startDiff_emitAll in H by apply W.
  rewrite Pv in H.
  destruct (emitAll w collisionstart _ _) as [m1|e m1] eqn:S; [|discriminate].
  pose proof (emitAll_Done _ _ _ _ _ S) as CS.
  rewrite (emitAll_can _ _ _ _ CS) in S. inversion S; subst m1; clear S.
  rewrite endDiff_emitAll in H. simpl in H. rewrite Pv in H.
  pose proof (emitAll_Done _ _ _ _ _ H) as CE.
  rewrite (emitAll_can _ _ _ _ CE) in H. inversion H; subst m'; clear H.
  simpl. rewrite Em, <- app_assoc. repeat split; assumption.
Qed.

(** A tick completes when its candidate loop does and every event it owes
    can be emitted. *)
Lemma tick_completes : forall w m mb,
  buildGraph w (swapped m) = Done mb ->
  forallb (canEmit w collisionstart)
    (startEdges (collisions (sys m)) (collisions (sys mb))) = true ->
  forallb (canEmit w collisionend)
    (endEdges (collisions (sys m)) (collisions (sys mb))) = true ->
  exists m', tick w m = Done m'.
Proof.
  intros w m mb B CS CE. rewrite tick_unfold, B.
  destruct (build_wfGraph w (swapped m) wfGraph_nil) as [W F].
  rewrite B in W, F. simpl in W, F.
  assert (Pv : prevCollisions (sys mb) = collisions (sys m)) by apply F.
  unfold seq. rewrite startDiff_emitAll by apply W. rewrite Pv.
  rewrite (emitAll_can _ _ _ _ CS). rewrite endDiff_emitAll. simpl. rewrite Pv.
  rewrite (emitAll_can _ _ _ _ CE). eexists. reflexivity.
Qed.

(** ** Counting events *)

Lemma countEvents_app : forall name a b l1 l2,
  countEvents name a b (l1 ++ l2) = countEvents name a b l1 + countEvents name a b l2.
Proof.
  intros. unfold countEvents. rewrite filter_app, length_app. reflexivity.
Qed.

Lemma eventNameEqb_eq : forall x y, eventNameEqb x y = true <-> x = y.
Proof. intros [] []; simpl; split; congruence. Qed.

Lemma isEvent_emission : forall w name' p ev name a b,
  emission w name' (fst p) (snd p) = Some ev ->
  isEvent name a b ev = true <-> name' = name /\ p = (a, b).
Proof.
  intros w name' [c1 c2] ev name a b E. apply emission_fields in E.
  destruct E as [En [E1 E2]]. simpl in *. unfold isEvent.
  rewrite !andb_true_iff, eventNameEqb_eq, !Nat.eqb_eq. subst.
  split; [intros [[-> ->] ->]; auto | intros [-> E]; inversion E; auto].
Qed.

Lemma countEvents_other_name : forall w name' name a b edges,
  name' <> name -> countEvents name a b (eventsFor w name' edges) = 0.
Proof.
  intros w name' name a b edges N. induction edges as [|p r IH]; [reflexivity|].
  unfold eventsFor in *. simpl. rewrite countEvents_app, IH.
  destruct (emission w name' (fst p) (snd p)) as [ev|] eqn:E; [|reflexivity].
  unfold countEvents. simpl.
  destruct (isEvent name a b ev) eqn:I; [|reflexivity].
  apply (isEvent_emission _ _ _ _ _ _ _ E) in I. destruct I. contradiction.
Qed.

Lemma countEvents_absent : forall w name' name a b edges,
  ~ In (a, b) edges -> countEvents name a b (eventsFor w name' edges) = 0.
Proof.
  intros w name' name a b edges N. induction edges as [|p r IH]; [reflexivity|].
  unfold eventsFor in *. simpl. rewrite countEvents_app, IH by (simpl in N; tauto).
  destruct (emission w name' (fst p) (snd p)) as [ev|] eqn:E; [|reflexivity].
  unfold countEvents. simpl.
  destruct (isEvent name a b ev) eqn:I; [|reflexivity].
  apply (isEvent_emission _ _ _ _ _ _ _ E) in I. destruct I as [_ ->].
  exfalso. apply N. left. reflexivity.
Qed.

Lemma countEvents_present : forall w name a b edges,
  NoDup edges -> forallb (canEmit w name) edges = true -> In (a, b) edges ->
  countEvents name a b (eventsFor w name edges) = 1.
Proof.
  intros w name a b edges ND. induction ND as [|p r Hp Hr IH]; intros C Hin.
  - contradiction.
  - simpl in C. apply andb_true_iff in C. destruct C as [Cp Cr].
    unfold eventsFor in *. simpl. rewrite countEvents_app. unfold canEmit in Cp.
    destruct (emission w name (fst p) (snd p)) as [ev|] eqn:E; [|discriminate].
    destruct Hin as [->|Hin].
    + fold (eventsFor w name r). rewrite countEvents_absent by assumption.
      unfold countEvents. simpl.
      replace (isEvent name a b ev) with true; [reflexivity|].
      symmetry. apply (isEvent_emission _ _ _ _ _ _ _ E). auto.
    + rewrite IH by assumption. unfold countEvents. simpl.
      destruct (isEvent name a b ev) eqn:I; [|reflexivity].
      apply (isEvent_emission _ _ _ _ _ _ _ E) in I. destruct I as [_ ->].
      contradiction.
Qed.

Lemma In_startEdges : forall a b prev cur,
  NoDup (map fst cur) ->
  In (a, b) (startEdges prev cur)
  <-> hasCollided a b cur = true /\ hasCollided a b prev = false.
Proof.
  intros a b prev cur ND. unfold startEdges. rewrite filter_In. simpl.
  rewrite negb_true_iff. split.
  - intros [H1 H2]. split; [apply edgesOf_hasCollided|]; assumption.
  - intros [H1 H2]. split; [apply hasCollided_edgesOf|]; assumption.
Qed.

Lemma In_endEdges : forall a b prev cur,
  NoDup (map fst prev) ->
  In (a, b) (endEdges prev cur)
  <-> hasCollided a b prev = true /\ hasCollided a b cur = false.
Proof.
  intros a b prev cur ND. unfold endEdges. rewrite filter_In. simpl.
  rewrite negb_true_iff. split.
  - intros [H1 H2]. split; [apply edgesOf_hasCollided|]; assumption.
  - intros [H1 H2]. split; [apply hasCollided_edgesOf|]; assumption.
Qed.

Lemma NoDup_startEdges : forall prev cur, wfGraph cur -> NoDup (startEdges prev cur).
Proof. intros. apply NoDup_filter, NoDup_edgesOf. assumption. Qed.

Lemma NoDup_endEdges : forall prev cur, wfGraph prev -> NoDup (endEdges prev cur).
Proof. intros. apply NoDup_filter, NoDup_edgesOf. assumption. Qed.

(** The events of one completed tick, counted per directed pair. *)
Lemma tick_counts : forall w s m',
  wfGraph (collisions s) ->
  tick w (mkMachine s []) = Done m' ->
  wfGraph (collisions (sys m'))
  /\ forall a b,
       countEvents collisionstart a b (emitted m')
       = (if hasCollided a b (collisions (sys m'))
             && negb (hasCollided a b (collisions s)) then 1 else 0)
       /\ countEvents collisionend a b (emitted m')
          = (if hasCollided a b (collisions s)
                && negb (hasCollided a b (collisions (sys m'))) then 1 else 0).
Proof.
  intros w s m' W H. apply tick_Done in H.
  destruct H as [mb [B [F [Wb [S [CS [CE L]]]]]]]. simpl in *.
  assert (G : collisions (sys m') = collisions (sys mb)) by (rewrite S; reflexivity).
  rewrite G. split; [assumption|]. intros a b. rewrite L.
  rewrite !countEvents_app.
  rewrite (countEvents_other_name w collisionend collisionstart) by discriminate.
  rewrite (countEvents_other_name w collisionstart collisionend) by discriminate.
  rewrite Nat.add_0_r. simpl. split.
  - destruct (hasCollided a b (collisions (sys mb))) eqn:Hc;
      destruct (hasCollided a b (collisions s)) eqn:Hp; simpl.
    + apply countEvents_absent. rewrite In_startEdges by apply Wb. intros [_ X]. congruence.
    + apply countEvents_present; [apply NoDup_startEdges; assumption | assumption |].
      apply In_startEdges; [apply Wb | auto].
    + apply countEvents_absent. rewrite In_startEdges by apply Wb. intros [X _]. congruence.
    + apply countEvents_absent. rewrite In_startEdges by apply Wb. intros [X _]. congruence.
  - destruct (hasCollided a b (collisions (sys mb))) eqn:Hc;
      destruct (hasCollided a b (collisions s)) eqn:Hp; simpl.
    + apply countEvents_absent. rewrite In_endEdges by apply W. intros [_ X]. congruence.
    + apply countEvents_absent. rewrite In_endEdges by apply W. intros [X _]. congruence.
    + apply countEvents_present; [apply NoDup_endEdges; assumption | assumption |].
      apply In_endEdges; [apply W | auto].
    + apply countEvents_absent. rewrite In_endEdges by apply W. intros [X _]. congruence.
Qed.

(** ** What the candidate loop records *)

Lemma addAnyCollisions_cases : forall w c1 c2 m,
  (skipped (w c1) (w c2) = true /\ addAnyCollisions w c1 c2 m = Done m)
  \/ (skipped (w c1) (w c2) = false
      /\ lookupMethod (methName (w c1) (w c2)) = None
      /\ addAnyCollisions w c1 c2 m
         = Raised (InvalidShapes (shape (data (w c1))) (shape (data (w c2)))) m)
  \/ (overlapping (w c1) (w c2) = false /\ addAnyCollisions w c1 c2 m = Done m)
  \/ (overlapping (w c1) (w c2) = true
      /\ addAnyCollisions w c1 c2 m
         = Done (mkMachine
                   (setCollisions
                      (recordEdge (ignoreDuplicates (data (w c1))) c1 c2
                                  (collisions (sys m)))
                      (sys m))
                   (emitted m))).
Proof.
  intros w c1 c2 m. unfold addAnyCollisions, overlapping.
  destruct (skipped (w c1) (w c2)); simpl; [left; auto|].
  destruct (lookupMethod (methName (w c1) (w c2))) as [meth|]; [|right; left; auto].
  destruct (meth (w c1) (w c2)).
  - right; right; right. split; [reflexivity | apply addCollision_recordEdge].
  - right; right; left. auto.
Qed.

Lemma hasCollided_nil : forall a b, hasCollided a b [] = false.
Proof. reflexivity. Qed.

(** Every recorded edge comes from a candidate pair that passed the silent
    returns and whose shape test answered [true]. *)
Lemma build_sound : forall w m a b,
  hasCollided a b (collisions (sys (machineOf (buildGraph w (swapped m))))) = true ->
  In (a, b) (candidates w (sys m)) /\ overlapping (w a) (w b) = true.
Proof.
  intros w m. rewrite buildGraph_candidates.
  change (candidates w (sys (swapped m))) with (candidates w (sys m)).
  apply (candidates_loop_invariant
           (fun g => forall a b, hasCollided a b g = true ->
                       In (a, b) (candidates w (sys m)) /\ overlapping (w a) (w b) = true)).
  - intros c1 c2 g Hin O Pg a b H. rewrite hasCollided_recordEdge in H.
    apply orb_true_iff in H. destruct H as [H|H]; [auto|].
    rewrite !andb_true_iff, !Nat.eqb_eq in H. destruct H as [[-> ->] _]. auto.
  - simpl. intros a b H. discriminate.
Qed.

(** A completed loop keeps every edge it recorded, and records every
    overlapping candidate whose first collider does not suppress
    duplicates. *)
Lemma candidates_loop_complete : forall w xs m m',
  forOf xs (fun p => addAnyCollisions w (fst p) (snd p)) m = Done m' ->
  (forall a b, hasCollided a b (collisions (sys m)) = true ->
               hasCollided a b (collisions (sys m')) = true)
  /\ (forall a b, In (a, b) xs -> overlapping (w a) (w b) = true ->
                  ignoreDuplicates (data (w a)) = false ->
                  hasCollided a b (collisions (sys m')) = true).
Proof.
  intros w xs. induction xs as [|[c1 c2] r IH]; intros m m' H; simpl in H.
  - inversion H; subst. split; [auto | intros a b []].
  - destruct (addAnyCollisions w c1 c2 m) as [m1|e m1] eqn:A; [|discriminate].
    destruct (IH _ _ H) as [Mono Rec].
    assert (Keep : forall a b, hasCollided a b (collisions (sys m)) = true ->
                               hasCollided a b (collisions (sys m1)) = true).
    { intros a b Hab.
      destruct (addAnyCollisions_cases w c1 c2 m) as [[_ E]|[[_ [_ E]]|[[_ E]|[_ E]]]];
        rewrite E in A; inversion A; subst; auto.
      simpl. rewrite hasCollided_recordEdge, Hab. reflexivity. }
    split; [auto|].
    intros a b [E|Hin] O I; [|auto].
    inversion E; subst. apply Mono.
    destruct (addAnyCollisions_cases w a b m) as [[S E1]|[[S [_ E1]]|[[O' E1]|[_ E1]]]];
      rewrite E1 in A; inversion A; subst.
    + unfold overlapping in O. rewrite S in O. discriminate.
    + congruence.
    + simpl. rewrite hasCollided_recordEdge, I, !Nat.eqb_refl. simpl.
      apply orb_true_r.
Qed.

Lemma build_complete : forall w m mb a b,
  buildGraph w (swapped m) = Done mb ->
  In (a, b) (candidates w (sys m)) -> overlapping (w a) (w b) = true ->
  ignoreDuplicates (data (w a)) = false ->
  hasCollided a b (collisions (sys mb)) = true.
Proof.
  intros w m mb a b B. rewrite buildGraph_candidates in B.
  apply (candidates_loop_complete _ _ _ _ B).
Qed.

Lemma tick_graph : forall w s m',
  tick w (mkMachine s []) = Done m' ->
  forall a b,
    (hasCollided a b (collisions (sys m')) = true ->
     In (a, b) (candidates w s) /\ overlapping (w a) (w b) = true)
    /\ (In (a, b) (candidates w s) -> overlapping (w a) (w b) = true ->
        ignoreDuplicates (data (w a)) = false ->
        hasCollided a b (collisions (sys m')) = true).
Proof.
  intros w s m' H a b. apply tick_Done in H.
  destruct H as [mb [B [_ [_ [S _]]]]].
  assert (G : collisions (sys m') = collisions (sys mb)) by (rewrite S; reflexivity).
  rewrite G. split.
  - intro Hab. apply (build_sound w (mkMachine s [])). rewrite B. assumption.
  - intros Hin O I. apply (build_complete w (mkMachine s []) mb a b B); assumption.
Qed.

(** ** Registry calls between ticks *)

Lemma applyCall_collisions : forall s call,
  collisions (applyCall s call) = collisions s.
Proof.
  intros s [c l|c l]; unfold applyCall, addCollider, removeCollider; simpl.
  - destruct (negb (JsMap.has String.eqb l (layers s))); simpl;
      match goal with
      | |- context [match ?g with Some _ => _ | None => _ end] => destruct g
      end; reflexivity.
  - destruct (JsMap.get String.eqb l (layers s)); reflexivity.
Qed.

Lemma applyCalls_collisions : forall cs s,
  collisions (applyCalls cs s) = collisions s.
Proof.
  intro cs. unfold applyCalls. induction cs as [|c r IH]; intro s; simpl.
  - reflexivity.
  - rewrite IH. apply applyCall_collisions.
Qed.

(** * The claims *)

(** ** C1: start and end events fire once per transition *)

Lemma overlapsIn_spec : forall r a b,
  overlapsIn r a b = true
  <-> In (a, b) (candidates (tickWorld r) (tickBefore r))
      /\ overlapping (tickWorld r a) (tickWorld r b) = true.
Proof.
  intros r a b. unfold overlapsIn. rewrite andb_true_iff, existsb_exists. split.
  - intros [[[x y] [Hin E]] O]. simpl in E.
    apply andb_true_iff in E. destruct E as [E1 E2].
    apply Nat.eqb_eq in E1, E2. subst. auto.
  - intros [Hin O]. split; [|assumption]. exists (a, b). simpl.
    rewrite !Nat.eqb_refl. auto.
Qed.

(** A completed loop records every overlapping pair it meets in one
    direction at least: when the edge is suppressed, its reverse is
    there. *)
Lemma candidates_loop_either : forall w xs m m',
  forOf xs (fun p => addAnyCollisions w (fst p) (snd p)) m = Done m' ->
  forall a b, In (a, b) xs -> overlapping (w a) (w b) = true ->
              hasCollided a b (collisions (sys m')) = true
              \/ hasCollided b a (collisions (sys m')) = true.
Proof.
  intros w xs. induction xs as [|[c1 c2] r IH]; intros m m' H a b Hin O; simpl in H.
  - contradiction.
  - destruct (addAnyCollisions w c1 c2 m) as [m1|e m1] eqn:A; [|discriminate].
    destruct Hin as [E|Hin]; [|apply (IH _ _ H); assumption].
    inversion E; subst.
    destruct (candidates_loop_complete _ _ _ _ H) as [Mono _].
    destruct (addAnyCollisions_cases w a b m) as [[S E1]|[[S [_ E1]]|[[O' E1]|[_ E1]]]];
      rewrite E1 in A; inversion A; subst.
    + unfold overlapping in O. rewrite S in O. discriminate.
    + congruence.
    + destruct (ignoreDuplicates (data (w a)) && hasCollided b a (collisions (sys m)))
        eqn:Sup.
      * right. apply Mono. simpl. rewrite hasCollided_recordEdge.
        apply andb_true_iff in Sup. destruct Sup as [_ Sup]. rewrite Sup. reflexivity.
      * left. apply Mono. simpl. rewrite hasCollided_recordEdge, !Nat.eqb_refl, Sup.
        apply orb_true_r.
Qed.

Lemma tick_either_way : forall w s m' a b,
  tick w (mkMachine s []) = Done m' ->
  In (a, b) (candidates w s) -> overlapping (w a) (w b) = true ->
  hasCollided a b (collisions (sys m')) = true
  \/ hasCollided b a (collisions (sys m')) = true.
Proof.
  intros w s m' a b H Hin O. apply tick_Done in H.
  destruct H as [mb [B [_ [_ [S _]]]]].
  assert (G : collisions (sys m') = collisions (sys mb)) by (rewrite S; reflexivity).
  rewrite G. rewrite buildGraph_candidates in B.
  apply (candidates_loop_either _ _ _ _ B); assumption.
Qed.

Lemma run_records : forall frames s trace,
  wfGraph (collisions s) ->
  run s frames = Some trace ->
  chained (collisions s) trace
  /\ Forall (fun r => transitionsOnly r /\ recordsWhatOverlaps r) trace.
Proof.
  induction frames as [|f rest IH]; intros s trace W H; simpl in H.
  - inversion H; subst. split; [exact I | constructor].
  - destruct (tick (world f) (mkMachine (applyCalls (calls f) s) [])) as [m|e m] eqn:T;
      [|discriminate].
    destruct (run (sys m) rest) as [trace'|] eqn:R; [|discriminate].
    inversion H; subst; clear H.
    assert (W0 : wfGraph (collisions (applyCalls (calls f) s)))
      by (rewrite applyCalls_collisions; assumption).
    destruct (tick_counts _ _ _ W0 T) as [W1 C].
    destruct (IH _ _ W1 R) as [Ch F].
    split.
    + simpl. split; [apply applyCalls_collisions | assumption].
    + constructor; [|assumption]. split.
      * intros a b. unfold overlapAfter, overlapBefore. simpl. apply C.
      * intros a b. destruct (tick_graph _ _ _ T a b) as [Snd Cpl].
        unfold overlapAfter. simpl. split; [|split].
        -- intro Hab. apply overlapsIn_spec. simpl. apply Snd. assumption.
        -- intro Ign.
           destruct (overlapsIn (mkTick (world f) (applyCalls (calls f) s)
                                        (sys m) (emitted m)) a b) eqn:Ov.
           ++ apply overlapsIn_spec in Ov. simpl in Ov. destruct Ov as [Hin O].
              apply Cpl; assumption.
           ++ destruct (hasCollided a b (collisions (sys m))) eqn:Hab; [|reflexivity].
              rewrite <- Ov. symmetry. apply overlapsIn_spec. simpl. apply Snd.
              reflexivity.
        -- intro Ov. apply overlapsIn_spec in Ov. simpl in Ov. destruct Ov as [Hin O].
           apply (tick_either_way _ _ _ a b T); assumption.
Qed.

(** C1, as the code has it. Over any sequence of ticks that complete,
    started from [init], with any registry calls between the ticks: each
    tick starts from the graph the tick before it built, and in each tick,
    for every directed pair [(a, b)], exactly one [collisionstart] is
    emitted when the edge [(a, b)] is recorded after the tick and was not
    before it, exactly one [collisionend] when it was recorded before and
    is not after, and none of either otherwise. A recorded edge is a pair
    that overlaps (a candidate pair that passed the silent returns and
    whose shape test holds). When [a] does not suppress duplicates, the
    edge is recorded exactly when the pair overlaps, so that the events
    follow the overlap itself. When [a] suppresses duplicates, a pair that
    overlaps is recorded as [(a, b)] or as [(b, a)]; which of the two can
    change from one tick to the next while the overlap stays. *)
Theorem collision_events_once_per_transition : forall frames trace,
  run init frames = Some trace ->
  chained [] trace
  /\ Forall (fun r => transitionsOnly r /\ recordsWhatOverlaps r) trace.
Proof.
  intros frames trace H.
  apply (run_records frames init trace wfGraph_nil H).
Qed.

Lemma collision_events_once_per_transition_witness :
  run init Scenes.driftFrames = Some Scenes.driftTrace
  /\ chained [] Scenes.driftTrace
  /\ Forall (fun r => transitionsOnly r /\ recordsWhatOverlaps r) Scenes.driftTrace.
Proof.
  assert (H : run init Scenes.driftFrames = Some Scenes.driftTrace)
    by (vm_compute; reflexivity).
  split; [exact H|].
  exact (collision_events_once_per_transition Scenes.driftFrames Scenes.driftTrace H).
Defined.

(** C1 as stated fails where a collider suppresses duplicates. Collider 0
    does, and the two spheres overlap, each testing the other's layer, in
    both ticks of the run. In the first tick collider 1 is iterated first:
    only [(1, 0)] is recorded and no [collisionstart] is emitted for
    [(0, 1)], although the pair overlaps for the first time. Collider 1
    then leaves and re-enters the registry, which puts it behind
    collider 0: the second tick records [(0, 1)] and emits its
    [collisionstart], although the overlap is unchanged; the pair has then
    had two start events for one overlap. *)
Lemma collision_events_counterexample :
  run init Scenes.reorderFrames = Some Scenes.reorderTrace
  /\ map (fun r => ignoreDuplicates (data (tickWorld r 0))) Scenes.reorderTrace
     = [true; true]
  /\ map (fun r => overlapsIn r 0 1) Scenes.reorderTrace = [true; true]
  /\ map (fun r => overlapsIn r 1 0) Scenes.reorderTrace = [true; true]
  /\ map (fun r => countEvents collisionstart 0 1 (tickEvents r)) Scenes.reorderTrace
     = [0; 1]
  /\ map (fun r => countEvents collisionstart 1 0 (tickEvents r)) Scenes.reorderTrace
     = [1; 0]
  /\ map (fun r => countEvents collisionend 0 1 (tickEvents r)
                   + countEvents collisionend 1 0 (tickEvents r)) Scenes.reorderTrace
     = [0; 0].
Proof. vm_compute. repeat split; reflexivity. Qed.

(** The drifting spheres of the specification: nothing at distance 3, one
    start at distance 2, nothing while inside, one end at distance 2.5. *)
Example drift_events :
  map (fun r => map (fun ev => (evName ev, evC1 ev, evC2 ev)) (tickEvents r))
      Scenes.driftTrace
  = [ []; [(collisionstart, 0, 1)]; []; [(collisionend, 0, 1)]; [] ].
Proof. vm_compute. reflexivity. Qed.

(** ** C2: the start pass tests one direction *)

Lemma In_eventsFor : forall w name edges ev,
  In ev (eventsFor w name edges)
  <-> exists p, In p edges /\ emission w name (fst p) (snd p) = Some ev.
Proof.
  intros w name edges ev. unfold eventsFor. rewrite in_flat_map. split.
  - intros [p [Hp H]]. exists p. split; [assumption|].
    destruct (emission w name (fst p) (snd p)) as [ev'|]; simpl in H; [|contradiction].
    destruct H as [->|[]]. reflexivity.
  - intros [p [Hp E]]. exists p. split; [assumption|]. rewrite E. left. reflexivity.
Qed.

Lemma canEmit_In : forall w name edges p,
  forallb (canEmit w name) edges = true -> In p edges ->
  exists ev, emission w name (fst p) (snd p) = Some ev.
Proof.
  intros w name edges p C Hin. rewrite forallb_forall in C.
  specialize (C p Hin). unfold canEmit in C.
  destruct (emission w name (fst p) (snd p)) as [ev|]; [|discriminate].
  exists ev. reflexivity.
Qed.

(** The events of one kind in the log of a completed tick. *)
Lemma tick_events : forall w s m' name a b,
  tick w (mkMachine s []) = Done m' ->
  (exists ev, In ev (emitted m') /\ isEvent name a b ev = true)
  <-> In (a, b)
        (match name with
         | collisionstart => startEdges (collisions s) (collisions (sys m'))
         | collisionend => endEdges (collisions s) (collisions (sys m'))
         end).
Proof.
  intros w s m' name a b H. apply tick_Done in H.
  destruct H as [mb [_ [_ [_ [S [CS [CE L]]]]]]]. simpl in *.
  assert (G : collisions (sys m') = collisions (sys mb)) by (rewrite S; reflexivity).
  rewrite G, L. split.
  - intros [ev [Hin I]]. apply in_app_or in Hin.
    destruct Hin as [Hin|Hin]; apply In_eventsFor in Hin;
      destruct Hin as [p [Hp E]];
      apply (isEvent_emission _ _ _ _ _ _ _ E) in I; destruct I as [<- ->];
      assumption.
  - intro Hin. destruct name.
    + destruct (canEmit_In _ _ _ _ CS Hin) as [ev E]. exists ev. split.
      * apply in_or_app. left. apply In_eventsFor. exists (a, b). auto.
      * apply (isEvent_emission _ _ _ _ _ _ _ E). auto.
    + destruct (canEmit_In _ _ _ _ CE Hin) as [ev E]. exists ev. split.
      * apply in_or_app. right. apply In_eventsFor. exists (a, b). auto.
      * apply (isEvent_emission _ _ _ _ _ _ _ E). auto.
Qed.

Lemma tick_Done_NoDup : forall w m m',
  tick w m = Done m' -> NoDup (map fst (collisions (sys m'))).
Proof.
  intros w m m' H. apply tick_Done in H.
  destruct H as [mb [_ [_ [W [S _]]]]]. rewrite S. apply W.
Qed.

(** C2, as the code has it. In a tick that completes, a [collisionstart]
    for [(c1, c2)] is emitted exactly when [(c1, c2)] is in the current
    graph and that same directed form is absent from the previous graph;
    the reverse form [(c2, c1)] is not consulted. *)
Theorem start_diff_checks_same_direction : forall w s m' c1 c2,
  tick w (mkMachine s []) = Done m' ->
  (exists ev, In ev (emitted m') /\ isEvent collisionstart c1 c2 ev = true)
  <-> hasCollided c1 c2 (collisions (sys m')) = true
      /\ hasCollided c1 c2 (collisions s) = false.
Proof.
  intros w s m' c1 c2 H.
  rewrite (tick_events w s m' collisionstart c1 c2 H).
  apply In_startEdges. apply (tick_Done_NoDup _ _ _ H).
Qed.

Lemma start_diff_checks_same_direction_witness :
  let m' := machineOf (tick Scenes.bothWays (mkMachine Scenes.afterOneWay [])) in
  tick Scenes.bothWays (mkMachine Scenes.afterOneWay []) = Done m'
  /\ ((exists ev, In ev (emitted m') /\ isEvent collisionstart 0 1 ev = true)
      <-> hasCollided 0 1 (collisions (sys m')) = true
          /\ hasCollided 0 1 (collisions Scenes.afterOneWay) = false).
Proof.
  intro m'.
  assert (H : tick Scenes.bothWays (mkMachine Scenes.afterOneWay []) = Done m')
    by (vm_compute; reflexivity).
  split; [exact H|].
  exact (start_diff_checks_same_direction Scenes.bothWays Scenes.afterOneWay m' 0 1 H).
Defined.

(** C2 as stated fails: the previous graph holds the reverse form [(1, 0)],
    and the tick still emits a [collisionstart] for [(0, 1)]. *)
Lemma start_diff_either_direction_counterexample :
  let m' := machineOf (tick Scenes.bothWays (mkMachine Scenes.afterOneWay [])) in
  collisions Scenes.afterOneWay = [(1, [0])]
  /\ hasCollided 1 0 (collisions Scenes.afterOneWay) = true
  /\ tick Scenes.bothWays (mkMachine Scenes.afterOneWay []) = Done m'
  /\ map (fun ev => (evName ev, evC1 ev, evC2 ev)) (emitted m')
     = [(collisionstart, 0, 1)].
Proof. vm_compute. repeat split; reflexivity. Qed.

(** ** C10: the end pass does not look at activity *)

Lemma skipped_not_overlapping : forall c1 c2,
  skipped c1 c2 = true -> overlapping c1 c2 = false.
Proof. intros c1 c2 H. unfold overlapping. rewrite H. reflexivity. Qed.

(** In a completed tick, an edge of the previous graph that is not in the
    new one gets its end event. *)
Lemma tick_ends_dropped_edge : forall w s m' c1 c2,
  tick w (mkMachine s []) = Done m' ->
  hasCollided c1 c2 (collisions s) = true ->
  hasCollided c1 c2 (collisions (sys m')) = false ->
  exists ev, In ev (emitted m') /\ isEvent collisionend c1 c2 ev = true.
Proof.
  intros w s m' c1 c2 H Hp Hc.
  apply (tick_events w s m' collisionend c1 c2 H).
  unfold endEdges. apply filter_In. split.
  - apply hasCollided_edgesOf. assumption.
  - simpl. rewrite Hc. reflexivity.
Qed.

(** What the end pass does where it can emit. It completes whenever the
    events it owes can be emitted (the emitting behaviour is still attached
    to its entity), and then it has emitted a [collisionend] for every
    directed edge of the previous graph that is absent from the current
    one, whatever the scene [w] and the registry. In a tick that completes,
    an edge of the previous graph gets its [collisionend] in particular
    when the pair is now skipped (a collider disabled, an entity not
    playing or hidden) or is no longer a candidate (a collider left the
    registry). *)
Theorem end_diff_has_no_activity_recheck : forall w,
  (forall m,
     forallb (canEmit w collisionend)
       (endEdges (prevCollisions (sys m)) (collisions (sys m))) = true ->
     exists evs,
       endDiff w m = Done (mkMachine (sys m) (emitted m ++ evs))
       /\ forall c1 c2,
            hasCollided c1 c2 (prevCollisions (sys m)) = true ->
            hasCollided c1 c2 (collisions (sys m)) = false ->
            exists ev, In ev evs /\ isEvent collisionend c1 c2 ev = true)
  /\ (forall s m' c1 c2,
        tick w (mkMachine s []) = Done m' ->
        hasCollided c1 c2 (collisions s) = true ->
        hasCollided c1 c2 (collisions (sys m')) = false
        \/ skipped (w c1) (w c2) = true
        \/ ~ In (c1, c2) (candidates w s) ->
        exists ev, In ev (emitted m') /\ isEvent collisionend c1 c2 ev = true).
Proof.
  intro w. split.
  - intros m C. exists (eventsFor w collisionend
                          (endEdges (prevCollisions (sys m)) (collisions (sys m)))).
    split.
    + rewrite endDiff_emitAll. apply emitAll_can. assumption.
    + intros c1 c2 Hp Hc.
      assert (Hin : In (c1, c2) (endEdges (prevCollisions (sys m)) (collisions (sys m)))).
      { unfold endEdges. apply filter_In. split.
        - apply hasCollided_edgesOf. assumption.
        - simpl. rewrite Hc. reflexivity. }
      destruct (canEmit_In _ _ _ _ C Hin) as [ev E]. exists ev. split.
      * apply In_eventsFor. exists (c1, c2). auto.
      * apply (isEvent_emission _ _ _ _ _ _ _ E). auto.
  - intros s m' c1 c2 H Hp Why.
    assert (Hc : hasCollided c1 c2 (collisions (sys m')) = false).
    { destruct (hasCollided c1 c2 (collisions (sys m'))) eqn:Hc; [|reflexivity].
      destruct (proj1 (tick_graph _ _ _ H c1 c2) Hc) as [Hin O].
      destruct Why as [X|[X|X]].
      - discriminate.
      - apply skipped_not_overlapping in X. congruence.
      - contradiction. }
    apply (tick_ends_dropped_edge w s m' c1 c2 H Hp Hc).
Qed.

Lemma end_diff_has_no_activity_recheck_witness :
  let m0 := swapped (mkMachine Scenes.afterLeaving []) in
  let m' := machineOf (tick Scenes.gone (mkMachine Scenes.afterLeaving [])) in
  (forallb (canEmit Scenes.gone collisionend)
     (endEdges (prevCollisions (sys m0)) (collisions (sys m0))) = true
   /\ exists evs,
        endDiff Scenes.gone m0 = Done (mkMachine (sys m0) (emitted m0 ++ evs))
        /\ forall c1 c2,
             hasCollided c1 c2 (prevCollisions (sys m0)) = true ->
             hasCollided c1 c2 (collisions (sys m0)) = false ->
             exists ev, In ev evs /\ isEvent collisionend c1 c2 ev = true)
  /\ tick Scenes.gone (mkMachine Scenes.afterLeaving []) = Done m'
  /\ hasCollided 0 1 (collisions Scenes.afterLeaving) = true
  /\ skipped (Scenes.gone 0) (Scenes.gone 1) = true
  /\ ~ In (0, 1) (candidates Scenes.gone Scenes.afterLeaving)
  /\ exists ev, In ev (emitted m') /\ isEvent collisionend 0 1 ev = true.
Proof.
  intros m0 m'.
  assert (C : forallb (canEmit Scenes.gone collisionend)
                (endEdges (prevCollisions (sys m0)) (collisions (sys m0))) = true)
    by (vm_compute; reflexivity).
  assert (H : tick Scenes.gone (mkMachine Scenes.afterLeaving []) = Done m')
    by (vm_compute; reflexivity).
  assert (Hp : hasCollided 0 1 (collisions Scenes.afterLeaving) = true)
    by (vm_compute; reflexivity).
  assert (Hs : skipped (Scenes.gone 0) (Scenes.gone 1) = true)
    by (vm_compute; reflexivity).
  assert (Hn : ~ In (0, 1) (candidates Scenes.gone Scenes.afterLeaving))
    by (vm_compute; intros []).
  split.
  - split; [exact C|].
    exact (proj1 (end_diff_has_no_activity_recheck Scenes.gone) m0 C).
  - split; [exact H|]. split; [exact Hp|]. split; [exact Hs|]. split; [exact Hn|].
    exact (proj2 (end_diff_has_no_activity_recheck Scenes.gone)
                 Scenes.afterLeaving m' 0 1 H Hp (or_intror (or_introl Hs))).
Defined.

(** C10. The end pass owes a [collisionend] to every edge that has ended,
    but [emitEvent] reads [el.components[c1.attrName].data] without the
    guard [addAnyCollisions] has. Spheres 0 and 1 touched in the last tick,
    so the graph holds [(0, 1)]; then the collider component was removed
    from the entity of collider 0, which deregistered it. The next tick no
    longer records [(0, 1)], and the end pass throws a [TypeError] on that
    edge: no [collisionend] is emitted for it. *)
Lemma end_event_lost_when_component_removed :
  let m' := machineOf (tick Scenes.detached (mkMachine Scenes.afterLeaving [])) in
  colliders Scenes.afterLeaving = [1]
  /\ behaviourMissing (Scenes.detached 0) = true
  /\ hasCollided 0 1 (collisions Scenes.afterLeaving) = true
  /\ tick Scenes.detached (mkMachine Scenes.afterLeaving []) = Raised TypeError m'
  /\ hasCollided 0 1 (prevCollisions (sys m')) = true
  /\ hasCollided 0 1 (collisions (sys m')) = false
  /\ emitted m' = [].
Proof. vm_compute. repeat split; reflexivity. Qed.

(** Collider 0 disabled, paused, hidden and out of the registry: the tick
    emits the end of [(0, 1)] and nothing else. *)
Example gone_events :
  colliders Scenes.afterLeaving = [1]
  /\ map (fun ev => (evName ev, evC1 ev, evC2 ev))
         (emitted (machineOf (tick Scenes.gone (mkMachine Scenes.afterLeaving []))))
     = [(collisionend, 0, 1)].
Proof. vm_compute. split; reflexivity. Qed.

(** ** C3: pairs skipped for visibility *)

(** The log and the graph of a tick, whether it completes or throws. *)
Lemma tick_any_outcome : forall w m,
  let m' := machineOf (tick w m) in
  let mb := machineOf (buildGraph w (swapped m)) in
  collisions (sys m') = collisions (sys mb)
  /\ exists evs,
       emitted m' = emitted m ++ evs
       /\ forall ev, In ev evs ->
            (exists p, In p (startEdges (collisions (sys m)) (collisions (sys mb)))
                       /\ emission w collisionstart (fst p) (snd p) = Some ev)
            \/ evName ev = collisionend.
Proof.
  intros w m. simpl. rewrite tick_unfold.
  destruct (build_wfGraph w (swapped m) wfGraph_nil) as [W F].
  destruct (buildGraph w (swapped m)) as [mb|e mb] eqn:B; simpl in *.
  - assert (Pv : prevCollisions (sys mb) = collisions (sys m)) by apply F.
    assert (Em : emitted mb = emitted m) by apply F.
    unfold seq. rewrite startDiff_emitAll by apply W. rewrite Pv.
    pose proof (emitAll_log w collisionstart
                  (startEdges (collisions (sys m)) (collisions (sys mb)))
                  (mkMachine (setNewCollisions [] (sys mb)) (emitted mb))) as L1.
    simpl in L1. destruct L1 as [S1 [evs1 [L1 H1]]].
    destruct (emitAll w collisionstart _ _) as [m1|e1 m1]; simpl in *.
    + rewrite endDiff_emitAll.
      pose proof (emitAll_log w collisionend
                    (endEdges (prevCollisions (sys m1)) (collisions (sys m1))) m1) as L2.
      simpl in L2. destruct L2 as [S2 [evs2 [L2 H2]]].
      split; [rewrite S2, S1; reflexivity|].
      exists (evs1 ++ evs2). split.
      * rewrite L2, L1, Em, app_assoc. reflexivity.
      * intros ev Hin. apply in_app_or in Hin. destruct Hin as [Hin|Hin].
        -- left. apply H1. assumption.
        -- right. destruct (H2 ev Hin) as [p [_ E]].
           apply emission_fields in E. apply E.
    + split; [rewrite S1; reflexivity|]. exists evs1. split.
      * rewrite L1, Em. reflexivity.
      * intros ev Hin. left. apply H1. assumption.
  - split; [reflexivity|]. exists []. split.
    + rewrite app_nil_r. apply F.
    + intros ev [].
Qed.

Lemma countEvents_zero : forall name a b evs,
  (forall ev, In ev evs -> isEvent name a b ev = false) ->
  countEvents name a b evs = 0.
Proof.
  intros name a b evs H. unfold countEvents.
  induction evs as [|ev r IH]; simpl; [reflexivity|].
  rewrite (H ev) by (left; reflexivity). apply IH.
  intros ev' Hin. apply H. right. assumption.
Qed.

(** A pair that no candidate call records is absent from the graph of the
    tick and gets no [collisionstart], whatever the outcome of the tick. *)
Lemma not_overlapping_not_recorded : forall w s c1 c2,
  overlapping (w c1) (w c2) = false ->
  let m' := machineOf (tick w (mkMachine s [])) in
  hasCollided c1 c2 (collisions (sys m')) = false
  /\ countEvents collisionstart c1 c2 (emitted m') = 0.
Proof.
  intros w s c1 c2 O. simpl.
  destruct (tick_any_outcome w (mkMachine s [])) as [G [evs [L H]]]. simpl in *.
  assert (Hc : hasCollided c1 c2
                 (collisions (sys (machineOf (buildGraph w (swapped (mkMachine s [])))))) = false).
  { destruct (hasCollided c1 c2 _) eqn:Hc; [|reflexivity].
    apply (build_sound w (mkMachine s [])) in Hc. destruct Hc. congruence. }
  rewrite G. split; [assumption|]. rewrite L. apply countEvents_zero.
  intros ev Hin. destruct (isEvent collisionstart c1 c2 ev) eqn:I; [|reflexivity].
  exfalso. destruct (H ev Hin) as [[p [Hp E]]|En].
  - apply (isEvent_emission _ _ _ _ _ _ _ E) in I. destruct I as [_ ->].
    unfold startEdges in Hp. apply filter_In in Hp. destruct Hp as [Hp _].
    apply edgesOf_hasCollided in Hp; [congruence|].
    apply (build_wfGraph w (swapped (mkMachine s [])) wfGraph_nil).
  - unfold isEvent in I. rewrite En in I. discriminate.
Qed.

(** A node under a hidden ancestor is not visible in the scene, and neither
    is a hidden node. *)
Lemma hidden_ancestor_hides : forall v up pos scale,
  visibleUpToRoot up = false ->
  visibleUpToRoot (THREE.mkObject3D v (Some up) pos scale) = false.
Proof. intros v up pos scale H. simpl. rewrite H. destruct v; reflexivity. Qed.

Lemma hidden_node_hides : forall up pos scale,
  visibleUpToRoot (THREE.mkObject3D false up pos scale) = false.
Proof. reflexivity. Qed.

(** C3, as the code has it. When the first collider [c1] of a candidate
    pair requires visibility and the entity of either collider is not
    visible in the scene hierarchy, [addAnyCollisions(c1, c2)] returns
    without recording, the graph of that tick has no edge [(c1, c2)], and
    the tick emits no [collisionstart] for it. The requirement of the second
    collider is not consulted. A tick that completes still emits the
    [collisionend] of [(c1, c2)] when the edge was in the previous graph. *)
Theorem invisible_pair_is_skipped : forall w c1 c2,
  collideNonVisible (data (w c1)) = false ->
  isVisibleInScene (ArgEntity (el (w c1))) = false
  \/ isVisibleInScene (ArgEntity (el (w c2))) = false ->
  (forall m, addAnyCollisions w c1 c2 m = Done m)
  /\ (forall s,
        let m' := machineOf (tick w (mkMachine s [])) in
        hasCollided c1 c2 (collisions (sys m')) = false
        /\ countEvents collisionstart c1 c2 (emitted m') = 0)
  /\ (forall s m',
        tick w (mkMachine s []) = Done m' ->
        hasCollided c1 c2 (collisions s) = true ->
        exists ev, In ev (emitted m') /\ isEvent collisionend c1 c2 ev = true).
Proof.
  intros w c1 c2 Req Hidden.
  assert (S : skipped (w c1) (w c2) = true).
  { unfold skipped. rewrite Req.
    destruct (behaviourMissing (w c1) || negb (enabled (data (w c1)))
              || behaviourMissing (w c2) || negb (enabled (data (w c2)))); [reflexivity|].
    destruct (negb (isPlaying (el (w c1))) || negb (isPlaying (el (w c2)))); [reflexivity|].
    destruct Hidden as [-> | ->]; simpl; [rewrite orb_true_r|]; reflexivity. }
  apply skipped_not_overlapping in S as O.
  split; [|split].
  - intro m. unfold addAnyCollisions. rewrite S. reflexivity.
  - intro s. apply not_overlapping_not_recorded. assumption.
  - intros s m' H Hp.
    apply (tick_ends_dropped_edge w s m' c1 c2 H Hp).
    pose proof (not_overlapping_not_recorded w s c1 c2 O) as [Hc _].
    rewrite H in Hc. exact Hc.
Qed.

Lemma invisible_pair_is_skipped_witness :
  let m' := machineOf (tick Scenes.hiddenSelf (mkMachine Scenes.afterTouch [])) in
  collideNonVisible (data (Scenes.hiddenSelf 0)) = false
  /\ isVisibleInScene (ArgEntity (el (Scenes.hiddenSelf 0))) = false
  /\ tick Scenes.hiddenSelf (mkMachine Scenes.afterTouch []) = Done m'
  /\ hasCollided 0 1 (collisions Scenes.afterTouch) = true
  /\ (forall m, addAnyCollisions Scenes.hiddenSelf 0 1 m = Done m)
  /\ (forall s,
        let m1 := machineOf (tick Scenes.hiddenSelf (mkMachine s [])) in
        hasCollided 0 1 (collisions (sys m1)) = false
        /\ countEvents collisionstart 0 1 (emitted m1) = 0)
  /\ exists ev, In ev (emitted m') /\ isEvent collisionend 0 1 ev = true.
Proof.
  intro m'.
  assert (R : collideNonVisible (data (Scenes.hiddenSelf 0)) = false) by reflexivity.
  assert (V : isVisibleInScene (ArgEntity (el (Scenes.hiddenSelf 0))) = false)
    by reflexivity.
  assert (H : tick Scenes.hiddenSelf (mkMachine Scenes.afterTouch []) = Done m')
    by (vm_compute; reflexivity).
  assert (Hp : hasCollided 0 1 (collisions Scenes.afterTouch) = true)
    by (vm_compute; reflexivity).
  pose proof (invisible_pair_is_skipped Scenes.hiddenSelf 0 1 R (or_introl V))
    as [T1 [T2 T3]].
  split; [exact R|]. split; [exact V|]. split; [exact H|]. split; [exact Hp|].
  split; [exact T1|]. split; [exact T2|].
  exact (T3 Scenes.afterTouch m' H Hp).
Defined.

(** C3 as stated fails twice. Collider 1 requires visibility and its entity
    is hidden, yet [(0, 1)] is recorded and its [collisionstart] emitted,
    because collider 0 does not require visibility. And when the entity of
    collider 0, which requires visibility, is hidden while [(0, 1)] is in
    the previous graph, the tick that skips the pair emits its
    [collisionend]. *)
Lemma invisible_pair_counterexample :
  (let m' := machineOf (tick Scenes.hiddenPartner (mkMachine Scenes.registered [])) in
   collideNonVisible (data (Scenes.hiddenPartner 1)) = false
   /\ isVisibleInScene (ArgEntity (el (Scenes.hiddenPartner 1))) = false
   /\ tick Scenes.hiddenPartner (mkMachine Scenes.registered []) = Done m'
   /\ collisions (sys m') = [(0, [1])]
   /\ map (fun ev => (evName ev, evC1 ev, evC2 ev)) (emitted m')
      = [(collisionstart, 0, 1)])
  /\ (let m' := machineOf (tick Scenes.hiddenSelf (mkMachine Scenes.afterTouch [])) in
      collideNonVisible (data (Scenes.hiddenSelf 0)) = false
      /\ isVisibleInScene (ArgEntity (el (Scenes.hiddenSelf 0))) = false
      /\ collisions Scenes.afterTouch = [(0, [1])]
      /\ tick Scenes.hiddenSelf (mkMachine Scenes.afterTouch []) = Done m'
      /\ collisions (sys m') = []
      /\ map (fun ev => (evName ev, evC1 ev, evC2 ev)) (emitted m')
         = [(collisionend, 0, 1)]).
Proof. vm_compute. repeat split; reflexivity. Qed.

(** ** C7: duplicate suppression *)













(** ** C8: unknown shape pairs *)

(** The first pair of a loop that is not skipped and has no shape test
    stops the loop: the pairs before it have been handled, nothing after
    it is. *)
Lemma loop_first_unknown_shape : forall w xs m,
  (exists p, In p xs /\ skipped (w (fst p)) (w (snd p)) = false
             /\ lookupMethod (methName (w (fst p)) (w (snd p))) = None) ->
  exists pre a b post m',
    xs = pre ++ (a, b) :: post
    /\ skipped (w a) (w b) = false
    /\ lookupMethod (methName (w a) (w b)) = None
    /\ forOf pre (fun p => addAnyCollisions w (fst p) (snd p)) m = Done m'
    /\ forOf xs (fun p => addAnyCollisions w (fst p) (snd p)) m
       = Raised (InvalidShapes (shape (data (w a))) (shape (data (w b)))) m'.
Proof.
  intros w xs. induction xs as [|[c1 c2] r IH]; intros m [p [Hin [S L]]].
  - contradiction.
  - simpl.
    destruct (addAnyCollisions_cases w c1 c2 m) as [[S1 E]|[[S1 [L1 E]]|[[O E]|[O E]]]].
    + rewrite E. destruct Hin as [<-|Hin]; [simpl in S; congruence|].
      destruct (IH m (ex_intro _ p (conj Hin (conj S L))))
        as [pre [a [b [post [m' [-> [Sa [La [Hp Hx]]]]]]]]].
      exists ((c1, c2) :: pre), a, b, post, m'. simpl. rewrite E. auto.
    + exists [], c1, c2, r, m. simpl. rewrite E. auto.
    + rewrite E. destruct Hin as [<-|Hin].
      { simpl in S, L. unfold addAnyCollisions in E. rewrite S, L in E.
        discriminate. }
      destruct (IH m (ex_intro _ p (conj Hin (conj S L))))
        as [pre [a [b [post [m' [-> [Sa [La [Hp Hx]]]]]]]]].
      exists ((c1, c2) :: pre), a, b, post, m'. simpl. rewrite E. auto.
    + rewrite E. destruct Hin as [<-|Hin].
      { simpl in S, L. unfold overlapping in O. rewrite S, L in O. discriminate. }
      match goal with
      | |- context [forOf r _ ?mm] =>
          destruct (IH mm (ex_intro _ p (conj Hin (conj S L))))
            as [pre [a [b [post [m' [-> [Sa [La [Hp Hx]]]]]]]]]
      end.
      exists ((c1, c2) :: pre), a, b, post, m'. simpl. rewrite E. auto.
Qed.

Lemma inactive_is_skipped : forall c1 c2,
  enabled (data c1) = false \/ enabled (data c2) = false
  \/ isPlaying (el c1) = false \/ isPlaying (el c2) = false
  \/ (collideNonVisible (data c1) = false
      /\ (isVisibleInScene (ArgEntity (el c1)) = false
          \/ isVisibleInScene (ArgEntity (el c2)) = false)) ->
  skipped c1 c2 = true.
Proof.
  intros c1 c2 H. unfold skipped.
  destruct (behaviourMissing c1 || negb (enabled (data c1))
            || behaviourMissing c2 || negb (enabled (data c2))) eqn:C1; [reflexivity|].
  destruct (negb (isPlaying (el c1)) || negb (isPlaying (el c2))) eqn:C2; [reflexivity|].
  repeat (apply orb_false_iff in C1; destruct C1 as [C1 ?]).
  apply orb_false_iff in C2. destruct C2 as [C2 C3].
  destruct H as [H|[H|[H|[H|[H V]]]]];
    try (rewrite H in *; simpl in *; discriminate).
  rewrite H. destruct V as [-> | ->]; simpl; [rewrite orb_true_r|]; reflexivity.
Qed.

(** A pair whose first collider collides with non-visible entities is not
    skipped for visibility. *)
Lemma active_pair_not_skipped : forall c1 c2,
  behaviourMissing c1 = false -> behaviourMissing c2 = false ->
  enabled (data c1) = true -> enabled (data c2) = true ->
  isPlaying (el c1) = true -> isPlaying (el c2) = true ->
  collideNonVisible (data c1) = true ->
  skipped c1 c2 = false.
Proof.
  intros c1 c2 B1 B2 E1 E2 P1 P2 V. unfold skipped.
  rewrite B1, B2, E1, E2, P1, P2, V. reflexivity.
Qed.

(** C8, as the code has it. A pair that passes the silent returns and whose
    shape names have no [collision_..._...] method makes [addAnyCollisions]
    throw; a pair with a disabled collider, an entity that is not playing,
    or an entity that is not visible while the first collider [c1] requires
    visibility returns silently whatever its shapes. A tick whose candidate
    loop meets a pair that throws stops at the first of them: the pairs
    before it have been handled, the rest of the loop and both diff passes
    are not run, and no event is emitted. When [c1] collides with
    non-visible entities, visibility is not a reason to skip: a pair of
    attached, enabled, playing colliders with no shape test throws whether
    or not the entities are visible and whatever the second collider
    requires. *)
Theorem unknown_shape_pair_aborts_tick : forall w,
  (forall c1 c2 m,
     skipped (w c1) (w c2) = false ->
     lookupMethod (methName (w c1) (w c2)) = None ->
     addAnyCollisions w c1 c2 m
     = Raised (InvalidShapes (shape (data (w c1))) (shape (data (w c2)))) m)
  /\ (forall c1 c2 m,
        enabled (data (w c1)) = false \/ enabled (data (w c2)) = false
        \/ isPlaying (el (w c1)) = false \/ isPlaying (el (w c2)) = false
        \/ (collideNonVisible (data (w c1)) = false
            /\ (isVisibleInScene (ArgEntity (el (w c1))) = false
                \/ isVisibleInScene (ArgEntity (el (w c2))) = false)) ->
        addAnyCollisions w c1 c2 m = Done m)
  /\ (forall s c1 c2,
        In (c1, c2) (candidates w s) ->
        skipped (w c1) (w c2) = false ->
        lookupMethod (methName (w c1) (w c2)) = None ->
        exists pre a b post m',
          candidates w s = pre ++ (a, b) :: post
          /\ skipped (w a) (w b) = false
          /\ lookupMethod (methName (w a) (w b)) = None
          /\ forOf pre (fun p => addAnyCollisions w (fst p) (snd p))
               (swapped (mkMachine s [])) = Done m'
          /\ tick w (mkMachine s [])
             = Raised (InvalidShapes (shape (data (w a))) (shape (data (w b)))) m'
          /\ emitted m' = [])
  /\ (forall c1 c2 m,
        behaviourMissing (w c1) = false -> behaviourMissing (w c2) = false ->
        enabled (data (w c1)) = true -> enabled (data (w c2)) = true ->
        isPlaying (el (w c1)) = true -> isPlaying (el (w c2)) = true ->
        collideNonVisible (data (w c1)) = true ->
        lookupMethod (methName (w c1) (w c2)) = None ->
        addAnyCollisions w c1 c2 m
        = Raised (InvalidShapes (shape (data (w c1))) (shape (data (w c2)))) m).
Proof.
  intro w. split; [|split; [|split]].
  - intros c1 c2 m S L. unfold addAnyCollisions. rewrite S, L. reflexivity.
  - intros c1 c2 m H. unfold addAnyCollisions.
    rewrite (inactive_is_skipped _ _ H). reflexivity.
  - intros s c1 c2 Hin S L.
    destruct (loop_first_unknown_shape w (candidates w s) (swapped (mkMachine s []))
                (ex_intro _ (c1, c2) (conj Hin (conj S L))))
      as [pre [a [b [post [m' [E [Sa [La [Hp Hx]]]]]]]]].
    exists pre, a, b, post, m'. repeat (split; [assumption|]).
    split.
    + rewrite tick_unfold, buildGraph_candidates.
      change (candidates w (sys (swapped (mkMachine s [])))) with (candidates w s).
      rewrite Hx. reflexivity.
    + pose proof (candidates_loop_invariant (fun _ => True) w pre
                    (fun _ _ _ _ _ _ => I) (swapped (mkMachine s [])) I) as [_ F].
      rewrite Hp in F. simpl in F. apply F.
  - intros c1 c2 m B1 B2 E1 E2 P1 P2 V L. unfold addAnyCollisions.
    rewrite (active_pair_not_skipped _ _ B1 B2 E1 E2 P1 P2 V), L. reflexivity.
Qed.

Lemma unknown_shape_pair_aborts_tick_witness :
  (In (0, 1) (candidates Scenes.cylinder Scenes.registered)
   /\ skipped (Scenes.cylinder 0) (Scenes.cylinder 1) = false
   /\ lookupMethod (methName (Scenes.cylinder 0) (Scenes.cylinder 1)) = None
   /\ addAnyCollisions Scenes.cylinder 0 1 (mkMachine Scenes.registered [])
      = Raised (InvalidShapes (shape (data (Scenes.cylinder 0)))
                              (shape (data (Scenes.cylinder 1))))
               (mkMachine Scenes.registered [])
   /\ exists pre a b post m',
        candidates Scenes.cylinder Scenes.registered = pre ++ (a, b) :: post
        /\ skipped (Scenes.cylinder a) (Scenes.cylinder b) = false
        /\ lookupMethod (methName (Scenes.cylinder a) (Scenes.cylinder b)) = None
        /\ forOf pre (fun p => addAnyCollisions Scenes.cylinder (fst p) (snd p))
             (swapped (mkMachine Scenes.registered [])) = Done m'
        /\ tick Scenes.cylinder (mkMachine Scenes.registered [])
           = Raised (InvalidShapes (shape (data (Scenes.cylinder a)))
                                   (shape (data (Scenes.cylinder b)))) m'
        /\ emitted m' = [])
  /\ (enabled (data (Scenes.cylinderDisabled 1)) = false
      /\ lookupMethod (methName (Scenes.cylinderDisabled 0)
                                (Scenes.cylinderDisabled 1)) = None
      /\ addAnyCollisions Scenes.cylinderDisabled 0 1 (mkMachine Scenes.registered [])
         = Done (mkMachine Scenes.registered []))
  /\ (collideNonVisible (data (Scenes.hiddenCylinder 0)) = true
      /\ isVisibleInScene (ArgEntity (el (Scenes.hiddenCylinder 1))) = false
      /\ addAnyCollisions Scenes.hiddenCylinder 0 1 (mkMachine Scenes.registered [])
         = Raised (InvalidShapes (shape (data (Scenes.hiddenCylinder 0)))
                                 (shape (data (Scenes.hiddenCylinder 1))))
                  (mkMachine Scenes.registered [])).
Proof.
  assert (Hin : In (0, 1) (candidates Scenes.cylinder Scenes.registered))
    by (vm_compute; left; reflexivity).
  assert (S : skipped (Scenes.cylinder 0) (Scenes.cylinder 1) = false)
    by (vm_compute; reflexivity).
  assert (L : lookupMethod (methName (Scenes.cylinder 0) (Scenes.cylinder 1)) = None)
    by (vm_compute; reflexivity).
  assert (D : enabled (data (Scenes.cylinderDisabled 1)) = false) by reflexivity.
  assert (L' : lookupMethod (methName (Scenes.hiddenCylinder 0)
                                      (Scenes.hiddenCylinder 1)) = None)
    by (vm_compute; reflexivity).
  split; [|split].
  - split; [exact Hin|]. split; [exact S|]. split; [exact L|]. split.
    + exact (proj1 (unknown_shape_pair_aborts_tick Scenes.cylinder)
                   0 1 (mkMachine Scenes.registered []) S L).
    + exact (proj1 (proj2 (proj2 (unknown_shape_pair_aborts_tick Scenes.cylinder)))
                   Scenes.registered 0 1 Hin S L).
  - split; [exact D|]. split; [vm_compute; reflexivity|].
    exact (proj1 (proj2 (unknown_shape_pair_aborts_tick Scenes.cylinderDisabled))
                 0 1 (mkMachine Scenes.registered []) (or_intror (or_introl D))).
  - split; [reflexivity|]. split; [reflexivity|].
    exact (proj2 (proj2 (proj2 (unknown_shape_pair_aborts_tick Scenes.hiddenCylinder)))
                 0 1 (mkMachine Scenes.registered [])
                 eq_refl eq_refl eq_refl eq_refl eq_refl eq_refl eq_refl L').
Defined.

(** C8 as stated fails: a participant that is not visible is not always
    skipped silently. Collider 1 requires visibility and its entity is
    hidden, but the pair [(0, 1)] is governed by collider 0, which collides
    with non-visible entities: the pair reaches the shape lookup, finds no
    test for [sphere] and [cylinder], and the tick throws. *)
Lemma unknown_shape_hidden_participant_counterexample :
  isVisibleInScene (ArgEntity (el (Scenes.hiddenCylinder 1))) = false
  /\ collideNonVisible (data (Scenes.hiddenCylinder 1)) = false
  /\ addAnyCollisions Scenes.hiddenCylinder 0 1 (mkMachine Scenes.registered [])
     = Raised (InvalidShapes "sphere" "cylinder") (mkMachine Scenes.registered [])
  /\ tick Scenes.hiddenCylinder (mkMachine Scenes.registered [])
     = Raised (InvalidShapes "sphere" "cylinder")
              (swapped (mkMachine Scenes.registered [])).
Proof. vm_compute. repeat split; reflexivity. Qed.

(** The tick of the scene with the unsupported literal. *)
Example cylinder_throws :
  tick Scenes.cylinder (mkMachine Scenes.registered [])
  = Raised (InvalidShapes "sphere" "cylinder")
           (swapped (mkMachine Scenes.registered [])).
Proof. vm_compute. reflexivity. Qed.

(** ** C4 and C5: the registry *)

Lemma inSomeBucket_inBucket : forall c s,
  inSomeBucket c s <-> exists l, inBucket c l s = true.
Proof.
  intros c s. unfold inSomeBucket, inBucket. split.
  - intros [l [b [G H]]]. exists l. rewrite G.
    apply (set_has_In Nat.eqb_eq). assumption.
  - intros [l H]. destruct (JsMap.get String.eqb l (layers s)) as [b|] eqn:G;
      [|discriminate].
    exists l, b. split; [assumption|]. apply (set_has_In Nat.eqb_eq). assumption.
Qed.

Lemma applyCall_add : forall s c l,
  applyCall s (CallAdd c l)
  = setColliders (JsSet.add Nat.eqb c (colliders s))
      (setLayers
         (JsMap.set String.eqb l
            (JsSet.add Nat.eqb c
               (match JsMap.get String.eqb l (layers s) with
                | Some b => b
                | None => []
                end))
            (layers s))
         s).
Proof.
  intros s c l. unfold applyCall, addCollider, JsMap.has. simpl.
  destruct (JsMap.get String.eqb l (layers s)) as [b|] eqn:G; simpl.
  - rewrite G. reflexivity.
  - rewrite (map_get_set_same String.eqb_eq). simpl.
    unfold setLayers, setColliders. simpl.
    rewrite (map_set_set String.eqb_eq). reflexivity.
Qed.

Lemma applyCall_remove : forall s c l,
  applyCall s (CallRemove c l)
  = match JsMap.get String.eqb l (layers s) with
    | Some b =>
        setColliders (JsSet.delete Nat.eqb c (colliders s))
          (setLayers (JsMap.set String.eqb l (JsSet.delete Nat.eqb c b) (layers s)) s)
    | None => s
    end.
Proof.
  intros s c l. unfold applyCall, removeCollider. simpl.
  destruct (JsMap.get String.eqb l (layers s)); reflexivity.
Qed.

Lemma add_colliders : forall s c l c',
  In c' (colliders (applyCall s (CallAdd c l))) <-> c' = c \/ In c' (colliders s).
Proof.
  intros s c l c'. rewrite applyCall_add. simpl. apply (set_In_add Nat.eqb_eq).
Qed.

Lemma add_inBucket : forall s c l c' l',
  inBucket c' l' (applyCall s (CallAdd c l)) = true
  <-> (l' = l /\ c' = c) \/ inBucket c' l' s = true.
Proof.
  intros s c l c' l'. rewrite applyCall_add. unfold inBucket. simpl.
  destruct (String.eqb l l') eqn:E.
  - apply String.eqb_eq in E. subst l'.
    rewrite (map_get_set_same String.eqb_eq), (set_has_add Nat.eqb_eq).
    rewrite orb_true_iff, Nat.eqb_eq.
    destruct (JsMap.get String.eqb l (layers s)); simpl; intuition (auto; discriminate).
  - apply String.eqb_neq in E.
    rewrite (map_get_set_other String.eqb_eq) by assumption.
    intuition congruence.
Qed.

Lemma remove_colliders : forall s c l b c',
  JsMap.get String.eqb l (layers s) = Some b ->
  In c' (colliders (applyCall s (CallRemove c l))) <-> In c' (colliders s) /\ c' <> c.
Proof.
  intros s c l b c' G. rewrite applyCall_remove, G. simpl.
  apply (set_In_delete Nat.eqb_eq).
Qed.

Lemma remove_inBucket : forall s c l b c' l',
  JsMap.get String.eqb l (layers s) = Some b ->
  inBucket c' l' (applyCall s (CallRemove c l)) = true
  <-> inBucket c' l' s = true /\ ~ (l' = l /\ c' = c).
Proof.
  intros s c l b c' l' G. rewrite applyCall_remove, G. unfold inBucket. simpl.
  destruct (String.eqb l l') eqn:E.
  - apply String.eqb_eq in E. subst l'.
    rewrite (map_get_set_same String.eqb_eq), G.
    rewrite !(set_has_In Nat.eqb_eq), (set_In_delete Nat.eqb_eq). intuition.
  - apply String.eqb_neq in E.
    rewrite (map_get_set_other String.eqb_eq) by assumption.
    intuition congruence.
Qed.

(** Whatever the calls, a collider of the flat set is in a bucket. *)
Lemma applyCall_covered : forall s call,
  (forall c, In c (colliders s) -> inSomeBucket c s) ->
  forall c, In c (colliders (applyCall s call)) -> inSomeBucket c (applyCall s call).
Proof.
  intros s [c l|c l] P c' H; apply inSomeBucket_inBucket.
  - apply add_colliders in H. destruct H as [->|H].
    + exists l. apply add_inBucket. left. auto.
    + apply P, inSomeBucket_inBucket in H. destruct H as [l' H].
      exists l'. apply add_inBucket. right. assumption.
  - destruct (JsMap.get String.eqb l (layers s)) as [b|] eqn:G.
    + apply (remove_colliders _ _ _ _ _ G) in H. destruct H as [H N].
      apply P, inSomeBucket_inBucket in H. destruct H as [l' H].
      exists l'. apply (remove_inBucket _ _ _ _ _ _ G). split; [assumption|].
      intros [_ E]. contradiction.
    + rewrite applyCall_remove, G in *. apply inSomeBucket_inBucket, P. assumption.
Qed.

(** With one layer at a time, a collider of a bucket is in the flat set
    too. *)
Lemma applyCall_one_layer : forall s call,
  registryInvariant s -> atMostOneBucket s -> keepsOneLayer s call = true ->
  registryInvariant (applyCall s call) /\ atMostOneBucket (applyCall s call).
Proof.
  intros s call R U K.
  assert (Rb : forall c, In c (colliders s) <-> exists l, inBucket c l s = true).
  { intro c. rewrite <- inSomeBucket_inBucket. apply R. }
  destruct call as [c l|c l]; simpl in K.
  - assert (Own : forall l', inBucket c l' s = true -> l' = l).
    { intros l' H. apply orb_true_iff in K. destruct K as [K|K].
      - apply negb_true_iff, (set_has_false Nat.eqb_eq) in K.
        exfalso. apply K. apply Rb. exists l'. assumption.
      - apply (U c); assumption. }
    split.
    + intro c'. rewrite inSomeBucket_inBucket, add_colliders. split.
      * intros [->|H].
        -- exists l. apply add_inBucket. auto.
        -- apply Rb in H. destruct H as [l' H]. exists l'.
           apply add_inBucket. auto.
      * intros [l' H]. apply add_inBucket in H. destruct H as [[_ ->]|H]; [auto|].
        right. apply Rb. exists l'. assumption.
    + intros c' l1 l2 H1 H2. apply add_inBucket in H1, H2.
      destruct H1 as [[-> ->]|H1]; destruct H2 as [[-> E]|H2].
      * reflexivity.
      * symmetry. apply Own. assumption.
      * subst c'. apply Own. assumption.
      * apply (U c'); assumption.
  - destruct (JsMap.get String.eqb l (layers s)) as [b|] eqn:G.
    + assert (Own : forall l', inBucket c l' s = true -> l' = l).
      { intros l' H. apply orb_true_iff in K. destruct K as [K|K].
        - apply (U c); assumption.
        - apply negb_true_iff, (set_has_false Nat.eqb_eq) in K.
          exfalso. apply K. apply Rb. exists l'. assumption. }
      split.
      * intro c'. rewrite inSomeBucket_inBucket, (remove_colliders _ _ _ _ _ G). split.
        -- intros [H N]. apply Rb in H. destruct H as [l' H]. exists l'.
           apply (remove_inBucket _ _ _ _ _ _ G). split; [assumption|].
           intros [_ E]. contradiction.
        -- intros [l' H]. apply (remove_inBucket _ _ _ _ _ _ G) in H.
           destruct H as [H N]. split; [apply Rb; exists l'; assumption|].
           intros ->. apply N. split; [apply Own; assumption | reflexivity].
      * intros c' l1 l2 H1 H2.
        apply (remove_inBucket _ _ _ _ _ _ G) in H1, H2.
        apply (U c'); [apply H1 | apply H2].
    + rewrite applyCall_remove, G. auto.
Qed.

Lemma applyCalls_covered : forall cs s,
  (forall c, In c (colliders s) -> inSomeBucket c s) ->
  forall c, In c (colliders (applyCalls cs s)) -> inSomeBucket c (applyCalls cs s).
Proof.
  intro cs. unfold applyCalls. induction cs as [|call r IH]; intros s P; simpl.
  - assumption.
  - apply IH. apply applyCall_covered. assumption.
Qed.

Lemma inNoOtherBucket_spec : forall c l s,
  inNoOtherBucket c l s = true <-> forall l', l' <> l -> inBucket c l' s = false.
Proof.
  intros c l s. unfold inNoOtherBucket. rewrite forallb_forall. split.
  - intros H l' N. unfold inBucket.
    destruct (JsMap.get String.eqb l' (layers s)) as [b|] eqn:G; [|reflexivity].
    assert (K : In l' (map fst (layers s))).
    { apply (map_get_In String.eqb_eq) in G. apply (in_map fst) in G. exact G. }
    specialize (H l' K). apply orb_true_iff in H. destruct H as [H|H].
    + apply String.eqb_eq in H. contradiction.
    + unfold inBucket in H. rewrite G in H. apply negb_true_iff in H. assumption.
  - intros H l' _. destruct (String.eqb l' l) eqn:E; [reflexivity|].
    apply String.eqb_neq in E. rewrite (H l' E). reflexivity.
Qed.

(** Every [addCollider] keeps the invariant, also one that puts a collider
    in a further bucket. *)
Lemma add_keeps_invariant : forall s c l,
  registryInvariant s -> registryInvariant (applyCall s (CallAdd c l)).
Proof.
  intros s c l R c'. rewrite inSomeBucket_inBucket, add_colliders. split.
  - intros [->|H].
    + exists l. apply add_inBucket. auto.
    + apply R, inSomeBucket_inBucket in H. destruct H as [l' H]. exists l'.
      apply add_inBucket. auto.
  - intros [l' H]. apply add_inBucket in H. destruct H as [[_ ->]|H]; [auto|].
    right. apply R, inSomeBucket_inBucket. exists l'. assumption.
Qed.

(** A [removeCollider(c, l)] that does not throw keeps the invariant
    exactly when [c] is in no other bucket. *)
Lemma remove_keeps_invariant : forall s c l b,
  registryInvariant s ->
  JsMap.get String.eqb l (layers s) = Some b ->
  (registryInvariant (applyCall s (CallRemove c l))
   <-> forall l', l' <> l -> inBucket c l' s = false).
Proof.
  intros s c l b R G. split.
  - intros R' l' N. destruct (inBucket c l' s) eqn:H; [|reflexivity]. exfalso.
    assert (H' : inBucket c l' (applyCall s (CallRemove c l)) = true).
    { apply (remove_inBucket _ _ _ _ _ _ G). split; [assumption|].
      intros [E _]. contradiction. }
    assert (Hin : In c (colliders (applyCall s (CallRemove c l)))).
    { apply R', inSomeBucket_inBucket. exists l'. assumption. }
    apply (remove_colliders _ _ _ _ _ G) in Hin. destruct Hin as [_ X].
    apply X. reflexivity.
  - intros Only c'. rewrite inSomeBucket_inBucket, (remove_colliders _ _ _ _ _ G). split.
    + intros [H N]. apply R, inSomeBucket_inBucket in H. destruct H as [l' H].
      exists l'. apply (remove_inBucket _ _ _ _ _ _ G). split; [assumption|].
      intros [_ E]. contradiction.
    + intros [l' H]. apply (remove_inBucket _ _ _ _ _ _ G) in H. destruct H as [H N].
      split; [apply R, inSomeBucket_inBucket; exists l'; assumption|].
      intros ->. destruct (String.eqb l' l) eqn:E.
      * apply String.eqb_eq in E. apply N. auto.
      * apply String.eqb_neq in E. rewrite (Only l' E) in H. discriminate.
Qed.

Lemma applyCall_keeps_invariant : forall s call,
  registryInvariant s ->
  (registryInvariant (applyCall s call) <-> keepsInvariant s call = true).
Proof.
  intros s [c l|c l] R; simpl.
  - split; [reflexivity | intros _; apply add_keeps_invariant; assumption].
  - unfold JsMap.has.
    destruct (JsMap.get String.eqb l (layers s)) as [b|] eqn:G; simpl.
    + rewrite inNoOtherBucket_spec. apply (remove_keeps_invariant s c l b R G).
    + rewrite applyCall_remove, G. split; [reflexivity | intros _; assumption].
Qed.

Lemma applyCalls_keep_invariant : forall cs s,
  registryInvariant s -> keepInvariant s cs = true ->
  registryInvariant (applyCalls cs s).
Proof.
  intro cs. unfold applyCalls. induction cs as [|call r IH]; intros s R K; simpl.
  - assumption.
  - simpl in K. apply andb_true_iff in K. destruct K as [K1 K2].
    apply IH; [|assumption]. apply applyCall_keeps_invariant; assumption.
Qed.

Lemma registryInvariant_init : registryInvariant init.
Proof. intro c. split; [intros [] | intros [l [b [G _]]]; discriminate]. Qed.

(** C4, as the code has it. After any sequence of [addCollider] and
    [removeCollider] calls on the initial registry, every collider of the
    flat active set is in at least one layer bucket. The converse holds,
    and with it the equivalence, as long as no [removeCollider(c, l)] takes
    [c] out of one of several buckets it is in: where the equivalence
    holds, a call keeps it exactly when it is an [addCollider], to whatever
    layer, a [removeCollider] on a layer with no bucket, which throws and
    changes nothing, or a [removeCollider(c, l)] with [c] in no bucket but
    that of [l]. In particular adding a collider to a second layer keeps
    the equivalence, and removing a collider that is also in another bucket
    from a layer that has a bucket breaks it. *)
Theorem registry_invariant_until_partial_remove : forall cs,
  let s := applyCalls cs init in
  (forall c, In c (colliders s) -> inSomeBucket c s)
  /\ (keepInvariant init cs = true -> registryInvariant s)
  /\ (registryInvariant s ->
      forall call, registryInvariant (applyCall s call) <-> keepsInvariant s call = true)
  /\ (registryInvariant s ->
      forall c l, registryInvariant (applyCall s (CallAdd c l)))
  /\ (forall c l l',
        JsMap.has String.eqb l (layers s) = true ->
        inBucket c l' s = true -> l' <> l ->
        ~ registryInvariant (applyCall s (CallRemove c l))).
Proof.
  intros cs s. split; [|split; [|split; [|split]]].
  - apply applyCalls_covered. intros c [].
  - apply applyCalls_keep_invariant. apply registryInvariant_init.
  - intros R call. apply applyCall_keeps_invariant. assumption.
  - intros R c l. apply add_keeps_invariant. assumption.
  - intros c l l' B H N R'. unfold JsMap.has in B.
    destruct (JsMap.get String.eqb l (layers s)) as [b|] eqn:G; [|discriminate].
    assert (H' : inBucket c l' (applyCall s (CallRemove c l)) = true).
    { apply (remove_inBucket _ _ _ _ _ _ G). split; [assumption|].
      intros [E _]. contradiction. }
    assert (Hin : In c (colliders (applyCall s (CallRemove c l)))).
    { apply R', inSomeBucket_inBucket. exists l'. assumption. }
    apply (remove_colliders _ _ _ _ _ G) in Hin. destruct Hin as [_ X].
    apply X. reflexivity.
Qed.

Lemma registry_invariant_until_partial_remove_witness :
  let cs := [CallAdd 0 "a"; CallAdd 0 "b"; CallAdd 1 "b"; CallRemove 1 "b";
             CallRemove 0 "c"]%string in
  keepInvariant init cs = true
  /\ registryInvariant (applyCalls cs init)
  /\ layers (applyCalls cs init) = [("a", [0]); ("b", [0])]%string
  /\ ~ registryInvariant (applyCall (applyCalls cs init) (CallRemove 0 "a"%string)).
Proof.
  intro cs.
  assert (K : keepInvariant init cs = true) by (vm_compute; reflexivity).
  split; [exact K|]. split; [|split; [reflexivity|]].
  - exact (proj1 (proj2 (registry_invariant_until_partial_remove cs)) K).
  - exact (proj2 (proj2 (proj2 (proj2 (registry_invariant_until_partial_remove cs))))
                 0 "a"%string "b"%string eq_refl eq_refl
                 (fun E => match String.eqb_neq "b" "a" with
                           | conj f _ => f eq_refl E
                           end)).
Defined.

(** C4 as stated fails: a collider added on two layers and removed from one
    stays in the other bucket and is no longer in the flat set. *)
Lemma registry_invariant_counterexample :
  let s := applyCalls [CallAdd 0 "a"; CallAdd 0 "b"; CallRemove 0 "a"]%string init in
  colliders s = []
  /\ layers s = [("a", []); ("b", [0])]%string
  /\ ~ registryInvariant s.
Proof.
  split; [reflexivity|]. split; [reflexivity|].
  intro R. destruct (R 0) as [_ H]. apply H.
  exists "b"%string, [0]. split; [reflexivity | left; reflexivity].
Qed.

(** C5, as the code has it. On a layer that has a bucket, [removeCollider]
    does not throw. When the collider is not in that bucket, every bucket
    is left as it was and the collider is deleted from the flat set; the
    call changes nothing exactly when the collider is not in the flat set
    either. *)
Theorem removeCollider_absent_from_bucket : forall c l s bucket evs,
  JsMap.get String.eqb l (layers s) = Some bucket ->
  exists s',
    removeCollider c l (mkMachine s evs) = Done (mkMachine s' evs)
    /\ (~ In c bucket ->
        layers s' = layers s
        /\ colliders s' = JsSet.delete Nat.eqb c (colliders s)
        /\ collisions s' = collisions s
        /\ prevCollisions s' = prevCollisions s
        /\ (s' = s <-> ~ In c (colliders s))).
Proof.
  intros c l s bucket evs G. unfold removeCollider. simpl. rewrite G.
  eexists. split; [reflexivity|]. intro N. simpl.
  rewrite (set_delete_absent Nat.eqb_eq) by assumption.
  rewrite map_set_get_id by assumption.
  repeat (split; [reflexivity|]). split.
  - intros E Hin.
    assert (C : colliders (setColliders (JsSet.delete Nat.eqb c (colliders s))
                             (setLayers (layers s) s)) = colliders s)
      by (rewrite E; reflexivity).
    simpl in C. rewrite <- C in Hin.
    apply (set_In_delete Nat.eqb_eq) in Hin. destruct Hin as [_ X]. apply X. reflexivity.
  - intro Hn. rewrite (set_delete_absent Nat.eqb_eq) by assumption.
    destruct s; reflexivity.
Qed.

Lemma removeCollider_absent_from_bucket_witness :
  JsMap.get String.eqb "b"%string (layers Scenes.registered) = Some [1]
  /\ exists s',
       removeCollider 2 "b"%string (mkMachine Scenes.registered []) = Done (mkMachine s' [])
       /\ (~ In 2 [1] ->
           layers s' = layers Scenes.registered
           /\ colliders s' = JsSet.delete Nat.eqb 2 (colliders Scenes.registered)
           /\ collisions s' = collisions Scenes.registered
           /\ prevCollisions s' = prevCollisions Scenes.registered
           /\ (s' = Scenes.registered <-> ~ In 2 (colliders Scenes.registered))).
Proof.
  assert (G : JsMap.get String.eqb "b"%string (layers Scenes.registered) = Some [1])
    by reflexivity.
  split; [exact G|].
  exact (removeCollider_absent_from_bucket 2 "b"%string Scenes.registered [1] [] G).
Defined.

(** C5 as stated fails: collider 0 is on layer [a] and is not in the bucket
    of layer [b]; removing it from [b] is not a no-op, it takes collider 0
    out of the flat set and leaves it in the bucket of [a]. *)
Lemma removeCollider_absent_counterexample :
  colliders Scenes.registered = [0; 1]
  /\ layers Scenes.registered = [("a", [0]); ("b", [1])]%string
  /\ removeCollider 0 "b"%string (mkMachine Scenes.registered [])
     = Done (mkMachine (mkSystem [] [] [] [1] [("a", [0]); ("b", [1])]%string) []).
Proof. repeat split; reflexivity. Qed.

(** On a layer with no bucket [this.layers.get(layer)] is [undefined] and
    the call throws before it changes anything. *)
Lemma removeCollider_no_bucket : forall c l s evs,
  JsMap.get String.eqb l (layers s) = None ->
  removeCollider c l (mkMachine s evs) = Raised TypeError (mkMachine s evs).
Proof.
  intros c l s evs G. unfold removeCollider. simpl. rewrite G. reflexivity.
Qed.

Example removeCollider_fresh_registry :
  removeCollider 0 "default"%string (mkMachine init [])
  = Raised TypeError (mkMachine init []).
Proof. reflexivity. Qed.

(** ** C6 and C9: shape tests *)

Lemma float_leb_ltb_eqb : forall x y : float,
  (x <=? y)%float = true <-> (x <? y)%float = true \/ (x =? y)%float = true.
Proof.
  intros x y. rewrite leb_spec, ltb_spec, FloatAxioms.eqb_spec.
  unfold SFleb, SFltb, SFeqb.
  destruct (SFcompare (Prim2SF x) (Prim2SF y)) as [[| |]|];
    split; intro H; try reflexivity; try discriminate; auto;
    destruct H; discriminate.
Qed.

Lemma SFcompare_refl : forall x,
  x <> S754_nan -> SFcompare x x = Some Eq.
Proof.
  intros [s|s| |s m e] H; simpl; try reflexivity.
  - destruct s; reflexivity.
  - contradiction.
  - destruct s; rewrite Z.compare_refl, Pos.compare_cont_refl; reflexivity.
Qed.

Lemma SFcompare_antisym : forall x y,
  SFcompare y x = option_map CompOpp (SFcompare x y).
Proof.
  intros [s1|s1| |s1 m1 e1] [s2|s2| |s2 m2 e2]; simpl; try reflexivity;
    try (destruct s1; reflexivity); try (destruct s2; reflexivity);
    try (destruct s1, s2; reflexivity).
  destruct s1, s2; simpl; try reflexivity;
    rewrite (Z.compare_antisym e1 e2);
    destruct (e1 ?= e2)%Z; simpl; try reflexivity;
    rewrite (Pos.compare_cont_antisym m1 m2 Eq); simpl;
    destruct (Pos.compare_cont Eq m1 m2); reflexivity.
Qed.

Lemma SFleb_trans : forall x y z,
  SFleb x y = true -> SFleb y z = true -> SFleb x z = true.
Proof.
  intros x y z. unfold SFleb.
  destruct x as [sx|sx| |sx mx ex], y as [sy|sy| |sy my ey], z as [sz|sz| |sz mz ez];
    simpl; try discriminate; try reflexivity;
    try (destruct sx; simpl; try discriminate; try reflexivity);
    try (destruct sy; simpl; try discriminate; try reflexivity);
    try (destruct sz; simpl; try discriminate; try reflexivity);
    change (Pos.compare_cont Eq) with Pos.compare;
    destruct (Z.compare_spec ex ey); simpl; try discriminate;
    destruct (Z.compare_spec ey ez); simpl; try discriminate;
    destruct (Z.compare_spec ex ez); simpl; try reflexivity; try lia;
    try (destruct (Pos.compare_spec mx my); simpl; try discriminate);
    try (destruct (Pos.compare_spec my mz); simpl; try discriminate);
    try (destruct (Pos.compare_spec mx mz); simpl; try reflexivity; try lia);
    intros; try reflexivity; try discriminate; try lia.
Qed.

Lemma float_leb_refl : forall a : float, is_nan a = false -> (a <=? a)%float = true.
Proof.
  intros a H. apply float_leb_ltb_eqb. right.
  unfold is_nan in H. apply negb_false_iff in H. assumption.
Qed.

Lemma float_leb_trans : forall a b c : float,
  (a <=? b)%float = true -> (b <=? c)%float = true -> (a <=? c)%float = true.
Proof. intros a b c. rewrite !leb_spec. apply SFleb_trans. Qed.

Lemma float_not_nan_spec : forall a : float,
  is_nan a = false -> Prim2SF a <> S754_nan.
Proof.
  intros a H E. unfold is_nan in H. apply negb_false_iff in H.
  rewrite FloatAxioms.eqb_spec, E in H. discriminate.
Qed.

Lemma float_nan_spec : forall a : float,
  is_nan a = true -> Prim2SF a = S754_nan.
Proof.
  intros a H. unfold is_nan in H. apply negb_true_iff in H.
  rewrite FloatAxioms.eqb_spec in H. unfold SFeqb in H.
  destruct (Prim2SF a) as [s|s| |s m e] eqn:E; [| |reflexivity|];
    rewrite SFcompare_refl in H; discriminate.
Qed.

(** A comparison with NaN on either side answers [false]. *)
Lemma float_leb_nan : forall a b : float,
  is_nan a = true \/ is_nan b = true -> (a <=? b)%float = false.
Proof.
  intros a b [H|H]; apply float_nan_spec in H; rewrite leb_spec; unfold SFleb;
    rewrite H; [reflexivity|].
  destruct (Prim2SF a); reflexivity.
Qed.

(** [Math.max] of two numbers is one of them and is below neither. *)
Lemma Math_max_largest : forall a b : float,
  is_nan a = false -> is_nan b = false ->
  (a <=? Math.max a b)%float = true
  /\ (b <=? Math.max a b)%float = true
  /\ (Math.max a b = a \/ Math.max a b = b).
Proof.
  intros a b Ha Hb. unfold Math.max. rewrite Ha, Hb. simpl.
  destruct (a <? b)%float eqn:Lab.
  - split; [apply float_leb_ltb_eqb; left; assumption|].
    split; [apply float_leb_refl; assumption | right; reflexivity].
  - destruct (b <? a)%float eqn:Lba.
    + split; [apply float_leb_refl; assumption|].
      split; [apply float_leb_ltb_eqb; left; assumption | left; reflexivity].
    + assert (E : SFcompare (Prim2SF a) (Prim2SF b) = Some Eq).
      { rewrite ltb_spec in Lab, Lba. unfold SFltb in Lab, Lba.
        rewrite (SFcompare_antisym (Prim2SF a) (Prim2SF b)) in Lba.
        pose proof (float_not_nan_spec a Ha) as Na.
        pose proof (float_not_nan_spec b Hb) as Nb.
        destruct (SFcompare (Prim2SF a) (Prim2SF b)) as [[| |]|] eqn:C;
          simpl in *; try discriminate; try reflexivity.
        destruct (Prim2SF a), (Prim2SF b); simpl in C; try discriminate;
          congruence. }
      assert (Lab' : (a <=? b)%float = true)
        by (rewrite leb_spec; unfold SFleb; rewrite E; reflexivity).
      assert (Lba' : (b <=? a)%float = true).
      { rewrite leb_spec. unfold SFleb.
        rewrite (SFcompare_antisym (Prim2SF a) (Prim2SF b)), E. reflexivity. }
      destruct (get_sign a).
      * split; [assumption|]. split; [apply float_leb_refl; assumption | auto].
      * split; [apply float_leb_refl; assumption|]. split; [assumption | auto].
Qed.

Lemma Math_max_not_nan : forall a b : float,
  is_nan a = false -> is_nan b = false -> is_nan (Math.max a b) = false.
Proof.
  intros a b Ha Hb. destruct (Math_max_largest a b Ha Hb) as [_ [_ [E|E]]];
    rewrite E; assumption.
Qed.

(** The largest of three numbers, as [getScaledRadius] computes it: one of
    the three, and below none of them. *)
Lemma largest_scale_component : forall kx ky kz : float,
  is_nan kx = false -> is_nan ky = false -> is_nan kz = false ->
  let m := Math.max kx (Math.max ky kz) in
  (kx <=? m)%float = true /\ (ky <=? m)%float = true /\ (kz <=? m)%float = true
  /\ (m = kx \/ m = ky \/ m = kz).
Proof.
  intros kx ky kz Hx Hy Hz m.
  pose proof (Math_max_not_nan ky kz Hy Hz) as Hm.
  destruct (Math_max_largest ky kz Hy Hz) as [Ly [Lz E]].
  destruct (Math_max_largest kx (Math.max ky kz) Hx Hm) as [Lx [Lm E']].
  fold m in Lx, Lm, E'.
  split; [assumption|].
  split; [apply (float_leb_trans _ _ _ Ly Lm)|].
  split; [apply (float_leb_trans _ _ _ Lz Lm)|].
  destruct E' as [E'|E']; [left; assumption|].
  rewrite E'. destruct E as [E|E]; rewrite E; auto.
Qed.

(** C6. Let two sphere colliders have the world positions [p1] and [p2],
    the world scales [k1] and [k2], and the radii [radius (data s1)] and
    [radius (data s2)]. Their distance [d] is the square root of the sum of
    the squared coordinate differences of [p1] and [p2]; the scaled radius
    of each is its radius times the largest component of its world scale,
    [r1] and [r2]. The sphere/sphere test answers [true] exactly when [d]
    is less than or equal to [r1 + r2], as doubles compare; it answers
    [true] when [d] equals [r1 + r2], and [false] when [d] or [r1 + r2] is
    not a number. The factor of each radius is the largest scale component
    indeed: it is one of the three and none of them is above it. *)
Theorem sphere_sphere_iff_distance_within_radii : forall s1 s2,
  let p1 := THREE.getWorldPosition (object3D (el s1)) in
  let p2 := THREE.getWorldPosition (object3D (el s2)) in
  let k1 := THREE.getWorldScale (object3D (el s1)) in
  let k2 := THREE.getWorldScale (object3D (el s2)) in
  let dx := (THREE.x p1 - THREE.x p2)%float in
  let dy := (THREE.y p1 - THREE.y p2)%float in
  let dz := (THREE.z p1 - THREE.z p2)%float in
  let d := sqrt (dx * dx + dy * dy + dz * dz)%float in
  let f1 := Math.max (THREE.x k1) (Math.max (THREE.y k1) (THREE.z k1)) in
  let f2 := Math.max (THREE.x k2) (Math.max (THREE.y k2) (THREE.z k2)) in
  let r1 := (f1 * radius (data s1))%float in
  let r2 := (f2 * radius (data s2))%float in
  (collision_sphere_sphere s1 s2 = true
   <-> (d <? r1 + r2)%float = true \/ (d =? r1 + r2)%float = true)
  /\ ((d =? r1 + r2)%float = true -> collision_sphere_sphere s1 s2 = true)
  /\ (is_nan d = true \/ is_nan (r1 + r2)%float = true ->
      collision_sphere_sphere s1 s2 = false)
  /\ (is_nan (THREE.x k1) = false -> is_nan (THREE.y k1) = false ->
      is_nan (THREE.z k1) = false ->
      (THREE.x k1 <=? f1)%float = true /\ (THREE.y k1 <=? f1)%float = true
      /\ (THREE.z k1 <=? f1)%float = true
      /\ (f1 = THREE.x k1 \/ f1 = THREE.y k1 \/ f1 = THREE.z k1))
  /\ (is_nan (THREE.x k2) = false -> is_nan (THREE.y k2) = false ->
      is_nan (THREE.z k2) = false ->
      (THREE.x k2 <=? f2)%float = true /\ (THREE.y k2 <=? f2)%float = true
      /\ (THREE.z k2 <=? f2)%float = true
      /\ (f2 = THREE.x k2 \/ f2 = THREE.y k2 \/ f2 = THREE.z k2)).
Proof.
  intros s1 s2 p1 p2 k1 k2 dx dy dz d f1 f2 r1 r2.
  assert (E : collision_sphere_sphere s1 s2 = (d <=? r1 + r2)%float) by reflexivity.
  rewrite E. split; [|split; [|split; [|split]]].
  - apply float_leb_ltb_eqb.
  - intro H. apply float_leb_ltb_eqb. right. assumption.
  - apply float_leb_nan.
  - apply largest_scale_component.
  - apply largest_scale_component.
Qed.

Lemma sphere_sphere_iff_distance_within_radii_witness :
  let s1 := Scenes.scaledSphereAt (THREE.mkVector3 0 0 0) (THREE.mkVector3 2 1 0.5) 1 in
  let s2 := Scenes.scaledSphereAt (THREE.mkVector3 3 4 0) (THREE.mkVector3 1 1.5 1) 2 in
  (sqrt ((0 - 3) * (0 - 3) + (0 - 4) * (0 - 4) + (0 - 0) * (0 - 0))
   =? Math.max 2 (Math.max 1 0.5) * 1 + Math.max 1 (Math.max 1.5 1) * 2)%float = true
  /\ collision_sphere_sphere s1 s2 = true
  /\ (Math.max 2 (Math.max 1 0.5) = 2 \/ Math.max 2 (Math.max 1 0.5) = 1
      \/ Math.max 2 (Math.max 1 0.5) = 0.5)%float.
Proof.
  intros s1 s2.
  assert (H : (sqrt ((0 - 3) * (0 - 3) + (0 - 4) * (0 - 4) + (0 - 0) * (0 - 0))
               =? Math.max 2 (Math.max 1 0.5) * 1
                  + Math.max 1 (Math.max 1.5 1) * 2)%float = true)
    by (vm_compute; reflexivity).
  split; [exact H|]. split.
  - exact (proj1 (proj2 (sphere_sphere_iff_distance_within_radii s1 s2)) H).
  - exact (proj2 (proj2 (proj2
             (proj1 (proj2 (proj2 (proj2
                       (sphere_sphere_iff_distance_within_radii s1 s2))))
                    eq_refl eq_refl eq_refl)))).
Defined.

(** Centres 5 apart: radii 2 and 3 touch, radii 2 and 2.5 do not. *)
Example sphere_sphere_boundary :
  collision_sphere_sphere (Scenes.sphereAt (THREE.mkVector3 0 0 0) 2)
                          (Scenes.sphereAt (THREE.mkVector3 3 4 0) 3) = true
  /\ collision_sphere_sphere (Scenes.sphereAt (THREE.mkVector3 0 0 0) 2)
                             (Scenes.sphereAt (THREE.mkVector3 3 4 0) 2.5) = false.
Proof. vm_compute. split; reflexivity. Qed.

(** The radii are scaled, each by the largest component of its own world
    scale: centres 5 apart with radii 1 and 2 touch under the scales
    [(2, 1, 0.5)] and [(1, 1.5, 1)], which make the radii 2 and 3; they do
    not under unit scale, nor when the largest component of the first scale
    is only 1.5. *)
Example sphere_sphere_scaled_radii :
  collision_sphere_sphere
    (Scenes.scaledSphereAt (THREE.mkVector3 0 0 0) (THREE.mkVector3 2 1 0.5) 1)
    (Scenes.scaledSphereAt (THREE.mkVector3 3 4 0) (THREE.mkVector3 1 1.5 1) 2) = true
  /\ collision_sphere_sphere
       (Scenes.scaledSphereAt (THREE.mkVector3 0 0 0) (THREE.mkVector3 1 1 1) 1)
       (Scenes.scaledSphereAt (THREE.mkVector3 3 4 0) (THREE.mkVector3 1 1 1) 2) = false
  /\ collision_sphere_sphere
       (Scenes.scaledSphereAt (THREE.mkVector3 0 0 0) (THREE.mkVector3 1.5 1 0.5) 1)
       (Scenes.scaledSphereAt (THREE.mkVector3 3 4 0) (THREE.mkVector3 1 1.5 1) 2) = false.
Proof. vm_compute. repeat split; reflexivity. Qed.

(** C9. For a box [b] and a sphere [s], the test the tracker dispatches to
    for [(b, s)] is [collision_box_sphere], the one for [(s, b)] is
    [collision_sphere_box], and the first answers what the second answers
    with the arguments swapped. *)
Theorem box_sphere_delegates_to_sphere_box : forall b s,
  shape (data b) = "box"%string ->
  shape (data s) = "sphere"%string ->
  lookupMethod (methName b s) = Some collision_box_sphere
  /\ lookupMethod (methName s b) = Some collision_sphere_box
  /\ collision_box_sphere b s = collision_sphere_box s b.
Proof.
  intros b s Hb Hs. unfold methName. rewrite Hb, Hs.
  repeat split; reflexivity.
Qed.

Lemma box_sphere_delegates_to_sphere_box_witness :
  let b := Scenes.boxAt (THREE.mkVector3 0 0 0) 2 2 2 in
  let s := Scenes.sphereAt (THREE.mkVector3 2 0 0) 1 in
  shape (data b) = "box"%string
  /\ shape (data s) = "sphere"%string
  /\ lookupMethod (methName b s) = Some collision_box_sphere
  /\ lookupMethod (methName s b) = Some collision_sphere_box
  /\ collision_box_sphere b s = collision_sphere_box s b.
Proof.
  intros b s.
  assert (Hb : shape (data b) = "box"%string) by reflexivity.
  assert (Hs : shape (data s) = "sphere"%string) by reflexivity.
  split; [exact Hb|]. split; [exact Hs|].
  exact (box_sphere_delegates_to_sphere_box b s Hb Hs).
Defined.

(** A box of side 2 at the origin and a unit sphere: touching at distance
    2, apart at distance 2.5, in either argument order. *)
Example box_sphere_values :
  collision_box_sphere (Scenes.boxAt (THREE.mkVector3 0 0 0) 2 2 2)
                       (Scenes.sphereAt (THREE.mkVector3 2 0 0) 1) = true
  /\ collision_sphere_box (Scenes.sphereAt (THREE.mkVector3 2.5 0 0) 1)
                          (Scenes.boxAt (THREE.mkVector3 0 0 0) 2 2 2) = false.
Proof. vm_compute. split; reflexivity. Qed.

(** * Further properties of the code *)

(** ** Shape tests and visibility *)

(** X1. The box/box test does not depend on the order of its arguments. *)
Theorem collision_box_box_symmetric : forall box1 box2,
  collision_box_box box1 box2 = collision_box_box box2 box1.
Proof.
  intros box1 box2. unfold collision_box_box, THREE.intersectsBox.
  repeat match goal with
         | |- context [PrimFloat.ltb ?a ?b] =>
             let t := fresh "t" in
             generalize (PrimFloat.ltb a b); intro t
         end.
  repeat match goal with
         | t : bool |- _ => destruct t
         end; reflexivity.
Qed.

(** X2. [isVisibleInScene] answers [true] exactly when the node it starts
    from and every ancestor of it up to the root are visible; for an
    entity the walk starts from its [object3D]. *)
Theorem isVisibleInScene_all_ancestors : forall a,
  isVisibleInScene a = forallb THREE.visible (pathToRoot (sceneNode a)).
Proof.
  assert (Walk : forall o, visibleUpToRoot o = forallb THREE.visible (pathToRoot o)).
  { fix IH 1. intros [v [up|] pos scale].
    - change (visibleUpToRoot (THREE.mkObject3D v (Some up) pos scale))
        with (if negb v then false else visibleUpToRoot up).
      change (forallb THREE.visible (pathToRoot (THREE.mkObject3D v (Some up) pos scale)))
        with (v && forallb THREE.visible (pathToRoot up)).
      rewrite (IH up). destruct v; reflexivity.
    - simpl. destruct v; reflexivity. }
  intros [o|e]; apply Walk.
Qed.

(** ** Recording edges *)

(** X3. [addCollision(c1, c2)] never throws. Afterwards [hasCollided]
    answers as before for every pair, except that it answers [true] for
    [(c1, c2)] unless [c1] suppresses duplicates and [(c2, c1)] was
    recorded. The call changes nothing but [this.collisions], whatever
    graph it is handed as [list], and keeps the graph free of duplicates. *)
Theorem addCollision_then_hasCollided : forall w c1 c2 l m,
  exists m',
    addCollision w c1 c2 l m = Done m'
    /\ (forall a b,
          hasCollided a b (collisions (sys m'))
          = hasCollided a b (collisions (sys m))
            || (Nat.eqb a c1 && Nat.eqb b c2
                && negb (ignoreDuplicates (data (w c1))
                         && hasCollided c2 c1 (collisions (sys m)))))
    /\ frameOf m m'
    /\ (wfGraph (collisions (sys m)) -> wfGraph (collisions (sys m'))).
Proof.
  intros w c1 c2 l m. rewrite addCollision_recordEdge. eexists.
  split; [reflexivity|]. simpl. split; [|split].
  - intros a b. apply hasCollided_recordEdge.
  - repeat split.
  - apply wfGraph_recordEdge.
Qed.

(** A pair that is not an overlapping candidate is absent from the graph
    of the tick and gets no [collisionstart], whatever the outcome of the
    tick. *)
Lemma not_candidate_not_recorded : forall w s c1 c2,
  overlapping (w c1) (w c2) = false \/ ~ In (c1, c2) (candidates w s) ->
  let m' := machineOf (tick w (mkMachine s [])) in
  hasCollided c1 c2 (collisions (sys m')) = false
  /\ countEvents collisionstart c1 c2 (emitted m') = 0.
Proof.
  intros w s c1 c2 Why. simpl.
  destruct (tick_any_outcome w (mkMachine s [])) as [G [evs [L H]]]. simpl in *.
  assert (Hc : hasCollided c1 c2
                 (collisions (sys (machineOf (buildGraph w (swapped (mkMachine s [])))))) = false).
  { destruct (hasCollided c1 c2 _) eqn:Hc; [|reflexivity].
    apply (build_sound w (mkMachine s [])) in Hc. destruct Hc as [Hin O].
    destruct Why; [congruence | contradiction]. }
  rewrite G. split; [assumption|]. rewrite L. apply countEvents_zero.
  intros ev Hin. destruct (isEvent collisionstart c1 c2 ev) eqn:I; [|reflexivity].
  exfalso. destruct (H ev Hin) as [[p [Hp E]]|En].
  - apply (isEvent_emission _ _ _ _ _ _ _ E) in I. destruct I as [_ ->].
    unfold startEdges in Hp. apply filter_In in Hp. destruct Hp as [Hp _].
    apply edgesOf_hasCollided in Hp; [congruence|].
    apply (build_wfGraph w (swapped (mkMachine s [])) wfGraph_nil).
  - unfold isEvent in I. rewrite En in I. discriminate.
Qed.

(** X4. A collider is never recorded as colliding with itself, and no tick
    emits a [collisionstart] of a collider with itself, whatever the scene,
    the registry and the outcome of the tick. *)
Theorem no_self_collision : forall w s c,
  let m' := machineOf (tick w (mkMachine s [])) in
  hasCollided c c (collisions (sys m')) = false
  /\ countEvents collisionstart c c (emitted m') = 0.
Proof.
  intros w s c. apply not_candidate_not_recorded. right.
  intro H. apply In_candidates in H. destruct H as [_ [N _]]. apply N. reflexivity.
Qed.

Lemma detached_or_disabled_is_skipped : forall c1 c2,
  behaviourMissing c1 = true \/ behaviourMissing c2 = true
  \/ enabled (data c1) = false \/ enabled (data c2) = false
  \/ isPlaying (el c1) = false \/ isPlaying (el c2) = false ->
  skipped c1 c2 = true.
Proof.
  intros c1 c2 H. unfold skipped.
  destruct (behaviourMissing c1 || negb (enabled (data c1))
            || behaviourMissing c2 || negb (enabled (data c2))) eqn:C1; [reflexivity|].
  destruct (negb (isPlaying (el c1)) || negb (isPlaying (el c2))) eqn:C2; [reflexivity|].
  repeat (apply orb_false_iff in C1; destruct C1 as [C1 ?]).
  apply orb_false_iff in C2. destruct C2 as [C2 C3].
  destruct H as [H|[H|[H|[H|[H|H]]]]]; rewrite H in *; simpl in *; discriminate.
Qed.

(** X5. While a collider of a pair is disabled, its behaviour is not
    attached to its entity, or its entity is not playing, a tick records no
    edge for the pair in either role and emits no [collisionstart] for it,
    whatever the shapes and positions and whatever the outcome of the
    tick. *)
Theorem inactive_pair_never_starts : forall w c1 c2,
  behaviourMissing (w c1) = true \/ behaviourMissing (w c2) = true
  \/ enabled (data (w c1)) = false \/ enabled (data (w c2)) = false
  \/ isPlaying (el (w c1)) = false \/ isPlaying (el (w c2)) = false ->
  forall s,
    let m' := machineOf (tick w (mkMachine s [])) in
    hasCollided c1 c2 (collisions (sys m')) = false
    /\ countEvents collisionstart c1 c2 (emitted m') = 0.
Proof.
  intros w c1 c2 H s. apply not_candidate_not_recorded. left.
  apply skipped_not_overlapping, detached_or_disabled_is_skipped. assumption.
Qed.

Lemma inactive_pair_never_starts_witness :
  enabled (data (Scenes.gone 0)) = false
  /\ forall s,
       let m' := machineOf (tick Scenes.gone (mkMachine s [])) in
       hasCollided 0 1 (collisions (sys m')) = false
       /\ countEvents collisionstart 0 1 (emitted m') = 0.
Proof.
  assert (D : enabled (data (Scenes.gone 0)) = false) by reflexivity.
  split; [exact D|].
  exact (inactive_pair_never_starts Scenes.gone 0 1
           (or_intror (or_intror (or_introl D)))).
Defined.

(** X6. A collider tests only the layers it lists: when [c1] is not in the
    flat set, or [c2] is in no bucket of a layer of [c1.data.collidesWith],
    a tick records no edge [(c1, c2)] and emits no [collisionstart] for
    it. *)
Theorem untested_layer_never_starts : forall w s c1 c2,
  ~ In c1 (colliders s)
  \/ (forall l, In l (collidesWith (data (w c1))) -> inBucket c2 l s = false) ->
  let m' := machineOf (tick w (mkMachine s [])) in
  hasCollided c1 c2 (collisions (sys m')) = false
  /\ countEvents collisionstart c1 c2 (emitted m') = 0.
Proof.
  intros w s c1 c2 H. apply not_candidate_not_recorded. right.
  intro Hin. apply In_candidates in Hin.
  destruct Hin as [Hc [_ [l [bucket [Hl [G Hb]]]]]].
  destruct H as [H|H]; [contradiction|].
  specialize (H l Hl). unfold inBucket in H. rewrite G in H.
  apply (set_has_false Nat.eqb_eq) in H. contradiction.
Qed.

Lemma untested_layer_never_starts_witness :
  (forall l, In l (collidesWith (data (Scenes.oneWay 0))) ->
             inBucket 1 l Scenes.registered = false)
  /\ (let m' := machineOf (tick Scenes.oneWay (mkMachine Scenes.registered [])) in
      hasCollided 0 1 (collisions (sys m')) = false
      /\ countEvents collisionstart 0 1 (emitted m') = 0).
Proof.
  assert (H : forall l, In l (collidesWith (data (Scenes.oneWay 0))) ->
                        inBucket 1 l Scenes.registered = false)
    by (intros l []).
  split; [exact H|].
  exact (untested_layer_never_starts Scenes.oneWay Scenes.registered 0 1 (or_intror H)).
Defined.

(** ** Whole ticks *)

Lemma eventsFor_pairs : forall w name edges,
  forallb (canEmit w name) edges = true ->
  map pairOf (eventsFor w name edges) = edges
  /\ Forall (fun ev => evName ev = name) (eventsFor w name edges).
Proof.
  intros w name edges. induction edges as [|[c1 c2] r IH]; intro C; simpl in *.
  - split; [reflexivity | constructor].
  - apply andb_true_iff in C. destruct C as [Cp Cr]. unfold canEmit in Cp. simpl in Cp.
    destruct (emission w name c1 c2) as [ev|] eqn:E; [|discriminate].
    destruct (IH Cr) as [M F]. apply emission_fields in E. destruct E as [En [E1 E2]].
    simpl. split.
    + unfold pairOf at 1. rewrite E1, E2. f_equal. exact M.
    + constructor; assumption.
Qed.

(** X7. A tick that completes has emitted first its start events, one for
    each edge of the new graph that the previous graph lacks, in the
    iteration order of the new graph, then its end events, one for each
    edge of the previous graph that the new graph lacks, in the iteration
    order of the previous graph. It leaves [this.newCollisions] empty: the
    started collisions are announced, never stored. *)
Theorem tick_log_order : forall w s m',
  tick w (mkMachine s []) = Done m' ->
  exists starts ends,
    emitted m' = starts ++ ends
    /\ map pairOf starts = startEdges (collisions s) (collisions (sys m'))
    /\ Forall (fun ev => evName ev = collisionstart) starts
    /\ map pairOf ends = endEdges (collisions s) (collisions (sys m'))
    /\ Forall (fun ev => evName ev = collisionend) ends
    /\ newCollisions (sys m') = []
    /\ prevCollisions (sys m') = collisions s.
Proof.
  intros w s m' H. apply tick_Done in H.
  destruct H as [mb [_ [F [_ [S [CS [CE L]]]]]]]. simpl in *.
  assert (G : collisions (sys m') = collisions (sys mb)) by (rewrite S; reflexivity).
  rewrite G.
  destruct (eventsFor_pairs _ _ _ CS) as [M1 F1].
  destruct (eventsFor_pairs _ _ _ CE) as [M2 F2].
  exists (eventsFor w collisionstart (startEdges (collisions s) (collisions (sys mb)))),
         (eventsFor w collisionend (endEdges (collisions s) (collisions (sys mb)))).
  repeat (split; [assumption|]). split; [rewrite S; reflexivity|].
  rewrite S. simpl. apply F.
Qed.

Lemma tick_log_order_witness :
  let m' := machineOf (tick Scenes.bothWays (mkMachine Scenes.afterOneWay [])) in
  tick Scenes.bothWays (mkMachine Scenes.afterOneWay []) = Done m'
  /\ exists starts ends,
       emitted m' = starts ++ ends
       /\ map pairOf starts
          = startEdges (collisions Scenes.afterOneWay) (collisions (sys m'))
       /\ Forall (fun ev => evName ev = collisionstart) starts
       /\ map pairOf ends
          = endEdges (collisions Scenes.afterOneWay) (collisions (sys m'))
       /\ Forall (fun ev => evName ev = collisionend) ends
       /\ newCollisions (sys m') = []
       /\ prevCollisions (sys m') = collisions Scenes.afterOneWay.
Proof.
  intro m'.
  assert (H : tick Scenes.bothWays (mkMachine Scenes.afterOneWay []) = Done m')
    by (vm_compute; reflexivity).
  split; [exact H|].
  exact (tick_log_order Scenes.bothWays Scenes.afterOneWay m' H).
Defined.

(** The candidate loop reads nothing of the machine but the graph it is
    building. *)
Lemma loop_reads_graph_only : forall w xs m n,
  collisions (sys m) = collisions (sys n) ->
  match forOf xs (fun p => addAnyCollisions w (fst p) (snd p)) m,
        forOf xs (fun p => addAnyCollisions w (fst p) (snd p)) n with
  | Done m', Done n' => collisions (sys m') = collisions (sys n')
  | Raised e m', Raised e' n' => e = e' /\ collisions (sys m') = collisions (sys n')
  | _, _ => False
  end.
Proof.
  intros w xs. induction xs as [|[c1 c2] r IH]; intros m n E; simpl.
  - assumption.
  - destruct (addAnyCollisions_cases w c1 c2 m) as [[S1 E1]|[[S1 [L1 E1]]|[[O1 E1]|[O1 E1]]]];
      destruct (addAnyCollisions_cases w c1 c2 n) as [[S2 E2]|[[S2 [L2 E2]]|[[O2 E2]|[O2 E2]]]];
      rewrite E1, E2;
      try (apply IH; simpl; rewrite ?E; reflexivity);
      try (split; [reflexivity | assumption]);
      try congruence;
      try (unfold overlapping in *; rewrite ?S1, ?S2, ?L1, ?L2 in *; simpl in *; discriminate);
      exfalso;
      try (unfold addAnyCollisions in E2; rewrite S1, L1 in E2; discriminate);
      try (unfold addAnyCollisions in E1; rewrite S2, L2 in E1; discriminate).
Qed.

Lemma filter_none : forall {X} (f : X -> bool) xs,
  (forall x, In x xs -> f x = false) -> filter f xs = [].
Proof.
  intros X f xs H. induction xs as [|x r IH]; simpl; [reflexivity|].
  rewrite (H x) by (left; reflexivity). apply IH.
  intros y Hy. apply H. right. assumption.
Qed.

(** X8. A scene at rest is silent: after a tick that completes, a second
    tick on the same scene and registry completes too, builds the same
    graph and emits no event. *)
Theorem steady_scene_is_silent : forall w s m1,
  tick w (mkMachine s []) = Done m1 ->
  exists m2,
    tick w (mkMachine (sys m1) []) = Done m2
    /\ collisions (sys m2) = collisions (sys m1)
    /\ emitted m2 = [].
Proof.
  intros w s m1 H. apply tick_Done in H.
  destruct H as [mb [B [F [Wb [S _]]]]].
  assert (G1 : collisions (sys m1) = collisions (sys mb)) by (rewrite S; reflexivity).
  assert (C1 : candidates w (sys m1) = candidates w s).
  { destruct F as [_ [_ [Fc [Fl _]]]]. unfold candidates, turnOf.
    rewrite S. simpl in *. rewrite Fc, Fl. reflexivity. }
  pose proof (loop_reads_graph_only w (candidates w s)
                (swapped (mkMachine (sys m1) [])) (swapped (mkMachine s []))
                eq_refl) as R.
  rewrite buildGraph_candidates in B.
  change (candidates w (sys (swapped (mkMachine s [])))) with (candidates w s) in B.
  rewrite B in R.
  destruct (forOf (candidates w s) _ (swapped (mkMachine (sys m1) []))) as [mb2|e mb2] eqn:B2;
    [|contradiction].
  assert (Bd : buildGraph w (swapped (mkMachine (sys m1) [])) = Done mb2).
  { rewrite buildGraph_candidates.
    change (candidates w (sys (swapped (mkMachine (sys m1) [])))) with (candidates w (sys m1)).
    rewrite C1. exact B2. }
  assert (Q : forall prevg, prevg = collisions (sys mb2) ->
                startEdges prevg (collisions (sys mb2)) = []
                /\ endEdges prevg (collisions (sys mb2)) = []).
  { intros prevg ->. rewrite R. split; apply filter_none; intros [a b] Hin; simpl;
      rewrite (edgesOf_hasCollided a b (collisions (sys mb)) (proj1 Wb) Hin);
      reflexivity. }
  destruct (Q (collisions (sys m1)) (eq_trans G1 (eq_sym R))) as [Q1 Q2].
  assert (T : forall m2, tick w (mkMachine (sys m1) []) = Done m2 ->
                collisions (sys m2) = collisions (sys m1) /\ emitted m2 = []).
  { intros m2 H2. apply tick_Done in H2.
    destruct H2 as [mb' [B' [_ [_ [S' [_ [_ L']]]]]]].
    rewrite Bd in B'. inversion B'; subst mb'. simpl in L'.
    rewrite Q1, Q2 in L'. split; [|exact L'].
    rewrite S', G1. simpl. exact R. }
  destruct (tick_completes w (mkMachine (sys m1) []) mb2 Bd) as [m2 H2].
  - simpl. rewrite Q1. reflexivity.
  - simpl. rewrite Q2. reflexivity.
  - exists m2. split; [exact H2 | apply T; exact H2].
Qed.

Lemma steady_scene_is_silent_witness :
  let m1 := machineOf (tick Scenes.bothWays (mkMachine Scenes.registered [])) in
  tick Scenes.bothWays (mkMachine Scenes.registered []) = Done m1
  /\ emitted m1 <> []
  /\ exists m2,
       tick Scenes.bothWays (mkMachine (sys m1) []) = Done m2
       /\ collisions (sys m2) = collisions (sys m1)
       /\ emitted m2 = [].
Proof.
  intro m1.
  assert (H : tick Scenes.bothWays (mkMachine Scenes.registered []) = Done m1)
    by (vm_compute; reflexivity).
  split; [exact H|]. split; [vm_compute; discriminate|].
  exact (steady_scene_is_silent Scenes.bothWays Scenes.registered m1 H).
Defined.

(** ** When a tick throws *)

Lemma emission_attached : forall w name c1 c2,
  behaviourMissing (w c1) = false -> behaviourMissing (w c2) = false ->
  exists ev, emission w name c1 c2 = Some ev.
Proof.
  intros w name c1 c2 H1 H2. unfold behaviourMissing, emission, JsMap.has in *.
  destruct (components (el (w c1))) as [comps|]; [|discriminate].
  destruct (JsMap.get String.eqb (attrName (w c1)) comps) as [d1|]; [|discriminate].
  destruct (eventTarget d1); [|eexists; reflexivity].
  destruct (components (el (w c2))) as [comps2|]; [|discriminate].
  destruct (JsMap.get String.eqb (attrName (w c2)) comps2); [|discriminate].
  eexists. reflexivity.
Qed.

Lemma emission_detached : forall w name c1 c2,
  behaviourMissing (w c1) = true -> emission w name c1 c2 = None.
Proof.
  intros w name c1 c2 H. unfold behaviourMissing, emission, JsMap.has in *.
  destruct (components (el (w c1))) as [comps|]; [|reflexivity].
  destruct (JsMap.get String.eqb (attrName (w c1)) comps); [discriminate|reflexivity].
Qed.

Lemma overlapping_attached : forall c1 c2,
  overlapping c1 c2 = true ->
  behaviourMissing c1 = false /\ behaviourMissing c2 = false.
Proof.
  intros c1 c2 O. unfold overlapping in O. apply andb_true_iff in O.
  destruct O as [S _]. apply negb_true_iff in S.
  destruct (behaviourMissing c1) eqn:B1.
  - rewrite detached_or_disabled_is_skipped in S by auto. discriminate.
  - destruct (behaviourMissing c2) eqn:B2; [|auto].
    rewrite detached_or_disabled_is_skipped in S by auto. discriminate.
Qed.

Lemma loop_completes : forall w xs m,
  forallb (fun p => skipped (w (fst p)) (w (snd p))
                    || match lookupMethod (methName (w (fst p)) (w (snd p))) with
                       | Some _ => true
                       | None => false
                       end) xs = true ->
  exists m', forOf xs (fun p => addAnyCollisions w (fst p) (snd p)) m = Done m'.
Proof.
  intros w xs. induction xs as [|[c1 c2] r IH]; intros m K; simpl in *.
  - eexists. reflexivity.
  - apply andb_true_iff in K. destruct K as [K1 K2].
    destruct (addAnyCollisions_cases w c1 c2 m) as [[_ E]|[[S [L E]]|[[_ E]|[_ E]]]];
      rewrite E; try (apply IH; assumption).
    rewrite S, L in K1. discriminate.
Qed.

(** The start pass of a tick cannot fail: both behaviours of a recorded
    edge are attached. *)
Lemma start_edges_can_emit : forall w s mb,
  buildGraph w (swapped (mkMachine s [])) = Done mb ->
  forallb (canEmit w collisionstart)
          (startEdges (collisions s) (collisions (sys mb))) = true.
Proof.
  intros w s mb B. apply forallb_forall. intros [c1 c2] Hin.
  unfold startEdges in Hin. apply filter_In in Hin. destruct Hin as [Hin _].
  destruct (build_wfGraph w (swapped (mkMachine s [])) wfGraph_nil) as [W _].
  rewrite B in W. simpl in W.
  apply (edgesOf_hasCollided _ _ _ (proj1 W)) in Hin.
  assert (O : overlapping (w c1) (w c2) = true).
  { apply (build_sound w (mkMachine s [])). rewrite B. assumption. }
  apply overlapping_attached in O. destruct O as [A1 A2].
  destruct (emission_attached w collisionstart c1 c2 A1 A2) as [ev E].
  unfold canEmit. simpl. rewrite E. reflexivity.
Qed.

(** X9. A tick completes when every candidate pair that is not skipped has
    a shape test and both behaviours of every edge of the previous graph
    are still attached to their entities. *)
Theorem tick_completes_when_attached : forall w s,
  shapesKnown w s = true ->
  edgesAttached w (collisions s) = true ->
  exists m', tick w (mkMachine s []) = Done m'.
Proof.
  intros w s K A.
  destruct (loop_completes w (candidates w s) (swapped (mkMachine s [])) K) as [mb B].
  assert (Bd : buildGraph w (swapped (mkMachine s [])) = Done mb).
  { rewrite buildGraph_candidates. exact B. }
  apply (tick_completes w (mkMachine s []) mb Bd).
  - apply (start_edges_can_emit w s mb Bd).
  - simpl. apply forallb_forall. intros [c1 c2] Hin.
    unfold endEdges in Hin. apply filter_In in Hin. destruct Hin as [Hin _].
    unfold edgesAttached in A. rewrite forallb_forall in A.
    specialize (A _ Hin). simpl in A. apply andb_true_iff in A.
    destruct A as [A1 A2]. apply negb_true_iff in A1, A2.
    destruct (emission_attached w collisionend c1 c2 A1 A2) as [ev E].
    unfold canEmit. simpl. rewrite E. reflexivity.
Qed.

Lemma tick_completes_when_attached_witness :
  shapesKnown Scenes.gone Scenes.afterLeaving = true
  /\ edgesAttached Scenes.gone (collisions Scenes.afterLeaving) = true
  /\ exists m', tick Scenes.gone (mkMachine Scenes.afterLeaving []) = Done m'.
Proof.
  assert (K : shapesKnown Scenes.gone Scenes.afterLeaving = true)
    by (vm_compute; reflexivity).
  assert (A : edgesAttached Scenes.gone (collisions Scenes.afterLeaving) = true)
    by (vm_compute; reflexivity).
  split; [exact K|]. split; [exact A|].
  exact (tick_completes_when_attached Scenes.gone Scenes.afterLeaving K A).
Defined.

Lemma emitAll_throws : forall w name edges p m,
  In p edges -> canEmit w name p = false ->
  exists m', emitAll w name edges m = Raised TypeError m'.
Proof.
  intros w name edges p. unfold emitAll.
  induction edges as [|q r IH]; intros m Hin C; [contradiction|].
  simpl. unfold emitEvent at 1.
  destruct (emission w name (fst q) (snd q)) as [ev|] eqn:E.
  - destruct Hin as [->|Hin].
    + unfold canEmit in C. rewrite E in C. discriminate.
    + apply IH; assumption.
  - eexists. reflexivity.
Qed.

(** Every event a tick emits, whatever its outcome, is what [emitEvent]
    emits for some pair. *)
Lemma tick_log_emissions : forall w m,
  exists evs,
    emitted (machineOf (tick w m)) = emitted m ++ evs
    /\ forall ev, In ev evs ->
         exists name p, emission w name (fst p) (snd p) = Some ev.
Proof.
  intros w m. rewrite tick_unfold.
  destruct (build_wfGraph w (swapped m) wfGraph_nil) as [W F].
  destruct (buildGraph w (swapped m)) as [mb|e mb] eqn:B; simpl in *.
  - assert (Em : emitted mb = emitted m) by apply F.
    unfold seq. rewrite startDiff_emitAll by apply W.
    pose proof (emitAll_log w collisionstart
                  (startEdges (prevCollisions (sys mb)) (collisions (sys mb)))
                  (mkMachine (setNewCollisions [] (sys mb)) (emitted mb))) as L1.
    simpl in L1. destruct L1 as [S1 [evs1 [L1 H1]]].
    destruct (emitAll w collisionstart _ _) as [m1|e1 m1]; simpl in *.
    + rewrite endDiff_emitAll.
      pose proof (emitAll_log w collisionend
                    (endEdges (prevCollisions (sys m1)) (collisions (sys m1))) m1) as L2.
      simpl in L2. destruct L2 as [S2 [evs2 [L2 H2]]].
      exists (evs1 ++ evs2). split.
      * rewrite L2, L1, Em, app_assoc. reflexivity.
      * intros ev Hin. apply in_app_or in Hin. destruct Hin as [Hin|Hin].
        -- destruct (H1 ev Hin) as [p [_ E]]. exists collisionstart, p. assumption.
        -- destruct (H2 ev Hin) as [p [_ E]]. exists collisionend, p. assumption.
    + exists evs1. split.
      * rewrite L1, Em. reflexivity.
      * intros ev Hin. destruct (H1 ev Hin) as [p [_ E]].
        exists collisionstart, p. assumption.
  - exists []. split.
    + rewrite app_nil_r. apply F.
    + intros ev [].
Qed.

(** The candidate loop of a tick throws at the first pair that is not
    skipped and has no shape test, when there is one. *)
Lemma tick_throws_for_unknown_shape : forall w s,
  shapesKnown w s = false ->
  exists a b m',
    skipped (w a) (w b) = false
    /\ lookupMethod (methName (w a) (w b)) = None
    /\ tick w (mkMachine s [])
       = Raised (InvalidShapes (shape (data (w a))) (shape (data (w b)))) m'.
Proof.
  intros w s K.
  assert (X : exists p, In p (candidates w s)
                        /\ skipped (w (fst p)) (w (snd p)) = false
                        /\ lookupMethod (methName (w (fst p)) (w (snd p))) = None).
  { unfold shapesKnown in K. induction (candidates w s) as [|p r IH]; [discriminate|].
    simpl in K. apply andb_false_iff in K. destruct K as [K|K].
    - exists p. apply orb_false_iff in K. destruct K as [S L].
      destruct (lookupMethod (methName (w (fst p)) (w (snd p)))); [discriminate|].
      split; [left; reflexivity | auto].
    - destruct (IH K) as [q [Hin H]]. exists q. split; [right; assumption | exact H]. }
  destruct (loop_first_unknown_shape w (candidates w s) (swapped (mkMachine s [])) X)
    as [pre [a [b [post [m' [_ [Sa [La [_ Hx]]]]]]]]].
  exists a, b, m'. split; [assumption|]. split; [assumption|].
  rewrite tick_unfold, buildGraph_candidates.
  change (candidates w (sys (swapped (mkMachine s [])))) with (candidates w s).
  rewrite Hx. reflexivity.
Qed.

(** X10. A tick never completes when the previous graph holds an edge
    whose first behaviour is no longer attached to its entity: the edge is
    not recorded again, and emitting its [collisionend] reads the missing
    behaviour. The tick throws, and no event at all is emitted for the
    edge, its [collisionend] included. What it throws is a [TypeError],
    from the end pass, when the candidate loop completes, that is when
    every pair it meets is skipped or has a shape test; when a pair it
    meets is not skipped and has no shape test, the loop throws for those
    shapes before the end pass is reached. *)
Theorem tick_throws_for_detached_behaviour : forall w s c1 c2,
  hasCollided c1 c2 (collisions s) = true ->
  behaviourMissing (w c1) = true ->
  (exists e m', tick w (mkMachine s []) = Raised e m')
  /\ (forall name,
        countEvents name c1 c2 (emitted (machineOf (tick w (mkMachine s [])))) = 0)
  /\ (shapesKnown w s = true ->
      exists m', tick w (mkMachine s []) = Raised TypeError m')
  /\ (shapesKnown w s = false ->
      exists a b m',
        skipped (w a) (w b) = false
        /\ lookupMethod (methName (w a) (w b)) = None
        /\ tick w (mkMachine s [])
           = Raised (InvalidShapes (shape (data (w a))) (shape (data (w b)))) m').
Proof.
  intros w s c1 c2 Hp Miss.
  assert (NotRecorded : forall mb,
            buildGraph w (swapped (mkMachine s [])) = Done mb ->
            hasCollided c1 c2 (collisions (sys mb)) = false).
  { intros mb Bd. destruct (hasCollided c1 c2 (collisions (sys mb))) eqn:Hc; [|reflexivity].
    assert (O : overlapping (w c1) (w c2) = true).
    { apply (build_sound w (mkMachine s [])). rewrite Bd. assumption. }
    apply overlapping_attached in O. destruct O. congruence. }
  assert (Cannot : canEmit w collisionend (c1, c2) = false).
  { unfold canEmit. simpl. rewrite (emission_detached w collisionend c1 c2 Miss).
    reflexivity. }
  split; [|split; [|split]]; [| | |apply tick_throws_for_unknown_shape].
  - destruct (tick w (mkMachine s [])) as [m'|e m'] eqn:T; [|eauto].
    exfalso. apply tick_Done in T.
    destruct T as [mb [Bd [_ [_ [_ [_ [CE _]]]]]]]. simpl in CE.
    rewrite forallb_forall in CE.
    assert (Hin : In (c1, c2) (endEdges (collisions s) (collisions (sys mb)))).
    { unfold endEdges. apply filter_In. split.
      - apply hasCollided_edgesOf. assumption.
      - simpl. rewrite (NotRecorded mb Bd). reflexivity. }
    rewrite (CE _ Hin) in Cannot. discriminate.
  - intro name. destruct (tick_log_emissions w (mkMachine s [])) as [evs [L H]].
    simpl in L. rewrite L. apply countEvents_zero.
    intros ev Hin. destruct (isEvent name c1 c2 ev) eqn:I; [|reflexivity].
    exfalso. destruct (H ev Hin) as [name' [p E]].
    apply (isEvent_emission _ _ _ _ name c1 c2 E) in I. destruct I as [_ ->].
    simpl in E. rewrite (emission_detached w name' c1 c2 Miss) in E. discriminate.
  - intro K.
    destruct (loop_completes w (candidates w s) (swapped (mkMachine s [])) K) as [mb B].
    assert (Bd : buildGraph w (swapped (mkMachine s [])) = Done mb).
    { rewrite buildGraph_candidates. exact B. }
    destruct (build_wfGraph w (swapped (mkMachine s [])) wfGraph_nil) as [W F].
    rewrite Bd in W, F. simpl in W, F.
    assert (Pv : prevCollisions (sys mb) = collisions s) by apply F.
    rewrite tick_unfold, Bd. unfold seq.
    rewrite startDiff_emitAll by apply W. rewrite Pv.
    rewrite (emitAll_can _ _ _ _ (start_edges_can_emit w s mb Bd)).
    rewrite endDiff_emitAll. simpl. rewrite Pv.
    apply (emitAll_throws w collisionend _ (c1, c2)); [|assumption].
    unfold endEdges. apply filter_In. split.
    + apply hasCollided_edgesOf. assumption.
    + simpl. rewrite (NotRecorded mb Bd). reflexivity.
Qed.

Lemma tick_throws_for_detached_behaviour_witness :
  hasCollided 0 1 (collisions Scenes.afterTouch) = true
  /\ behaviourMissing (Scenes.detached 0) = true
  /\ shapesKnown Scenes.detached Scenes.afterTouch = true
  /\ (exists e m', tick Scenes.detached (mkMachine Scenes.afterTouch []) = Raised e m')
  /\ (forall name,
        countEvents name 0 1
          (emitted (machineOf (tick Scenes.detached (mkMachine Scenes.afterTouch []))))
        = 0)
  /\ exists m', tick Scenes.detached (mkMachine Scenes.afterTouch []) = Raised TypeError m'.
Proof.
  assert (Hp : hasCollided 0 1 (collisions Scenes.afterTouch) = true)
    by (vm_compute; reflexivity).
  assert (Miss : behaviourMissing (Scenes.detached 0) = true) by reflexivity.
  assert (K : shapesKnown Scenes.detached Scenes.afterTouch = true)
    by (vm_compute; reflexivity).
  split; [exact Hp|]. split; [exact Miss|]. split; [exact K|].
  split; [|split].
  - exact (proj1 (tick_throws_for_detached_behaviour
                    Scenes.detached Scenes.afterTouch 0 1 Hp Miss)).
  - exact (proj1 (proj2 (tick_throws_for_detached_behaviour
                           Scenes.detached Scenes.afterTouch 0 1 Hp Miss))).
  - exact (proj1 (proj2 (proj2 (tick_throws_for_detached_behaviour
                                  Scenes.detached Scenes.afterTouch 0 1 Hp Miss))) K).
Defined.

(** ** The registry *)

Lemma addCollider_applyCall : forall c l m,
  addCollider c l m = Done (mkMachine (applyCall (sys m) (CallAdd c l)) (emitted m)).
Proof.
  intros c l [s evs]. rewrite applyCall_add. unfold addCollider, JsMap.has. simpl.
  destruct (JsMap.get String.eqb l (layers s)) as [b|] eqn:G; simpl.
  - rewrite G. reflexivity.
  - rewrite (map_get_set_same String.eqb_eq). simpl.
    unfold setLayers, setColliders. simpl.
    rewrite (map_set_set String.eqb_eq). reflexivity.
Qed.

Lemma removeCollider_applyCall : forall c l m b,
  JsMap.get String.eqb l (layers (sys m)) = Some b ->
  removeCollider c l m
  = Done (mkMachine (applyCall (sys m) (CallRemove c l)) (emitted m)).
Proof.
  intros c l [s evs] b G. rewrite applyCall_remove. unfold removeCollider.
  simpl in *. rewrite G. reflexivity.
Qed.

(** X11. [addCollider(c, layer)] never throws. Afterwards [c] is in the
    bucket of [layer] and in the flat set, every other membership is as it
    was, the collision graphs are untouched, and a second identical call
    changes nothing. *)
Theorem addCollider_registers : forall c l m,
  exists m',
    addCollider c l m = Done m'
    /\ (forall c' l', inBucket c' l' (sys m') = true
                      <-> (l' = l /\ c' = c) \/ inBucket c' l' (sys m) = true)
    /\ (forall c', In c' (colliders (sys m')) <-> c' = c \/ In c' (colliders (sys m)))
    /\ collisions (sys m') = collisions (sys m)
    /\ prevCollisions (sys m') = prevCollisions (sys m)
    /\ emitted m' = emitted m
    /\ addCollider c l m' = Done m'.
Proof.
  intros c l m. rewrite addCollider_applyCall. eexists. split; [reflexivity|].
  simpl. split; [|split; [|split; [|split; [|split]]]].
  - intros c' l'. apply add_inBucket.
  - intro c'. apply add_colliders.
  - apply applyCall_collisions.
  - rewrite applyCall_add. reflexivity.
  - reflexivity.
  - rewrite addCollider_applyCall. simpl. f_equal. f_equal.
    rewrite (applyCall_add (applyCall (sys m) (CallAdd c l))).
    rewrite applyCall_add. simpl.
    rewrite (map_get_set_same String.eqb_eq).
    assert (A : forall xs, JsSet.add Nat.eqb c (JsSet.add Nat.eqb c xs)
                           = JsSet.add Nat.eqb c xs).
    { intro xs. apply set_add_present. rewrite (set_has_add Nat.eqb_eq).
      rewrite Nat.eqb_refl. reflexivity. }
    rewrite !A. unfold setColliders, setLayers. simpl.
    rewrite (map_set_set String.eqb_eq). reflexivity.
Qed.

Lemma set_delete_add_absent : forall c (b : list ColliderId),
  ~ In c b -> JsSet.delete Nat.eqb c (JsSet.add Nat.eqb c b) = b.
Proof.
  intros c b. induction b as [|y r IH]; simpl; intro N.
  - rewrite Nat.eqb_refl. reflexivity.
  - destruct (Nat.eqb c y) eqn:E.
    + apply Nat.eqb_eq in E. subst. exfalso. apply N. left. reflexivity.
    + simpl. rewrite E. simpl. rewrite IH; [reflexivity|]. tauto.
Qed.

Lemma map_set_absent_appends : forall (l : string) (v : list ColliderId) m,
  JsMap.get String.eqb l m = None -> JsMap.set String.eqb l v m = m ++ [(l, v)].
Proof.
  intros l v m. induction m as [|[k b] r IH]; simpl; intro G; [reflexivity|].
  destruct (String.eqb l k); [discriminate|]. rewrite IH; auto.
Qed.

(** X12. Registering a collider that is not registered and removing it
    again from the same layer gives back the registry as it was, except
    that a bucket created for the layer stays, empty, at the end of the
    layer map. *)
Theorem add_then_remove_restores : forall c l m,
  ~ In c (colliders (sys m)) ->
  inBucket c l (sys m) = false ->
  (addCollider c l >> removeCollider c l) m
  = Done (mkMachine
            (if hasBucket l (sys m) then sys m
             else setLayers (layers (sys m) ++ [(l, [])]) (sys m))
            (emitted m)).
Proof.
  intros c l [s evs] Nc Nb. unfold seq. rewrite addCollider_applyCall.
  simpl in *. unfold inBucket in Nb. unfold hasBucket, JsMap.has.
  assert (Dc : JsSet.delete Nat.eqb c (JsSet.add Nat.eqb c (colliders s)) = colliders s)
    by (apply set_delete_add_absent; assumption).
  destruct (JsMap.get String.eqb l (layers s)) as [b|] eqn:G.
  - apply (set_has_false Nat.eqb_eq) in Nb.
    erewrite removeCollider_applyCall;
      [|simpl; rewrite applyCall_add; simpl; apply (map_get_set_same String.eqb_eq)].
    simpl. rewrite applyCall_remove, applyCall_add. simpl.
    rewrite (map_get_set_same String.eqb_eq), G.
    rewrite (set_delete_add_absent c b Nb), Dc.
    unfold setColliders, setLayers. simpl.
    unfold ColliderId in *.
    rewrite (map_set_set String.eqb_eq), (map_set_get_id _ _ _ G).
    destruct s; reflexivity.
  - erewrite removeCollider_applyCall;
      [|simpl; rewrite applyCall_add; simpl; apply (map_get_set_same String.eqb_eq)].
    simpl. rewrite applyCall_remove, applyCall_add. simpl.
    rewrite (map_get_set_same String.eqb_eq), G. simpl.
    rewrite Nat.eqb_refl. simpl. rewrite Dc.
    unfold setColliders, setLayers. simpl.
    unfold ColliderId in *.
    rewrite (map_set_set String.eqb_eq), (map_set_absent_appends _ _ _ G).
    reflexivity.
Qed.

Lemma add_then_remove_restores_witness :
  ~ In 2 (colliders Scenes.registered)
  /\ inBucket 2 "c"%string Scenes.registered = false
  /\ (addCollider 2 "c"%string >> removeCollider 2 "c"%string)
       (mkMachine Scenes.registered [])
     = Done (mkMachine
               (if hasBucket "c"%string Scenes.registered then Scenes.registered
                else setLayers (layers Scenes.registered ++ [("c"%string, [])])
                               Scenes.registered)
               []).
Proof.
  assert (Nc : ~ In 2 (colliders Scenes.registered))
    by (vm_compute; intuition discriminate).
  assert (Nb : inBucket 2 "c"%string Scenes.registered = false) by reflexivity.
  split; [exact Nc|]. split; [exact Nb|].
  exact (add_then_remove_restores 2 "c"%string (mkMachine Scenes.registered []) Nc Nb).
Defined.

Lemma applyCall_keeps_bucket : forall s call l,
  hasBucket l s = true -> hasBucket l (applyCall s call) = true.
Proof.
  intros s call l H. unfold hasBucket, JsMap.has in *.
  assert (K : forall l0 v, match JsMap.get String.eqb l
                                   (JsMap.set String.eqb l0 v (layers s)) with
                           | Some _ => true
                           | None => false
                           end = true).
  { intros l0 v. destruct (String.eqb l0 l) eqn:E.
    - apply String.eqb_eq in E. subst. rewrite (map_get_set_same String.eqb_eq).
      reflexivity.
    - apply String.eqb_neq in E.
      rewrite (map_get_set_other String.eqb_eq) by assumption. assumption. }
  destruct call as [c l0|c l0].
  - rewrite applyCall_add. simpl. apply K.
  - rewrite applyCall_remove.
    destruct (JsMap.get String.eqb l0 (layers s)); [simpl; apply K | assumption].
Qed.

(** X13. Buckets are never deleted: once a collider has been added on a
    layer, whatever registry calls follow, [removeCollider] on that layer
    does not throw, for any collider. *)
Theorem removeCollider_safe_after_add : forall s c0 l cs c evs,
  exists s',
    removeCollider c l (mkMachine (applyCalls cs (applyCall s (CallAdd c0 l))) evs)
    = Done (mkMachine s' evs).
Proof.
  intros s c0 l cs c evs.
  assert (H0 : hasBucket l (applyCall s (CallAdd c0 l)) = true).
  { unfold hasBucket, JsMap.has. rewrite applyCall_add. simpl.
    rewrite (map_get_set_same String.eqb_eq). reflexivity. }
  assert (H : hasBucket l (applyCalls cs (applyCall s (CallAdd c0 l))) = true).
  { revert H0. generalize (applyCall s (CallAdd c0 l)). unfold applyCalls.
    induction cs as [|call r IH]; intros s0 H0; simpl; [assumption|].
    apply IH. apply applyCall_keeps_bucket. assumption. }
  unfold hasBucket, JsMap.has in H.
  destruct (JsMap.get String.eqb l
              (layers (applyCalls cs (applyCall s (CallAdd c0 l))))) as [b|] eqn:G;
    [|discriminate].
  rewrite (removeCollider_applyCall c l
             (mkMachine (applyCalls cs (applyCall s (CallAdd c0 l))) evs) b G).
  eexists. reflexivity.
Qed.

(** ** The lifecycle of the collider behaviour *)

Lemma removeCollider_cases : forall c l m,
  (JsMap.get String.eqb l (layers (sys m)) = None
   /\ removeCollider c l m = Raised TypeError m)
  \/ (exists b, JsMap.get String.eqb l (layers (sys m)) = Some b
                /\ removeCollider c l m
                   = Done (mkMachine (applyCall (sys m) (CallRemove c l)) (emitted m))).
Proof.
  intros c l m. destruct (JsMap.get String.eqb l (layers (sys m))) as [b|] eqn:G.
  - right. exists b. split; [reflexivity|]. apply (removeCollider_applyCall c l m b G).
  - left. split; [reflexivity|]. destruct m as [s evs]. apply removeCollider_no_bucket.
    assumption.
Qed.

Lemma coherentAt_other_add : forall s c l c' oi,
  c' <> c -> coherentAt s c' oi -> coherentAt (applyCall s (CallAdd c l)) c' oi.
Proof.
  intros s c l c' oi N H. unfold coherentAt in *.
  assert (K : ~ In c' (colliders s) -> ~ In c' (colliders (applyCall s (CallAdd c l)))).
  { intros Hn Hin. apply add_colliders in Hin. destruct Hin; [contradiction | auto]. }
  destruct oi as [i|]; [|auto].
  destruct (registered i); [|auto]. apply add_inBucket. right. assumption.
Qed.

Lemma coherentAt_other_remove : forall s c l c' oi,
  c' <> c -> coherentAt s c' oi -> coherentAt (applyCall s (CallRemove c l)) c' oi.
Proof.
  intros s c l c' oi N H.
  destruct (JsMap.get String.eqb l (layers s)) as [b|] eqn:G.
  - unfold coherentAt in *.
    assert (K : ~ In c' (colliders s) ->
                ~ In c' (colliders (applyCall s (CallRemove c l)))).
    { intros Hn Hin. apply (remove_colliders _ _ _ _ _ G) in Hin. destruct Hin. auto. }
    destruct oi as [i|]; [|auto].
    destruct (registered i); [|auto].
    apply (remove_inBucket _ _ _ _ _ _ G). split; [assumption|].
    intros [_ E]. contradiction.
  - rewrite applyCall_remove, G. assumption.
Qed.

Lemma coherentBut_add : forall c s ins l,
  coherentBut c s ins -> keepsOneLayer s (CallAdd c l) = true ->
  coherentBut c (applyCall s (CallAdd c l)) ins
  /\ inBucket c l (applyCall s (CallAdd c l)) = true.
Proof.
  intros c s ins l [R [U O]] K.
  destruct (applyCall_one_layer s (CallAdd c l) R U K) as [R' U'].
  split; [split; [assumption | split; [assumption|]]|].
  - intros c' N. apply coherentAt_other_add; auto.
  - apply add_inBucket. left. auto.
Qed.

Lemma coherentBut_remove : forall c s ins l,
  coherentBut c s ins -> keepsOneLayer s (CallRemove c l) = true ->
  coherentBut c (applyCall s (CallRemove c l)) ins
  /\ (hasBucket l s = true \/ ~ In c (colliders s) ->
      ~ In c (colliders (applyCall s (CallRemove c l)))).
Proof.
  intros c s ins l [R [U O]] K.
  destruct (applyCall_one_layer s (CallRemove c l) R U K) as [R' U'].
  split; [split; [assumption | split; [assumption|]]|].
  - intros c' N. apply coherentAt_other_remove; auto.
  - intros Why Hin. unfold hasBucket, JsMap.has in Why.
    destruct (JsMap.get String.eqb l (layers s)) as [b|] eqn:G.
    + apply (remove_colliders _ _ _ _ _ G) in Hin. destruct Hin as [_ X].
      apply X. reflexivity.
    + rewrite applyCall_remove, G in Hin. destruct Why; [discriminate | contradiction].
Qed.

Lemma coherent_but : forall st c,
  coherent st -> coherentBut c (registry st) (instances st).
Proof. intros st c [R [U A]]. split; [|split]; auto. Qed.

Lemma coherent_set : forall c s ins oi,
  coherentBut c s ins -> coherentAt s c oi ->
  coherent (mkStage s (setInstance c oi ins)).
Proof.
  intros c s ins oi [R [U O]] H. split; [|split]; simpl; try assumption.
  intro c'. unfold setInstance. destruct (Nat.eqb c' c) eqn:E.
  - apply Nat.eqb_eq in E. subst. assumption.
  - apply Nat.eqb_neq in E. auto.
Qed.

Lemma not_in_flat : forall s c,
  ~ In c (colliders s) -> negb (JsSet.has Nat.eqb c (colliders s)) = true.
Proof.
  intros s c H. apply negb_true_iff, (set_has_false Nat.eqb_eq). assumption.
Qed.

Lemma inBucket_hasBucket : forall c l s, inBucket c l s = true -> hasBucket l s = true.
Proof.
  intros c l s H. unfold inBucket, hasBucket, JsMap.has in *.
  destruct (JsMap.get String.eqb l (layers s)); [reflexivity | discriminate].
Qed.

(** What the registry says of [c] allows its behaviour to add it to its
    layer and to remove it from there. *)
Lemma coherentAt_allows : forall s c i,
  coherentAt s c (Some i) ->
  keepsOneLayer s (CallAdd c (layer (idata i))) = true
  /\ keepsOneLayer s (CallRemove c (layer (idata i))) = true.
Proof.
  intros s c i H. unfold coherentAt in H. simpl.
  destruct (registered i).
  - rewrite H. split; [apply orb_true_r | reflexivity].
  - rewrite (not_in_flat _ _ H). split; [reflexivity | apply orb_true_r].
Qed.

Lemma activate_coherent : forall p c st i,
  coherent st -> instances st c = Some i -> p <> "init"%string ->
  let r := Behaviour.activate p c i (mkMachine (registry st) []) in
  coherent (mkStage (sys (machineOf (snd r)))
                    (setInstance c (Some (fst r)) (instances st)))
  /\ exists m', snd r = Done m'.
Proof.
  intros p c st i C I Np. unfold Behaviour.activate.
  pose proof C as [_ [_ A]]. specialize (A c). rewrite I in A.
  destruct (String.eqb (policy i) p) eqn:E; simpl.
  - rewrite addCollider_applyCall. simpl. split; [|eexists; reflexivity].
    destruct (coherentBut_add c _ _ (layer (idata i)) (coherent_but st c C)
                (proj1 (coherentAt_allows _ _ _ A))) as [B Hb].
    apply coherent_set; [assumption|]. simpl. exact Hb.
  - split; [|eexists; reflexivity].
    apply coherent_set; [apply coherent_but; assumption | assumption].
Qed.

Lemma deactivate_coherent : forall p c st i,
  coherent st -> instances st c = Some i -> p <> "init"%string ->
  let r := Behaviour.deactivate p c i (mkMachine (registry st) []) in
  coherent (mkStage (sys (machineOf (snd r)))
                    (setInstance c (Some (fst r)) (instances st))).
Proof.
  intros p c st i C I Np. unfold Behaviour.deactivate.
  pose proof C as [_ [_ A]]. specialize (A c). rewrite I in A.
  destruct (String.eqb (policy i) p) eqn:E; simpl.
  - apply String.eqb_eq in E.
    destruct (removeCollider_cases c (layer (idata i)) (mkMachine (registry st) []))
      as [[G R]|[b [G R]]]; rewrite R; simpl.
    + apply coherent_set; [apply coherent_but; assumption | assumption].
    + destruct (coherentBut_remove c _ _ (layer (idata i)) (coherent_but st c C)
                  (proj2 (coherentAt_allows _ _ _ A))) as [B Hn].
      apply coherent_set; [assumption|]. unfold coherentAt, registered. simpl.
      replace (String.eqb (policy i) "init") with false.
      * apply Hn. left. unfold hasBucket, JsMap.has. simpl in G. rewrite G. reflexivity.
      * symmetry. apply String.eqb_neq. congruence.
  - apply coherent_set; [apply coherent_but; assumption | assumption].
Qed.

Lemma play_not_init : "play"%string <> "init"%string.
Proof. discriminate. Qed.

Lemma pool_not_init : "pool"%string <> "init"%string.
Proof. discriminate. Qed.

Lemma dispatch_coherent : forall st call,
  coherent st -> allowed st call = true -> coherent (dispatch st call).
Proof.
  intros st call C K. pose proof C as [_ [_ A]].
  destruct call as [c d p|c d p|c|c|c|c|c]; unfold dispatch, handlerOf;
    try (destruct (instances st c) as [i|] eqn:I; [|assumption]).
  - (* Attach *)
    simpl in K. specialize (A c).
    destruct (instances st c) as [i|] eqn:I; [discriminate|]. simpl in A.
    unfold Behaviour.update, Behaviour.init. simpl.
    destruct (String.eqb p "init") eqn:E; simpl.
    + rewrite addCollider_applyCall. simpl.
      destruct (coherentBut_add c _ _ (layer d) (coherent_but st c C)) as [B Hb].
      { simpl. rewrite (not_in_flat _ _ A). reflexivity. }
      apply coherent_set; [assumption|]. unfold coherentAt, registered. simpl.
      rewrite E. exact Hb.
    + apply coherent_set; [apply coherent_but; assumption|].
      unfold coherentAt, registered. simpl. rewrite E. assumption.
  - (* SetData *)
    simpl in K. rewrite I in K. apply String.eqb_eq in K. subst p.
    specialize (A c). rewrite I in A. unfold coherentAt in A.
    unfold Behaviour.update, Behaviour.layerChanged. simpl.
    fold (registered i).
    destruct (String.eqb (layer d) (layer (idata i))) eqn:E; simpl.
    + apply String.eqb_eq in E.
      apply coherent_set; [apply coherent_but; assumption|].
      unfold coherentAt, registered. simpl. fold (registered i). rewrite E. assumption.
    + destruct (registered i) eqn:Rg; simpl.
      * destruct (removeCollider_cases c (layer (idata i)) (mkMachine (registry st) []))
          as [[G R]|[b [G R]]]; rewrite R; simpl.
        { apply inBucket_hasBucket in A. unfold hasBucket, JsMap.has in A.
          simpl in G. rewrite G in A. discriminate. }
        rewrite addCollider_applyCall. simpl.
        destruct (coherentBut_remove c _ _ (layer (idata i)) (coherent_but st c C))
          as [B Hn].
        { simpl. rewrite A. reflexivity. }
        destruct (coherentBut_add c _ _ (layer d) B) as [B2 Hb].
        { simpl. rewrite not_in_flat; [reflexivity|].
          apply Hn. left. apply (inBucket_hasBucket c). assumption. }
        apply coherent_set; [assumption|]. unfold coherentAt, registered. simpl.
        fold (registered i). rewrite Rg. exact Hb.
      * apply coherent_set; [apply coherent_but; assumption|].
        unfold coherentAt, registered. simpl. fold (registered i). rewrite Rg.
        assumption.
  - (* Detach *)
    specialize (A c). rewrite I in A. unfold Behaviour.remove. simpl.
    destruct (removeCollider_cases c (layer (idata i)) (mkMachine (registry st) []))
      as [[G R]|[b [G R]]]; rewrite R; simpl.
    + apply coherent_set; [apply coherent_but; assumption|]. simpl.
      unfold coherentAt in A. destruct (registered i); [|assumption].
      apply inBucket_hasBucket in A. unfold hasBucket, JsMap.has in A.
      simpl in G. rewrite G in A. discriminate.
    + destruct (coherentBut_remove c _ _ (layer (idata i)) (coherent_but st c C)
                  (proj2 (coherentAt_allows _ _ _ A))) as [B Hn].
      apply coherent_set; [assumption|]. simpl.
      apply Hn. left. unfold hasBucket, JsMap.has. simpl in G. rewrite G. reflexivity.
  - apply (activate_coherent "play" c st i C I play_not_init).
  - apply (deactivate_coherent "play" c st i C I play_not_init).
  - apply (activate_coherent "pool" c st i C I pool_not_init).
  - apply (deactivate_coherent "pool" c st i C I pool_not_init).
Qed.

Lemma coherent_empty : coherent emptyStage.
Proof.
  split; [|split]; simpl.
  - intro c. split; [intros [] | intros [l [b [G _]]]; discriminate].
  - intros c l1 l2 H. discriminate.
  - intros c [].
Qed.

Lemma run_coherent : forall cs st,
  coherent st -> followsProtocol st cs = true -> coherent (fold_left dispatch cs st).
Proof.
  induction cs as [|call r IH]; intros st C K; simpl in *; [assumption|].
  apply andb_true_iff in K. destruct K as [K1 K2].
  apply IH; [apply dispatch_coherent|]; assumption.
Qed.

(** X14. Driven by the collider behaviours alone, attached once each and
    keeping their policy, the registry stays as the behaviours need it
    after every sequence of host calls, throwing handlers included: a
    collider is in the flat set exactly when it is in a bucket, it is in
    the flat set exactly when its behaviour is attached and registered
    (activated, or of policy [init]), and then it is in the bucket of its
    current layer and in no other. *)
Theorem lifecycle_keeps_registry : forall cs,
  followsProtocol emptyStage cs = true ->
  let st := fold_left dispatch cs emptyStage in
  registryInvariant (registry st)
  /\ forall c,
       (In c (colliders (registry st))
        <-> exists i, instances st c = Some i /\ registered i = true)
       /\ (forall i l, instances st c = Some i -> registered i = true ->
             (inBucket c l (registry st) = true <-> l = layer (idata i))).
Proof.
  intros cs K st.
  destruct (run_coherent cs emptyStage coherent_empty K) as [R [U A]].
  fold st in R, U, A. split; [assumption|]. intro c. specialize (A c). split.
  - unfold coherentAt in A. split.
    + intro Hin. destruct (instances st c) as [i|]; [|contradiction].
      exists i. split; [reflexivity|].
      destruct (registered i); [reflexivity | contradiction].
    + intros [i [I Rg]]. rewrite I, Rg in A.
      apply R, inSomeBucket_inBucket. exists (layer (idata i)). assumption.
  - intros i l I Rg. rewrite I in A. unfold coherentAt in A. rewrite Rg in A. split.
    + intro H. apply (U c); assumption.
    + intros ->. assumption.
Qed.

Lemma lifecycle_keeps_registry_witness :
  let st := fold_left dispatch exampleLifecycle emptyStage in
  followsProtocol emptyStage exampleLifecycle = true
  /\ registryInvariant (registry st)
  /\ forall c,
       (In c (colliders (registry st))
        <-> exists i, instances st c = Some i /\ registered i = true)
       /\ (forall i l, instances st c = Some i -> registered i = true ->
             (inBucket c l (registry st) = true <-> l = layer (idata i))).
Proof.
  intro st.
  assert (K : followsProtocol emptyStage exampleLifecycle = true)
    by (vm_compute; reflexivity).
  split; [exact K|].
  exact (lifecycle_keeps_registry exampleLifecycle K).
Defined.

Lemma followsProtocol_app : forall cs st call,
  followsProtocol st (cs ++ [call]) = true ->
  followsProtocol st cs = true /\ allowed (fold_left dispatch cs st) call = true.
Proof.
  induction cs as [|x r IH]; intros st call K; simpl in *.
  - rewrite andb_true_r in K. split; [reflexivity | assumption].
  - apply andb_true_iff in K. destruct K as [K1 K2].
    destruct (IH _ _ K2) as [F A]. rewrite K1, F. split; [reflexivity | assumption].
Qed.

Lemma removeCollider_done_in_bucket : forall c l s,
  inBucket c l s = true ->
  removeCollider c l (mkMachine s [])
  = Done (mkMachine (applyCall s (CallRemove c l)) []).
Proof.
  intros c l s H.
  destruct (removeCollider_cases c l (mkMachine s [])) as [[G R]|[b [G R]]].
  - apply inBucket_hasBucket in H. unfold hasBucket, JsMap.has in H.
    simpl in G. rewrite G in H. discriminate.
  - exact R.
Qed.

(** X15. Under the same protocol [update], [play] and the ['pool-remove']
    handler never throw, and [remove], [pause] and the ['pool-return']
    handler do not throw for a behaviour that is registered (activated, or
    of policy [init]). *)
Theorem registered_behaviour_never_throws : forall cs call,
  followsProtocol emptyStage (cs ++ [call]) = true ->
  let st := fold_left dispatch cs emptyStage in
  match call with
  | Attach _ _ _ | SetData _ _ _ | Play _ | PoolRemove _ =>
      exists m, outcomeOf st call = Done m
  | Detach c | Pause c | PoolReturn c =>
      forall i, instances st c = Some i -> registered i = true ->
                exists m, outcomeOf st call = Done m
  end.
Proof.
  intros cs call K st. apply followsProtocol_app in K. destruct K as [F K].
  destruct (run_coherent cs emptyStage coherent_empty F) as [_ [_ A]].
  fold st in K, A.
  destruct call as [c d p|c d p|c|c|c|c|c]; unfold outcomeOf, handlerOf.
  - unfold Behaviour.update, Behaviour.init. simpl.
    destruct (String.eqb p "init"); simpl; [|eexists; reflexivity].
    rewrite addCollider_applyCall. eexists; reflexivity.
  - destruct (instances st c) as [i|] eqn:I; [|eexists; reflexivity].
    simpl in K. rewrite I in K. apply String.eqb_eq in K. subst p.
    specialize (A c). rewrite I in A. unfold coherentAt in A.
    unfold Behaviour.update, Behaviour.layerChanged. simpl. fold (registered i).
    destruct (negb (String.eqb (layer d) (layer (idata i))) && registered i) eqn:E;
      [|eexists; reflexivity].
    apply andb_true_iff in E. destruct E as [_ Rg]. rewrite Rg in A.
    rewrite (removeCollider_done_in_bucket _ _ _ A), addCollider_applyCall.
    eexists; reflexivity.
  - intros i I Rg. rewrite I. specialize (A c). rewrite I in A.
    unfold coherentAt in A. rewrite Rg in A. unfold Behaviour.remove. simpl.
    rewrite (removeCollider_done_in_bucket _ _ _ A). eexists; reflexivity.
  - destruct (instances st c) as [i|]; [|eexists; reflexivity].
    unfold Behaviour.play, Behaviour.activate.
    destruct (negb (String.eqb (policy i) "play")); [eexists; reflexivity|].
    rewrite addCollider_applyCall. eexists; reflexivity.
  - intros i I Rg. rewrite I. specialize (A c). rewrite I in A.
    unfold coherentAt in A. rewrite Rg in A.
    unfold Behaviour.pause, Behaviour.deactivate.
    destruct (negb (String.eqb (policy i) "play")); [eexists; reflexivity|].
    rewrite (removeCollider_done_in_bucket _ _ _ A). eexists; reflexivity.
  - destruct (instances st c) as [i|]; [|eexists; reflexivity].
    unfold Behaviour.pool_remove, Behaviour.activate.
    destruct (negb (String.eqb (policy i) "pool")); [eexists; reflexivity|].
    rewrite addCollider_applyCall. eexists; reflexivity.
  - intros i I Rg. rewrite I. specialize (A c). rewrite I in A.
    unfold coherentAt in A. rewrite Rg in A.
    unfold Behaviour.pool_return, Behaviour.deactivate.
    destruct (negb (String.eqb (policy i) "pool")); [eexists; reflexivity|].
    rewrite (removeCollider_done_in_bucket _ _ _ A). eexists; reflexivity.
Qed.

Lemma registered_behaviour_never_throws_witness :
  followsProtocol emptyStage
    ([Attach 1 (Scenes.sphereData "b" [] false false true) "play"; Play 1]
     ++ [Pause 1]) = true
  /\ forall i,
       instances (fold_left dispatch
                    [Attach 1 (Scenes.sphereData "b" [] false false true) "play"; Play 1]
                    emptyStage) 1 = Some i ->
       registered i = true ->
       exists m,
         outcomeOf (fold_left dispatch
                      [Attach 1 (Scenes.sphereData "b" [] false false true) "play";
                       Play 1]
                      emptyStage) (Pause 1) = Done m.
Proof.
  assert (K : followsProtocol emptyStage
                ([Attach 1 (Scenes.sphereData "b" [] false false true) "play"; Play 1]
                 ++ [Pause 1]) = true) by (vm_compute; reflexivity).
  split; [exact K|].
  exact (registered_behaviour_never_throws
           [Attach 1 (Scenes.sphereData "b" [] false false true) "play"; Play 1]
           (Pause 1) K).
Defined.

(** X16. When the layer of an attached behaviour has no bucket, because
    no collider was ever added on it, the behaviour is not registered and
    its [remove()] throws a [TypeError], leaving the registry as it was;
    [pause] and the ['pool-return'] handler throw the same for a behaviour
    of their policy. *)
Theorem remove_throws_on_unused_layer : forall cs c i,
  followsProtocol emptyStage cs = true ->
  let st := fold_left dispatch cs emptyStage in
  instances st c = Some i ->
  hasBucket (layer (idata i)) (registry st) = false ->
  outcomeOf st (Detach c) = Raised TypeError (mkMachine (registry st) [])
  /\ registry (dispatch st (Detach c)) = registry st
  /\ (policy i = "play"%string ->
      outcomeOf st (Pause c) = Raised TypeError (mkMachine (registry st) []))
  /\ (policy i = "pool"%string ->
      outcomeOf st (PoolReturn c) = Raised TypeError (mkMachine (registry st) []))
  /\ registered i = false.
Proof.
  intros cs c i K st I B.
  destruct (run_coherent cs emptyStage coherent_empty K) as [_ [_ A]].
  fold st in A. specialize (A c). rewrite I in A. unfold coherentAt in A.
  assert (G : JsMap.get String.eqb (layer (idata i)) (layers (registry st)) = None).
  { unfold hasBucket, JsMap.has in B.
    destruct (JsMap.get String.eqb (layer (idata i)) (layers (registry st)));
      [discriminate | reflexivity]. }
  pose proof (removeCollider_no_bucket c _ _ [] G) as R.
  unfold outcomeOf, dispatch, handlerOf. rewrite I.
  unfold Behaviour.remove, Behaviour.pause, Behaviour.pool_return, Behaviour.deactivate.
  simpl. rewrite R. simpl.
  split; [reflexivity|]. split; [reflexivity|].
  split; [intros ->; reflexivity|]. split; [intros ->; reflexivity|].
  destruct (registered i); [|reflexivity].
  apply inBucket_hasBucket in A. rewrite A in B. discriminate.
Qed.

Lemma remove_throws_on_unused_layer_witness :
  outcomeOf (fold_left dispatch
               [Attach 1 (Scenes.sphereData "b" [] false false true) "play"]
               emptyStage) (Detach 1)
  = Raised TypeError (mkMachine init []).
Proof.
  assert (K : followsProtocol emptyStage
                [Attach 1 (Scenes.sphereData "b" [] false false true) "play"] = true)
    by (vm_compute; reflexivity).
  exact (proj1 (remove_throws_on_unused_layer
                  [Attach 1 (Scenes.sphereData "b" [] false false true) "play"]
                  1 (mkInstance false (Scenes.sphereData "b" [] false false true) "play")
                  K eq_refl eq_refl)).
Defined.

Lemma set_add_absent_appends : forall c (s : list ColliderId),
  ~ In c s -> JsSet.add Nat.eqb c s = s ++ [c].
Proof.
  intros c s. induction s as [|y r IH]; simpl; intro N; [reflexivity|].
  destruct (Nat.eqb c y) eqn:E.
  - apply Nat.eqb_eq in E. subst. exfalso. apply N. left. reflexivity.
  - rewrite IH; [reflexivity|]. tauto.
Qed.

(** X17. When [update] sees a new layer on a registered behaviour, the
    collider leaves the bucket of its old layer, enters the bucket of the
    new one, and moves to the end of the flat set, so that the tick visits
    it last from then on. *)
Theorem layer_change_moves_to_end : forall cs c d i,
  followsProtocol emptyStage cs = true ->
  let st := fold_left dispatch cs emptyStage in
  instances st c = Some i ->
  registered i = true ->
  layer d <> layer (idata i) ->
  let st' := dispatch st (SetData c d (policy i)) in
  colliders (registry st')
  = JsSet.delete Nat.eqb c (colliders (registry st)) ++ [c]
  /\ inBucket c (layer d) (registry st') = true
  /\ inBucket c (layer (idata i)) (registry st') = false.
Proof.
  intros cs c d i K st I Rg N st'.
  pose proof (run_coherent cs emptyStage coherent_empty K) as C. fold st in C.
  assert (C' : coherent st').
  { apply dispatch_coherent; [assumption|]. simpl. rewrite I. apply String.eqb_refl. }
  destruct C as [_ [_ A]]. specialize (A c). rewrite I in A.
  unfold coherentAt in A. rewrite Rg in A.
  assert (E : registry st'
              = applyCall (applyCall (registry st) (CallRemove c (layer (idata i))))
                          (CallAdd c (layer d))).
  { unfold st', dispatch, handlerOf. rewrite I.
    unfold Behaviour.update, Behaviour.layerChanged. simpl. fold (registered i).
    rewrite Rg. replace (String.eqb (layer d) (layer (idata i))) with false
      by (symmetry; apply String.eqb_neq; assumption).
    simpl. rewrite (removeCollider_done_in_bucket _ _ _ A), addCollider_applyCall.
    reflexivity. }
  assert (B : inBucket c (layer d) (registry st') = true).
  { rewrite E. apply add_inBucket. left. auto. }
  split; [|split; [exact B|]].
  - rewrite E, applyCall_add, applyCall_remove.
    pose proof (inBucket_hasBucket _ _ _ A) as H. unfold hasBucket, JsMap.has in H.
    destruct (JsMap.get String.eqb (layer (idata i)) (layers (registry st)));
      [|discriminate].
    simpl. apply set_add_absent_appends. intro Hin.
    apply (set_In_delete Nat.eqb_eq) in Hin. destruct Hin as [_ X]. apply X. reflexivity.
  - destruct (inBucket c (layer (idata i)) (registry st')) eqn:O; [|reflexivity].
    destruct C' as [_ [U _]]. exfalso. apply N. apply (U c); assumption.
Qed.

Lemma layer_change_moves_to_end_witness :
  colliders (registry
    (dispatch
       (fold_left dispatch
          [Attach 0 (Scenes.sphereData "a" ["b"%string] false false true) "init";
           Attach 1 (Scenes.sphereData "b" [] false false true) "init"]
          emptyStage)
       (SetData 0 (Scenes.sphereData "c" ["b"%string] false false true) "init")))
  = [1; 0].
Proof.
  assert (K : followsProtocol emptyStage
                [Attach 0 (Scenes.sphereData "a" ["b"%string] false false true) "init";
                 Attach 1 (Scenes.sphereData "b" [] false false true) "init"] = true)
    by (vm_compute; reflexivity).
  assert (N : layer (Scenes.sphereData "c" ["b"%string] false false true)
              <> layer (idata (mkInstance false
                     (Scenes.sphereData "a" ["b"%string] false false true) "init")))
    by (simpl; discriminate).
  exact (proj1 (layer_change_moves_to_end
                  [Attach 0 (Scenes.sphereData "a" ["b"%string] false false true) "init";
                   Attach 1 (Scenes.sphereData "b" [] false false true) "init"]
                  0 (Scenes.sphereData "c" ["b"%string] false false true)
                  (mkInstance false
                     (Scenes.sphereData "a" ["b"%string] false false true) "init")
                  K eq_refl eq_refl N)).
Defined.

(** ** The states component *)

Lemma pop_snoc : forall (A : Type) (l : list A) (x : A),
  JsArray.pop (l ++ [x]) = Some (l, x).
Proof.
  intros A l x. induction l as [|y r IH]; simpl; [reflexivity|].
  rewrite IH. reflexivity.
Qed.

Lemma pop_empty : forall (A : Type) (l : list A), JsArray.pop l = None -> l = [].
Proof.
  intros A [|x r]; simpl; [reflexivity|].
  destruct (JsArray.pop r) as [[r' y]|]; discriminate.
Qed.

Lemma pop_last : forall (A : Type) (l rest : list A) (x : A),
  JsArray.pop l = Some (rest, x) -> l = rest ++ [x].
Proof.
  intros A l. induction l as [|y r IH]; simpl; intros rest x H; [discriminate|].
  destruct (JsArray.pop r) as [[r' z]|] eqn:P.
  - inversion H; subst. rewrite (IH _ _ eq_refl). reflexivity.
  - inversion H; subst. rewrite (pop_empty _ _ P). reflexivity.
Qed.

Lemma includes_known : forall l x,
  States.includes l x = true -> exists s, x = Some s /\ In s l.
Proof.
  intros l [s|] H; simpl in H; [|discriminate].
  exists s. split; [reflexivity|].
  apply existsb_exists in H. destruct H as [y [Hin E]].
  apply String.eqb_eq in E. subst. assumption.
Qed.

Lemma known_includes : forall l s, In s l -> States.includes l (Some s) = true.
Proof.
  intros l s H. simpl. apply existsb_exists. exists s.
  split; [assumption | apply String.eqb_refl].
Qed.

Lemma linked_snoc : forall log a b o t,
  States.linked a log b ->
  States.linked a (log ++ [States.mkChange o b t]) t.
Proof.
  induction log as [|ch r IH]; simpl; intros a b o t H.
  - subst. split; reflexivity.
  - destruct H as [H1 H2]. split; [assumption | apply IH; assumption].
Qed.

Lemma emitStateChange_invariant : forall l c stack to o,
  statesInvariant l c ->
  Forall (States.known l) stack ->
  statesInvariant l
    (States.after
       (States.emitStateChange
          (States.mkComponent (States.data_list c) (States.currentState c) stack
                              (States.emitted c))
          (States.currentState c) to o)).
Proof.
  intros l c stack to o [D [L [K [S E]]]] St. unfold States.emitStateChange. simpl.
  destruct (States.includes (States.data_list c) to) eqn:I; simpl.
  - rewrite D in I. destruct (includes_known _ _ I) as [s [-> Hin]].
    repeat split; simpl; try assumption.
    + apply linked_snoc. assumption.
    + apply Forall_app. split; [assumption|]. constructor; [|constructor].
      exists s. split; [reflexivity | assumption].
  - repeat split; simpl; assumption.
Qed.

Lemma invoke_invariant : forall l m c,
  statesInvariant l c -> statesInvariant l (States.after (States.invoke m c)).
Proof.
  intros l m c H. pose proof H as [D [L [K [S E]]]].
  destruct m as [s|s|s]; simpl.
  - unfold States.syncChain.
    replace c with (States.mkComponent (States.data_list c) (States.currentState c)
                      (States.callStack c) (States.emitted c)) at 1
      by (destruct c; reflexivity).
    apply emitStateChange_invariant; assumption.
  - unfold States.syncCall, States.callAndEmit.
    apply emitStateChange_invariant; [assumption|].
    unfold JsArray.push. apply Forall_app. split; [assumption|].
    constructor; [assumption | constructor].
  - unfold States.syncReturn, States.returnAndEmit.
    destruct (JsArray.pop (States.callStack c)) as [[rest old]|] eqn:P; simpl.
    + apply emitStateChange_invariant; [assumption|].
      apply pop_last in P. rewrite P in S. apply Forall_app in S. tauto.
    + assumption.
Qed.

Lemma run_invariant : forall l ms c,
  statesInvariant l c -> statesInvariant l (States.run ms c).
Proof.
  intros l ms. induction ms as [|m r IH]; intros c H; simpl; [assumption|].
  apply IH, invoke_invariant. assumption.
Qed.

(** X18. Whatever synchronous operations are run on a states component
    after [init()], failing ones included, its current state is
    [undefined] or a state of its list, every state on its call stack is
    the same, every event it emitted enters a state of the list, and the
    events form one path: the first leaves [undefined], each next one
    leaves the state the one before entered, and the last one entered the
    current state. *)
Theorem states_events_form_a_path : forall l ms,
  let c := States.run ms (States.init l) in
  States.linked None (States.emitted c) (States.currentState c)
  /\ States.known l (States.currentState c)
  /\ Forall (States.known l) (States.callStack c)
  /\ Forall (fun ch => exists s, States.toState ch = Some s /\ In s l)
            (States.emitted c).
Proof.
  intros l ms c.
  assert (H : statesInvariant l (States.init l)).
  { repeat split; simpl; auto. }
  apply (run_invariant l ms) in H. destruct H as [_ H]. exact H.
Qed.

Lemma invoke_data_list : forall m c,
  States.data_list (States.after (States.invoke m c)) = States.data_list c.
Proof.
  intros [s|s|s] c; simpl;
    unfold States.syncChain, States.syncCall, States.syncReturn,
           States.callAndEmit, States.returnAndEmit, States.emitStateChange; simpl.
  - destruct (States.includes (States.data_list c) s); reflexivity.
  - destruct (States.includes (States.data_list c) s); reflexivity.
  - destruct (JsArray.pop (States.callStack c)) as [[rest old]|]; [|reflexivity].
    simpl. destruct (States.includes (States.data_list c) (States.orElse s old));
      reflexivity.
Qed.

Lemma run_data_list : forall ms c,
  States.data_list (States.run ms c) = States.data_list c.
Proof.
  induction ms as [|m r IH]; intro c; simpl; [reflexivity|].
  unfold States.run in IH. rewrite IH. apply invoke_data_list.
Qed.

Lemma emitStateChange_stack : forall c from to o,
  States.callStack (States.after (States.emitStateChange c from to o))
  = States.callStack c.
Proof.
  intros c from to o. unfold States.emitStateChange.
  destruct (negb (States.includes (States.data_list c) to)); reflexivity.
Qed.

(** The depth of the call stack follows the calls and returns alone. *)
Lemma balancedFrom_stack : forall ms d c base top,
  States.balancedFrom d ms = true ->
  States.callStack c = base ++ top ->
  List.length top = d ->
  States.callStack (States.run ms c) = base.
Proof.
  induction ms as [|m r IH]; intros d c base top B St Ln; simpl in *.
  - apply Nat.eqb_eq in B. subst d. destruct top; [|discriminate].
    rewrite app_nil_r in St. assumption.
  - destruct m as [s|s|s].
    + apply (IH d _ base top B); [|assumption].
      simpl. unfold States.syncChain. rewrite emitStateChange_stack. assumption.
    + apply (IH (S d) _ base (top ++ [States.currentState c]) B).
      * simpl. unfold States.syncCall, States.callAndEmit.
        rewrite emitStateChange_stack. simpl. unfold JsArray.push.
        rewrite St, app_assoc. reflexivity.
      * rewrite length_app. simpl. lia.
    + destruct d as [|d']; [discriminate|].
      destruct (exists_last (l:=top)) as [top' [x Et]];
        [intro E; subst; discriminate|].
      subst top. rewrite length_app in Ln. simpl in Ln.
      apply (IH d' _ base top' B); [|lia].
      simpl. unfold States.syncReturn, States.returnAndEmit.
      rewrite St, app_assoc, pop_snoc. rewrite emitStateChange_stack. reflexivity.
Qed.

Lemma run_app : forall ms1 ms2 c,
  States.run (ms1 ++ ms2) c = States.run ms2 (States.run ms1 c).
Proof. intros. unfold States.run. apply fold_left_app. Qed.

(** X19. Calls and returns match like brackets, whether they fail or not:
    after [syncCall(s)], any operations whose calls and returns are
    balanced, and [syncReturn()] without a state, the call stack is the one
    the component had before the call. When the state that was current
    before the call is a state of the list, the component is back in it
    and the last event is the return into it. When it is not, as before
    any state was entered, where it is [undefined], the return throws for
    that state, emits nothing and leaves the state the operations in
    between left. *)
Theorem call_return_round_trip : forall c s ms,
  States.balanced ms = true ->
  let c2 := States.run (States.SyncCall s :: ms) c in
  let c' := States.run (States.SyncCall s :: ms ++ [States.SyncReturn None]) c in
  States.callStack c' = States.callStack c
  /\ (States.includes (States.data_list c) (States.currentState c) = true ->
      States.currentState c' = States.currentState c
      /\ States.emitted c'
         = States.emitted c2
           ++ [States.mkChange States.return_ (States.currentState c2)
                               (States.currentState c)])
  /\ (States.includes (States.data_list c) (States.currentState c) = false ->
      States.syncReturn None c2
      = States.Threw (States.StateNotDefined (States.currentState c)) c'
      /\ States.currentState c' = States.currentState c2
      /\ States.emitted c' = States.emitted c2).
Proof.
  intros c s ms B c2 c'.
  set (c1 := States.after (States.invoke (States.SyncCall s) c)).
  assert (E2 : c2 = States.run ms c1) by reflexivity.
  assert (E : c' = States.after (States.syncReturn None c2)).
  { unfold c', c2. change (States.SyncCall s :: ms ++ [States.SyncReturn None])
      with ((States.SyncCall s :: ms) ++ [States.SyncReturn None]).
    rewrite run_app. reflexivity. }
  assert (S1 : States.callStack c1 = States.callStack c ++ [States.currentState c]).
  { unfold c1. simpl. unfold States.syncCall, States.callAndEmit.
    rewrite emitStateChange_stack. reflexivity. }
  assert (S2 : States.callStack c2 = States.callStack c ++ [States.currentState c]).
  { rewrite <- S1, E2. apply (balancedFrom_stack ms 0 c1 _ []); auto.
    rewrite app_nil_r. reflexivity. }
  assert (D2 : States.data_list c2 = States.data_list c).
  { rewrite E2, run_data_list. unfold c1. apply invoke_data_list. }
  assert (R : States.syncReturn None c2
              = States.emitStateChange
                  (States.mkComponent (States.data_list c2) (States.currentState c2)
                     (States.callStack c) (States.emitted c2))
                  (States.currentState c2) (States.currentState c) States.return_).
  { unfold States.syncReturn, States.returnAndEmit. rewrite S2, pop_snoc.
    reflexivity. }
  rewrite E, R. unfold States.emitStateChange. simpl. rewrite D2.
  destruct (States.includes (States.data_list c) (States.currentState c)); simpl.
  - split; [reflexivity|]. split; [intros _; split; reflexivity | discriminate].
  - split; [reflexivity|]. split; [discriminate | intros _; repeat split].
Qed.

Lemma call_return_round_trip_witness :
  (States.currentState
     (States.run
        (States.SyncCall (Some "game"%string)
         :: [States.SyncCall (Some "pause"%string); States.SyncReturn None;
             States.SyncChain (Some "nowhere"%string)]
            ++ [States.SyncReturn None])
        (States.run [States.SyncChain (Some "menu"%string)]
           (States.init ["menu"; "game"; "pause"]%string)))
   = Some "menu"%string)
  /\ States.syncReturn None
       (States.run (States.SyncCall (Some "game"%string) :: [])
          (States.init ["menu"; "game"]%string))
     = States.Threw (States.StateNotDefined None)
         (States.mkComponent ["menu"; "game"]%string (Some "game"%string) []
            [States.mkChange States.call None (Some "game"%string)]).
Proof.
  split.
  - exact (proj1 (proj1 (proj2 (call_return_round_trip
                    (States.run [States.SyncChain (Some "menu"%string)]
                       (States.init ["menu"; "game"; "pause"]%string))
                    (Some "game"%string)
                    [States.SyncCall (Some "pause"%string); States.SyncReturn None;
                     States.SyncChain (Some "nowhere"%string)]
                    eq_refl)) eq_refl)).
  - exact (proj1 (proj2 (proj2 (call_return_round_trip
                    (States.init ["menu"; "game"]%string)
                    (Some "game"%string) [] eq_refl)) eq_refl)).
Defined.

(** X20. [syncCall] pushes the current state before it checks the target:
    a call to a state that is not in the list throws with the frame left
    on the call stack and no event. The [syncReturn()] that follows does
    not find the stack empty: it pops that frame and, when the current
    state is a state of the list, emits a return from the current state to
    itself; when it is not, as before any state was entered, it throws for
    the current state, and not for an empty call stack. *)
Theorem failed_call_keeps_its_frame : forall c s,
  States.includes (States.data_list c) s = false ->
  States.syncCall s c
  = States.Threw (States.StateNotDefined s)
      (States.mkComponent (States.data_list c) (States.currentState c)
         (States.callStack c ++ [States.currentState c]) (States.emitted c))
  /\ States.syncReturn None (States.after (States.syncCall s c))
     = (if States.includes (States.data_list c) (States.currentState c)
        then States.Ok
               (States.mkComponent (States.data_list c) (States.currentState c)
                  (States.callStack c)
                  (States.emitted c
                   ++ [States.mkChange States.return_ (States.currentState c)
                                       (States.currentState c)]))
        else States.Threw (States.StateNotDefined (States.currentState c))
               (States.mkComponent (States.data_list c) (States.currentState c)
                  (States.callStack c) (States.emitted c)))
  /\ forall c', States.syncReturn None (States.after (States.syncCall s c))
                <> States.Threw States.CallStackEmpty c'.
Proof.
  intros c s N.
  assert (E : States.syncCall s c
              = States.Threw (States.StateNotDefined s)
                  (States.mkComponent (States.data_list c) (States.currentState c)
                     (States.callStack c ++ [States.currentState c])
                     (States.emitted c))).
  { unfold States.syncCall, States.callAndEmit, States.emitStateChange. simpl.
    rewrite N. reflexivity. }
  assert (R : States.syncReturn None (States.after (States.syncCall s c))
              = (if States.includes (States.data_list c) (States.currentState c)
                 then States.Ok
                        (States.mkComponent (States.data_list c) (States.currentState c)
                           (States.callStack c)
                           (States.emitted c
                            ++ [States.mkChange States.return_ (States.currentState c)
                                                (States.currentState c)]))
                 else States.Threw (States.StateNotDefined (States.currentState c))
                        (States.mkComponent (States.data_list c) (States.currentState c)
                           (States.callStack c) (States.emitted c)))).
  { rewrite E. simpl. unfold States.syncReturn, States.returnAndEmit. simpl.
    rewrite pop_snoc. unfold States.emitStateChange. simpl.
    destruct (States.includes (States.data_list c) (States.currentState c));
      reflexivity. }
  split; [exact E|]. split; [exact R|].
  intro c'. rewrite R.
  destruct (States.includes (States.data_list c) (States.currentState c));
    discriminate.
Qed.

Lemma failed_call_keeps_its_frame_witness :
  (States.syncReturn None
     (States.after
        (States.syncCall (Some "nowhere"%string)
           (States.run [States.SyncChain (Some "menu"%string)]
              (States.init ["menu"; "game"]%string))))
   = States.Ok
       (States.mkComponent ["menu"; "game"]%string (Some "menu"%string) []
          [States.mkChange States.chain None (Some "menu"%string);
           States.mkChange States.return_ (Some "menu"%string) (Some "menu"%string)]))
  /\ States.syncReturn None
       (States.after
          (States.syncCall (Some "nowhere"%string)
             (States.init ["menu"; "game"]%string)))
     = States.Threw (States.StateNotDefined None)
         (States.mkComponent ["menu"; "game"]%string None [] []).
Proof.
  split.
  - exact (proj1 (proj2 (failed_call_keeps_its_frame
                    (States.run [States.SyncChain (Some "menu"%string)]
                       (States.init ["menu"; "game"]%string))
                    (Some "nowhere"%string) eq_refl))).
  - exact (proj1 (proj2 (failed_call_keeps_its_frame
                    (States.init ["menu"; "game"]%string)
                    (Some "nowhere"%string) eq_refl))).
Defined.

(** X21. [syncReturn] pops the call stack before it checks the target: a
    return whose target, the state given or else the state popped, is not
    in the list throws with the frame gone and no event, so that a second
    return takes the frame below, or finds the stack empty. *)
Theorem failed_return_loses_its_frame : forall c s rest old,
  States.callStack c = rest ++ [old] ->
  States.includes (States.data_list c) (States.orElse s old) = false ->
  States.syncReturn s c
  = States.Threw (States.StateNotDefined (States.orElse s old))
      (States.mkComponent (States.data_list c) (States.currentState c) rest
         (States.emitted c))
  /\ (rest = [] ->
      forall t, States.syncReturn t (States.after (States.syncReturn s c))
                = States.Threw States.CallStackEmpty
                    (States.after (States.syncReturn s c))).
Proof.
  intros c s rest old S N.
  assert (E : States.syncReturn s c
              = States.Threw (States.StateNotDefined (States.orElse s old))
                  (States.mkComponent (States.data_list c) (States.currentState c)
                     rest (States.emitted c))).
  { unfold States.syncReturn, States.returnAndEmit. rewrite S, pop_snoc.
    unfold States.emitStateChange. simpl. rewrite N. reflexivity. }
  split; [exact E|]. intros -> t. rewrite E. reflexivity.
Qed.

Lemma failed_return_loses_its_frame_witness :
  States.syncReturn (Some "nowhere"%string)
    (States.run [States.SyncChain (Some "menu"%string);
                 States.SyncCall (Some "game"%string)]
       (States.init ["menu"; "game"]%string))
  = States.Threw (States.StateNotDefined (Some "nowhere"%string))
      (States.mkComponent ["menu"; "game"]%string (Some "game"%string) []
         [States.mkChange States.chain None (Some "menu"%string);
          States.mkChange States.call (Some "menu"%string) (Some "game"%string)]).
Proof.
  exact (proj1 (failed_return_loses_its_frame
                  (States.run [States.SyncChain (Some "menu"%string);
                               States.SyncCall (Some "game"%string)]
                     (States.init ["menu"; "game"]%string))
                  (Some "nowhere"%string) [] (Some "menu"%string)
                  eq_refl eq_refl)).
Defined.

(** ** The pool component *)

Lemma indexOf_nth : forall x l i,
  Pool.indexOf x l = Some i -> nth_error l i = Some x.
Proof.
  intros x l. induction l as [|y r IH]; simpl; intros i H; [discriminate|].
  destruct (Nat.eqb x y) eqn:E.
  - apply Nat.eqb_eq in E. inversion H; subst. reflexivity.
  - destruct (Pool.indexOf x r) as [j|]; [|discriminate].
    inversion H; subst. simpl. apply IH. reflexivity.
Qed.

Lemma indexOf_In : forall x l i, Pool.indexOf x l = Some i -> In x l.
Proof. intros x l i H. apply (nth_error_In l i), indexOf_nth. assumption. Qed.

Lemma indexOf_None : forall x l, Pool.indexOf x l = None -> ~ In x l.
Proof.
  intros x l. induction l as [|y r IH]; simpl; intros H; [tauto|].
  destruct (Nat.eqb x y) eqn:E; [discriminate|].
  destruct (Pool.indexOf x r) as [j|]; [discriminate|].
  apply Nat.eqb_neq in E. intros [K|K]; [congruence | apply IH; auto].
Qed.

Lemma phaseOf_snoc : forall el log e x,
  Pool.phaseOf el (log ++ [(e, x)])
  = if Nat.eqb x el then Pool.phaseStep (Pool.phaseOf el log) e
    else Pool.phaseOf el log.
Proof. intros. unfold Pool.phaseOf. rewrite fold_left_app. reflexivity. Qed.

Lemma phaseOf_snoc_other : forall el log e x,
  x <> el -> Pool.phaseOf el (log ++ [(e, x)]) = Pool.phaseOf el log.
Proof.
  intros el log e x N. rewrite phaseOf_snoc.
  apply Nat.eqb_neq in N. rewrite N. reflexivity.
Qed.

Lemma phaseOf_snoc_same : forall el log e,
  Pool.phaseOf el (log ++ [(e, el)]) = Pool.phaseStep (Pool.phaseOf el log) e.
Proof. intros. rewrite phaseOf_snoc, Nat.eqb_refl. reflexivity. Qed.

(** The invariant reads the arrays, the counter, the events and the size. *)
Lemma poolInvariant_same : forall p q,
  Pool.loading q = Pool.loading p ->
  Pool.availableEls q = Pool.availableEls p ->
  Pool.usedEls q = Pool.usedEls p ->
  Pool.deletedEls q = Pool.deletedEls p ->
  Pool.created q = Pool.created p ->
  Pool.events q = Pool.events p ->
  Pool.state_size q = Pool.state_size p ->
  poolInvariant p -> poolInvariant q.
Proof.
  intros p q L A U D C E S [I1 I2 I3 I4 I5 I6 I7 I8].
  destruct p, q. simpl in *. subst.
  constructor; simpl; first [assumption | reflexivity].
Qed.

Lemma invariant_init : forall d, poolInvariant (Pool.init d).
Proof.
  intro d. constructor; simpl; try tauto.
  - intros. exists Pool.Fresh. reflexivity.
  - repeat split; constructor.
Qed.

Lemma invariant_createEntity : forall p,
  poolInvariant p -> poolInvariant (Pool.createEntity p).
Proof.
  intros p [I1 I2 I3 I4 I5 I6 [N1 [N2 [N3 N4]]] I8]. constructor; simpl; auto.
  - intros el H. apply in_app_or in H. destruct H as [H|[H|[]]].
    + destruct (I1 _ H). split; [assumption | lia].
    + subst. split; [apply I5; lia | lia].
  - intros el H. apply I5. lia.
  - repeat split; try assumption.
    apply NoDup_app; [assumption | repeat constructor; simpl; tauto |].
    intros a H [K|[]]. subst. destruct (I1 _ H). lia.
Qed.

Lemma invariant_times_createEntity : forall n p,
  poolInvariant p -> poolInvariant (Pool.times n Pool.createEntity p).
Proof.
  induction n as [|k IH]; intros p H; simpl; [assumption|].
  apply IH, invariant_createEntity. assumption.
Qed.

Lemma invariant_initPool : forall p,
  poolInvariant p -> poolInvariant (Pool.initPool p).
Proof.
  intros p [I1 I2 I3 I4 I5 I6 [N1 [N2 [N3 N4]]] I8]. constructor; simpl; auto.
  - tauto.
  - tauto.
  - intros el H. split; [|tauto]. apply in_app_or in H. destruct H as [H|H].
    + apply I4. assumption.
    + apply I3, in_rev. assumption.
  - repeat split; try assumption; try constructor.
    apply NoDup_app; [assumption | apply NoDup_rev; assumption |].
    intros a H K. apply in_rev in K. destruct (I4 _ H). contradiction.
Qed.

Lemma invariant_loaded : forall el p,
  poolInvariant p -> poolInvariant (Pool.loaded el p).
Proof.
  intros el p H. unfold Pool.loaded.
  destruct (JsSet.has Nat.eqb el (Pool.loading p)) eqn:Hl; [|assumption].
  apply (set_has_In Nat.eqb_eq) in Hl.
  destruct H as [I1 I2 I3 I4 I5 I6 [N1 [N2 [N3 N4]]] I8].
  destruct (I1 _ Hl) as [Fr Lt].
  assert (Other : forall x, Pool.phaseOf x (Pool.events p) <> Some Pool.Fresh ->
            Pool.phaseOf x (Pool.events p ++ [(Pool.pool_add, el)])
            = Pool.phaseOf x (Pool.events p)).
  { intros x Hx. apply phaseOf_snoc_other. intros ->. contradiction. }
  constructor; simpl.
  - intros x Hx. apply (set_In_delete Nat.eqb_eq) in Hx. destruct Hx as [Hx Ne].
    rewrite phaseOf_snoc_other by congruence. apply I1. assumption.
  - intros x Hx. apply in_app_or in Hx. destruct Hx as [Hx|[Hx|[]]].
    + rewrite Other; [apply I2; assumption|]. rewrite (I2 _ Hx). discriminate.
    + subst. rewrite phaseOf_snoc_same, Fr. reflexivity.
  - intros x Hx. rewrite Other; [apply I3; assumption|]. rewrite (I3 _ Hx). discriminate.
  - intros x Hx. destruct (I4 _ Hx) as [Ho Nu].
    rewrite Other; [split; assumption|]. rewrite Ho. discriminate.
  - intros x Hx. rewrite phaseOf_snoc_other by lia. apply I5. assumption.
  - intro x. destruct (Nat.eq_dec el x) as [->|Ne].
    + rewrite phaseOf_snoc_same, Fr. eexists; reflexivity.
    + rewrite phaseOf_snoc_other by assumption. apply I6.
  - repeat split; try assumption.
    + apply (set_NoDup_delete (eqb:=Nat.eqb)). assumption.
    + apply NoDup_app; [assumption | repeat constructor; simpl; tauto |].
      intros a Ha [K|[]]. subst. rewrite (I2 _ Ha) in Fr. discriminate.
  - rewrite I8, length_app. simpl. lia.
Qed.

Lemma invariant_setData : forall d p,
  poolInvariant p -> poolInvariant (Pool.setData d p).
Proof. intros d p. apply poolInvariant_same; reflexivity. Qed.

Lemma invariant_setThreshold : forall t p,
  poolInvariant p -> poolInvariant (Pool.setThreshold t p).
Proof. intros t p. apply poolInvariant_same; reflexivity. Qed.

Lemma invariant_setMaxSize : forall m p,
  poolInvariant p -> poolInvariant (Pool.setMaxSize m p).
Proof. intros m p. apply poolInvariant_same; reflexivity. Qed.

Lemma invariant_setDynamicInfo : forall b p,
  poolInvariant p -> poolInvariant (Pool.setDynamicInfo b p).
Proof. intros b p. apply poolInvariant_same; reflexivity. Qed.

Lemma invariant_thresholdFromSize : forall p,
  poolInvariant p -> poolInvariant (Pool.thresholdFromSize p).
Proof.
  intros p H. unfold Pool.thresholdFromSize.
  destruct (Pool.state_threshold p) as [|z]; [assumption|].
  destruct ((z =? 0)%Z && (z <? (Pool.size (Pool.data p) + 1) / 2)%Z);
    [apply invariant_setThreshold|]; assumption.
Qed.

(** The invariant passes through the branches and the steps that leave
    the arrays alone. *)
Ltac pool_invariant :=
  repeat first
    [ assumption
    | apply invariant_thresholdFromSize
    | apply invariant_times_createEntity
    | apply invariant_createEntity
    | apply invariant_initPool
    | apply invariant_setThreshold
    | apply invariant_setMaxSize
    | apply invariant_setDynamicInfo
    | apply invariant_setData
    | match goal with
      | |- poolInvariant (if ?b then _ else _) => destruct b
      end ].

(** What [update] keeps, when each of its steps keeps it. *)
Lemma update_preserves : forall (P : Pool.Component -> Prop),
  (forall q, P q -> P (Pool.initPool q)) ->
  (forall q, P q -> P (Pool.createEntity q)) ->
  (forall m q, P q -> P (Pool.setMaxSize m q)) ->
  (forall q, P q -> P (Pool.setThreshold Pool.Undefined q)) ->
  (forall q, P q -> P (Pool.thresholdFromSize q)) ->
  forall old p, P p -> P (Pool.update old p).
Proof.
  intros P Hi Hc Hm Ht Hf old p H.
  assert (Hn : forall n q, P q -> P (Pool.times n Pool.createEntity q)).
  { induction n as [|k IH]; intros q Hq; simpl; auto. }
  unfold Pool.update. cbv zeta.
  repeat first
    [ assumption
    | apply Hf | apply Hn | apply Hi | apply Hm | apply Ht
    | match goal with
      | |- P (if ?b then _ else _) => destruct b
      end ].
Qed.

Lemma invariant_update : forall old p,
  poolInvariant p -> poolInvariant (Pool.update old p).
Proof.
  intros old p. apply update_preserves;
    auto using invariant_initPool, invariant_createEntity, invariant_setMaxSize,
               invariant_setThreshold, invariant_thresholdFromSize.
Qed.

Lemma invariant_requestEntity : forall p,
  poolInvariant p ->
  poolInvariant match Pool.requestEntity p with
                | Pool.Returned _ q => q
                | Pool.Thrown q => q
                end.
Proof.
  intros p H. unfold Pool.requestEntity.
  match goal with
  | |- context [Pool.availableEls ?q] => set (p1 := q)
  end.
  assert (H1 : poolInvariant p1) by (unfold p1; pool_invariant).
  clearbody p1.
  destruct (Pool.availableEls p1) as [|el rest] eqn:A.
  - destruct (String.eqb _ "ignore"); [assumption|].
    destruct (String.eqb _ "warn"); assumption.
  - destruct H1 as [I1 I2 I3 I4 I5 I6 [N1 [N2 [N3 N4]]] I8].
    rewrite A in *.
    assert (Id : Pool.phaseOf el (Pool.events p1) = Some Pool.Idle)
      by (apply I2; left; reflexivity).
    assert (Other : forall x, Pool.phaseOf x (Pool.events p1) <> Some Pool.Idle ->
              Pool.phaseOf x (Pool.events p1 ++ [(Pool.pool_remove, el)])
              = Pool.phaseOf x (Pool.events p1)).
    { intros x Hx. apply phaseOf_snoc_other. intros ->. contradiction. }
    apply NoDup_cons_iff in N2. destruct N2 as [Nel N2].
    constructor; simpl.
    + intros x Hx. destruct (I1 _ Hx) as [Fr Lt].
      rewrite Other; [split; assumption|]. rewrite Fr. discriminate.
    + intros x Hx. rewrite phaseOf_snoc_other; [apply I2; right; assumption|].
      intros ->. contradiction.
    + intros x Hx. apply in_app_or in Hx. destruct Hx as [Hx|[Hx|[]]].
      * rewrite Other; [apply I3; assumption|]. rewrite (I3 _ Hx). discriminate.
      * subst. rewrite phaseOf_snoc_same, Id. reflexivity.
    + intros x Hx. destruct (I4 _ Hx) as [Ho Nu].
      rewrite Other; [|rewrite Ho; discriminate]. split; [assumption|].
      intro K. apply in_app_or in K. destruct K as [K|[K|[]]]; [contradiction|].
      subst. rewrite Id in Ho. discriminate.
    + intros x Hx. rewrite Other; [apply I5; assumption|].
      rewrite (I5 _ Hx). discriminate.
    + intro x. destruct (Nat.eq_dec el x) as [->|Ne].
      * rewrite phaseOf_snoc_same, Id. eexists; reflexivity.
      * rewrite phaseOf_snoc_other by assumption. apply I6.
    + repeat split; try assumption.
      apply NoDup_app; [assumption | repeat constructor; simpl; tauto |].
      intros a Ha [K|[]]. subst. rewrite (I3 _ Ha) in Id. discriminate.
    + rewrite I8, length_app. simpl. lia.
Qed.

Section PoolFacts.
Variable removeIndex : list Pool.El -> nat -> list Pool.El.
Hypothesis removeIndex_spec : forall l i x,
  nth_error l i = Some x -> Permutation (x :: removeIndex l i) l.

Lemma invariant_returnEntity : forall el p,
  poolInvariant p -> poolInvariant (snd (Pool.returnEntity removeIndex el p)).
Proof.
  intros el p H. unfold Pool.returnEntity.
  destruct H as [I1 I2 I3 I4 I5 I6 [N1 [N2 [N3 N4]]] I8].
  destruct (Pool.indexOf el (Pool.usedEls p)) as [i|] eqn:Iu.
  - pose proof (removeIndex_spec _ _ _ (indexOf_nth _ _ _ Iu)) as P.
    pose proof (indexOf_In _ _ _ Iu) as Hu.
    assert (O : Pool.phaseOf el (Pool.events p) = Some Pool.Out) by (apply I3; assumption).
    assert (Other : forall x, Pool.phaseOf x (Pool.events p) <> Some Pool.Out ->
              Pool.phaseOf x (Pool.events p ++ [(Pool.pool_return, el)])
              = Pool.phaseOf x (Pool.events p)).
    { intros x Hx. apply phaseOf_snoc_other. intros ->. contradiction. }
    pose proof (Permutation_NoDup (Permutation_sym P) N3) as N3'.
    apply NoDup_cons_iff in N3'. destruct N3' as [Nel N3'].
    assert (Sub : forall x, In x (removeIndex (Pool.usedEls p) i) ->
                            In x (Pool.usedEls p) /\ x <> el).
    { intros x Hx. split; [apply (Permutation_in _ P); right; assumption|].
      intros ->. contradiction. }
    constructor; simpl.
    + intros x Hx. destruct (I1 _ Hx) as [Fr Lt].
      rewrite Other; [split; assumption|]. rewrite Fr. discriminate.
    + intros x Hx. apply in_app_or in Hx. destruct Hx as [Hx|[Hx|[]]].
      * rewrite Other; [apply I2; assumption|]. rewrite (I2 _ Hx). discriminate.
      * subst. rewrite phaseOf_snoc_same, O. reflexivity.
    + intros x Hx. destruct (Sub _ Hx) as [Hx' Ne].
      rewrite phaseOf_snoc_other by congruence. apply I3. assumption.
    + intros x Hx. destruct (I4 _ Hx) as [Ho Nu].
      rewrite phaseOf_snoc_other by (intros ->; contradiction).
      split; [assumption|]. intro K. destruct (Sub _ K). contradiction.
    + intros x Hx. rewrite Other; [apply I5; assumption|].
      rewrite (I5 _ Hx). discriminate.
    + intro x. destruct (Nat.eq_dec el x) as [->|Ne].
      * rewrite phaseOf_snoc_same, O. eexists; reflexivity.
      * rewrite phaseOf_snoc_other by assumption. apply I6.
    + repeat split; try assumption.
      apply NoDup_app; [assumption | repeat constructor; simpl; tauto |].
      intros a Ha [K|[]]. subst. rewrite (I2 _ Ha) in O. discriminate.
    + rewrite I8, length_app. apply Permutation_length in P. simpl in *. lia.
  - destruct (Pool.indexOf el (Pool.deletedEls p)) as [i|] eqn:Id; simpl;
      [|constructor; auto].
    pose proof (removeIndex_spec _ _ _ (indexOf_nth _ _ _ Id)) as P.
    constructor; simpl; auto.
    + intros x Hx. apply I4. apply (Permutation_in _ P). right. assumption.
    + repeat split; try assumption.
      pose proof (Permutation_NoDup (Permutation_sym P) N4) as N4'.
      apply NoDup_cons_iff in N4'. tauto.
Qed.

Lemma invariant_step : forall c p,
  poolInvariant p -> poolInvariant (Pool.step removeIndex p c).
Proof.
  intros [d|el| |el] p H; simpl.
  - apply invariant_update, invariant_setData. assumption.
  - apply invariant_loaded. assumption.
  - apply invariant_requestEntity. assumption.
  - apply invariant_returnEntity. assumption.
Qed.

Lemma invariant_run : forall cs p,
  poolInvariant p -> poolInvariant (Pool.run removeIndex cs p).
Proof.
  induction cs as [|c r IH]; intros p H; simpl; [assumption|].
  apply IH, invariant_step. assumption.
Qed.

Lemma invariant_attached : forall d cs,
  poolInvariant (Pool.run removeIndex cs (Pool.attach d)).
Proof.
  intros d cs. apply invariant_run, invariant_update, invariant_init.
Qed.

End PoolFacts.

Lemma splice1_spec : forall l i x,
  nth_error l i = Some x -> Permutation (x :: Pool.splice1 l i) l.
Proof.
  induction l as [|y r IH]; intros [|j] x H; simpl in H; try discriminate.
  - inversion H; subst. apply Permutation_refl.
  - change (Pool.splice1 (y :: r) (S j)) with (y :: Pool.splice1 r j).
    apply (perm_trans (perm_swap y x (Pool.splice1 r j))).
    apply perm_skip, IH. assumption.
Qed.

(** X22. The events a pool emits on one entity come in turn, whatever is
    done with the pool: first one [pool-add], when the entity is loaded,
    then [pool-remove] and [pool-return] alternately. The entity is in
    [availableEls] only when the last of them was [pool-add] or
    [pool-return], in [usedEls], where [wrapPlay] lets it play, only when
    it was [pool-remove], and it waits for its [loaded] event only before
    all of them. *)
Theorem pool_events_come_in_turn : forall removeIndex,
  (forall l i x, nth_error l i = Some x -> Permutation (x :: removeIndex l i) l) ->
  forall d cs el,
    let p := Pool.run removeIndex cs (Pool.attach d) in
    exists ph,
      Pool.phaseOf el (Pool.events p) = Some ph
      /\ (In el (Pool.loading p) -> ph = Pool.Fresh)
      /\ (In el (Pool.availableEls p) -> ph = Pool.Idle)
      /\ (In el (Pool.usedEls p) -> ph = Pool.Out)
      /\ (Pool.wrapPlay el p = true -> ph = Pool.Out).
Proof.
  intros removeIndex Spec d cs el p.
  destruct (invariant_attached removeIndex Spec d cs) as [I1 I2 I3 I4 I5 I6 I7 I8].
  fold p in I1, I2, I3, I6. destruct (I6 el) as [ph Hp]. exists ph.
  split; [assumption|].
  assert (U : In el (Pool.usedEls p) -> ph = Pool.Out).
  { intro H. apply I3 in H. congruence. }
  repeat split.
  - intro H. apply I1 in H. destruct H. congruence.
  - intro H. apply I2 in H. congruence.
  - exact U.
  - unfold Pool.wrapPlay. intro H. apply U.
    destruct (Pool.indexOf el (Pool.usedEls p)) as [i|] eqn:E; [|discriminate].
    apply (indexOf_In _ _ _ E).
Qed.

Lemma pool_events_come_in_turn_witness :
  exists ph,
    Pool.phaseOf 0
      (Pool.events
         (Pool.run Pool.splice1
            [Pool.Loaded 0; Pool.Loaded 1; Pool.RequestEntity; Pool.ReturnEntity 0;
             Pool.RequestEntity]
            (Pool.attach (Pool.mkData "enemy" "" 2 4 0 "warn")))) = Some ph.
Proof.
  destruct (pool_events_come_in_turn Pool.splice1 splice1_spec
              (Pool.mkData "enemy" "" 2 4 0 "warn")
              [Pool.Loaded 0; Pool.Loaded 1; Pool.RequestEntity; Pool.ReturnEntity 0;
               Pool.RequestEntity] 0) as [ph [H _]].
  exists ph. exact H.
Defined.

(** X23. No entity is twice in a pool: the entities waiting to be loaded,
    [availableEls], [usedEls] and [deletedEls] are free of duplicates and
    share no entity, and [state.size] counts the entities of
    [availableEls] and [usedEls]. *)
Theorem pool_arrays_are_disjoint : forall removeIndex,
  (forall l i x, nth_error l i = Some x -> Permutation (x :: removeIndex l i) l) ->
  forall d cs,
    let p := Pool.run removeIndex cs (Pool.attach d) in
    NoDup (Pool.loading p ++ Pool.availableEls p ++ Pool.usedEls p
           ++ Pool.deletedEls p)
    /\ Pool.state_size p
       = Z.of_nat (List.length (Pool.availableEls p) + List.length (Pool.usedEls p)).
Proof.
  intros removeIndex Spec d cs p.
  destruct (invariant_attached removeIndex Spec d cs)
    as [I1 I2 I3 I4 I5 I6 [N1 [N2 [N3 N4]]] I8].
  fold p in I1, I2, I3, I4, N1, N2, N3, N4, I8. split; [|assumption].
  apply NoDup_app; [assumption | |].
  - apply NoDup_app; [assumption | |].
    + apply NoDup_app; [assumption | assumption |].
      intros a Ha Hd. destruct (I4 _ Hd). contradiction.
    + intros a Ha Hb. apply I2 in Ha. apply in_app_or in Hb. destruct Hb as [Hb|Hb].
      * apply I3 in Hb. congruence.
      * apply I4 in Hb. destruct Hb. congruence.
  - intros a Ha Hb. apply I1 in Ha. destruct Ha as [Ha _].
    apply in_app_or in Hb. destruct Hb as [Hb|Hb]; [apply I2 in Hb; congruence|].
    apply in_app_or in Hb. destruct Hb as [Hb|Hb]; [apply I3 in Hb; congruence|].
    apply I4 in Hb. destruct Hb. congruence.
Qed.

Lemma pool_arrays_are_disjoint_witness :
  NoDup [2; 3; 1; 0].
Proof.
  exact (proj1 (pool_arrays_are_disjoint Pool.splice1 splice1_spec
                  (Pool.mkData "enemy" "" 3 4 0 "warn")
                  [Pool.Loaded 0; Pool.Loaded 1; Pool.RequestEntity])).
Defined.

(** How the steps of [update] and [requestEntity] treat
    [this.state.threshold]. *)
Lemma times_createEntity_threshold : forall n p,
  Pool.state_threshold (Pool.times n Pool.createEntity p) = Pool.state_threshold p.
Proof.
  induction n as [|k IH]; intro p; simpl; [reflexivity|]. rewrite IH. reflexivity.
Qed.

Lemma thresholdFromSize_undefined : forall p,
  Pool.state_threshold p = Pool.Undefined ->
  Pool.state_threshold (Pool.thresholdFromSize p) = Pool.Undefined.
Proof.
  intros p H. unfold Pool.thresholdFromSize. rewrite H. assumption.
Qed.

Lemma update_keeps_undefined : forall old p,
  Pool.state_threshold p = Pool.Undefined ->
  Pool.state_threshold (Pool.update old p) = Pool.Undefined.
Proof.
  intros old p.
  apply (update_preserves (fun q => Pool.state_threshold q = Pool.Undefined));
    auto using thresholdFromSize_undefined.
Qed.

Lemma requestEntity_threshold : forall p,
  Pool.state_threshold match Pool.requestEntity p with
                       | Pool.Returned _ q => q
                       | Pool.Thrown q => q
                       end
  = Pool.state_threshold p.
Proof.
  intro p. unfold Pool.requestEntity.
  repeat match goal with
         | |- context [if ?b then _ else _] => destruct b
         end;
    match goal with
    | |- context [match Pool.availableEls ?q with _ => _ end] =>
        destruct (Pool.availableEls q)
    end;
    repeat match goal with
           | |- context [if ?b then _ else _] => destruct b
           end; reflexivity.
Qed.

Lemma step_keeps_undefined : forall removeIndex c p,
  Pool.state_threshold p = Pool.Undefined ->
  Pool.state_threshold (Pool.step removeIndex p c) = Pool.Undefined.
Proof.
  intros removeIndex [d|el| |el] p H; simpl.
  - apply update_keeps_undefined. assumption.
  - unfold Pool.loaded. destruct (JsSet.has Nat.eqb el (Pool.loading p)); assumption.
  - rewrite requestEntity_threshold. assumption.
  - unfold Pool.returnEntity.
    destruct (Pool.indexOf el (Pool.usedEls p)); [assumption|].
    destruct (Pool.indexOf el (Pool.deletedEls p)); assumption.
Qed.

Lemma run_keeps_undefined : forall removeIndex cs p,
  Pool.state_threshold p = Pool.Undefined ->
  Pool.state_threshold (Pool.run removeIndex cs p) = Pool.Undefined.
Proof.
  intros removeIndex cs. induction cs as [|c r IH]; intros p H; simpl; [assumption|].
  apply IH, step_keeps_undefined. assumption.
Qed.

Lemma update_raise : forall old p,
  Pool.differs Z.eqb Pool.threshold old (Pool.data p) = true ->
  Pool.above (Pool.threshold (Pool.data p)) (Pool.state_threshold p) = true ->
  Pool.state_threshold (Pool.update old p) = Pool.Undefined.
Proof.
  intros old p D A. unfold Pool.update. cbv zeta.
  match goal with
  | |- context [Pool.above _ (Pool.state_threshold ?q)] => set (p2 := q)
  end.
  assert (T2 : Pool.state_threshold p2 = Pool.state_threshold p).
  { unfold p2.
    repeat match goal with
           | |- context [if ?b then _ else _] => destruct b
           end; rewrite ?times_createEntity_threshold; reflexivity. }
  rewrite T2, D, A. simpl.
  repeat match goal with
         | |- context [if ?b then _ else _] => destruct b
         end;
    repeat (apply thresholdFromSize_undefined); reflexivity.
Qed.

(** X24. [update] never stores a raised threshold: where it should, it
    assigns [data.threshhold], which the data does not have. When the
    threshold of the data is new and above [state.threshold], at the first
    update or at a later one, [state.threshold] becomes [undefined] and
    stays so whatever is done with the pool afterwards, and from then on
    [requestEntity] never creates an entity. *)
Theorem raised_threshold_is_lost : forall removeIndex old q cs,
  Pool.differs Z.eqb Pool.threshold old (Pool.data q) = true ->
  Pool.above (Pool.threshold (Pool.data q)) (Pool.state_threshold q) = true ->
  let p := Pool.run removeIndex cs (Pool.update old q) in
  Pool.state_threshold p = Pool.Undefined
  /\ Pool.created (Pool.step removeIndex p Pool.RequestEntity) = Pool.created p
  /\ Pool.loading (Pool.step removeIndex p Pool.RequestEntity) = Pool.loading p.
Proof.
  intros removeIndex old q cs D A p.
  assert (U : Pool.state_threshold p = Pool.Undefined).
  { apply run_keeps_undefined, update_raise; assumption. }
  split; [exact U|].
  simpl. unfold Pool.requestEntity, Pool.atThreshold. rewrite U.
  destruct (Pool.availableEls p); [|split; reflexivity].
  destruct (String.eqb _ "ignore"); [split; reflexivity|].
  destruct (String.eqb _ "warn"); split; reflexivity.
Qed.

Lemma raised_threshold_is_lost_witness :
  Pool.state_threshold
    (Pool.run Pool.splice1 [Pool.Loaded 0; Pool.RequestEntity; Pool.RequestEntity]
       (Pool.attach (Pool.mkData "enemy" "" 2 4 1 "dynamic")))
  = Pool.Undefined.
Proof.
  exact (proj1 (raised_threshold_is_lost Pool.splice1 None
                  (Pool.init (Pool.mkData "enemy" "" 2 4 1 "dynamic"))
                  [Pool.Loaded 0; Pool.RequestEntity; Pool.RequestEntity]
                  eq_refl eq_refl)).
Defined.

Lemma thresholdFrom_more : forall ds ds' t,
  thresholdFrom ds t -> thresholdFrom (ds ++ ds') t.
Proof.
  intros ds ds' t [H|[H|[d [Hin H]]]]; [left | right; left | right; right]; auto.
  exists d. split; [apply in_or_app; left|]; assumption.
Qed.

Lemma update_thresholdFrom : forall ds old p,
  In (Pool.data p) ds ->
  thresholdFrom ds (Pool.state_threshold p) ->
  thresholdFrom ds (Pool.state_threshold (Pool.update old p))
  /\ Pool.data (Pool.update old p) = Pool.data p.
Proof.
  intros ds old p Hin H.
  apply (update_preserves
           (fun q => thresholdFrom ds (Pool.state_threshold q)
                     /\ Pool.data q = Pool.data p)); auto.
  - intros q [_ E]. split; [left; reflexivity | assumption].
  - intros q [Hq E]. unfold Pool.thresholdFromSize.
    destruct (Pool.state_threshold q) as [|z] eqn:T; [rewrite T; auto|].
    destruct ((z =? 0)%Z && (z <? (Pool.size (Pool.data q) + 1) / 2)%Z);
      [|rewrite T; auto].
    simpl. split; [|assumption]. right. right. exists (Pool.data q).
    rewrite E. auto.
Qed.

Lemma step_thresholdFrom : forall removeIndex ds c p,
  In (Pool.data p) ds ->
  thresholdFrom ds (Pool.state_threshold p) ->
  let p' := Pool.step removeIndex p c in
  In (Pool.data p') (ds ++ Pool.dataOf c)
  /\ thresholdFrom (ds ++ Pool.dataOf c) (Pool.state_threshold p').
Proof.
  intros removeIndex ds [d|el| |el] p Hin H; simpl.
  - destruct (update_thresholdFrom (ds ++ [d]) (Some (Pool.data p))
                (Pool.setData d p)) as [T E].
    + simpl. apply in_or_app. right. left. reflexivity.
    + simpl. apply thresholdFrom_more. assumption.
    + rewrite E. simpl. split; [|assumption].
      apply in_or_app. right. left. reflexivity.
  - rewrite app_nil_r. unfold Pool.loaded.
    destruct (JsSet.has Nat.eqb el (Pool.loading p)); split; assumption.
  - rewrite app_nil_r, requestEntity_threshold. split; [|assumption].
    unfold Pool.requestEntity.
    repeat match goal with
           | |- context [if ?b then _ else _] => destruct b
           end;
      match goal with
      | |- context [match Pool.availableEls ?q with _ => _ end] =>
          destruct (Pool.availableEls q)
      end;
      repeat match goal with
             | |- context [if ?b then _ else _] => destruct b
             end; assumption.
  - rewrite app_nil_r. unfold Pool.returnEntity.
    destruct (Pool.indexOf el (Pool.usedEls p)); [split; assumption|].
    destruct (Pool.indexOf el (Pool.deletedEls p)); split; assumption.
Qed.

Lemma run_thresholdFrom : forall removeIndex cs ds p,
  In (Pool.data p) ds ->
  thresholdFrom ds (Pool.state_threshold p) ->
  thresholdFrom (ds ++ flat_map Pool.dataOf cs)
                (Pool.state_threshold (Pool.run removeIndex cs p)).
Proof.
  intros removeIndex cs. induction cs as [|c r IH]; intros ds p Hin H; simpl.
  - rewrite app_nil_r. assumption.
  - destruct (step_thresholdFrom removeIndex ds c p Hin H) as [Hin' H'].
    rewrite app_assoc. apply IH; assumption.
Qed.

(** X25. The threshold of the data is never the threshold of the pool:
    after any run, [state.threshold] is [undefined], [0], or half the size
    (rounded up) of the data of one of the updates. *)
Theorem threshold_comes_from_size : forall removeIndex d cs,
  let t := Pool.state_threshold (Pool.run removeIndex cs (Pool.attach d)) in
  t = Pool.Undefined \/ t = Pool.Number 0
  \/ exists d', In d' (d :: flat_map Pool.dataOf cs)
                /\ t = Pool.Number ((Pool.size d' + 1) / 2).
Proof.
  intros removeIndex d cs t.
  destruct (update_thresholdFrom [d] None (Pool.init d)) as [T E].
  - left. reflexivity.
  - right. left. reflexivity.
  - apply (run_thresholdFrom removeIndex cs [d] (Pool.attach d)).
    + unfold Pool.attach. rewrite E. left. reflexivity.
    + exact T.
Qed.

(** X26. A new mixin without a new size leaves the pool empty: [update]
    forgets the available entities, moves the entities in use to
    [deletedEls] and creates none. An entity handed out before can no
    longer play, and returning it emits no [pool-return]. *)
Theorem mixin_change_forgets_entities : forall removeIndex p d el,
  Pool.mixin d <> Pool.mixin (Pool.data p) ->
  Pool.size d = Pool.size (Pool.data p) ->
  let p' := Pool.step removeIndex p (Pool.SetData d) in
  Pool.availableEls p' = [] /\ Pool.usedEls p' = []
  /\ Pool.deletedEls p' = Pool.deletedEls p ++ rev (Pool.usedEls p)
  /\ Pool.state_size p' = 0%Z
  /\ Pool.created p' = Pool.created p
  /\ Pool.wrapPlay el p' = false
  /\ Pool.events (Pool.step removeIndex p' (Pool.ReturnEntity el)) = Pool.events p.
Proof.
  intros removeIndex p d el M S p'.
  assert (E : exists t m b,
             p' = Pool.mkComponent d t m 0 (Pool.deletedEls p ++ rev (Pool.usedEls p))
                    [] [] (Pool.loading p) (Pool.created p) b (Pool.events p)).
  { unfold p'. simpl. unfold Pool.update. cbv zeta. simpl.
    replace (String.eqb (Pool.mixin (Pool.data p)) (Pool.mixin d)) with false
      by (symmetry; apply String.eqb_neq; congruence).
    rewrite S, Z.eqb_refl. simpl. unfold Pool.thresholdFromSize.
    repeat match goal with
           | |- context [if ?b then _ else _] => destruct b
           | |- context [match Pool.state_threshold ?q with _ => _ end] =>
               destruct (Pool.state_threshold q)
           end; simpl; do 3 eexists; reflexivity. }
  destruct E as [t [m [b E]]]. rewrite E. simpl.
  repeat split. unfold Pool.returnEntity. simpl.
  destruct (Pool.indexOf el (Pool.deletedEls p ++ rev (Pool.usedEls p))); reflexivity.
Qed.

Lemma mixin_change_forgets_entities_witness :
  Pool.availableEls
    (Pool.step Pool.splice1
       (Pool.run Pool.splice1 [Pool.Loaded 0; Pool.Loaded 1; Pool.RequestEntity]
          (Pool.attach (Pool.mkData "enemy" "" 2 4 0 "warn")))
       (Pool.SetData (Pool.mkData "friend" "" 2 4 0 "warn")))
  = [].
Proof.
  assert (M : Pool.mixin (Pool.mkData "friend" "" 2 4 0 "warn")
              <> Pool.mixin
                   (Pool.data
                      (Pool.run Pool.splice1
                         [Pool.Loaded 0; Pool.Loaded 1; Pool.RequestEntity]
                         (Pool.attach (Pool.mkData "enemy" "" 2 4 0 "warn")))))
    by (vm_compute; discriminate).
  exact (proj1 (mixin_change_forgets_entities Pool.splice1
                  (Pool.run Pool.splice1
                     [Pool.Loaded 0; Pool.Loaded 1; Pool.RequestEntity]
                     (Pool.attach (Pool.mkData "enemy" "" 2 4 0 "warn")))
                  (Pool.mkData "friend" "" 2 4 0 "warn") 0 M eq_refl)).
Defined.

(** X27. [requestEntity] serves from [availableEls] as it finds it: an
    entity it creates on the way is not available before it is loaded. On
    a pool with no available entity the request returns nothing (policy
    [ignore] or [warn]) or throws (any other policy), even when it has just
    created an entity, and emits nothing; otherwise it hands out the first
    available entity, emits [pool-remove] on it and moves it to the end of
    [usedEls]. *)
Theorem request_is_served_from_available : forall p,
  match Pool.requestEntity p with
  | Pool.Returned (Some el) p' =>
      Pool.availableEls p = el :: Pool.availableEls p'
      /\ Pool.usedEls p' = Pool.usedEls p ++ [el]
      /\ Pool.events p' = Pool.events p ++ [(Pool.pool_remove, el)]
  | Pool.Returned None p' =>
      Pool.availableEls p = [] /\ Pool.availableEls p' = []
      /\ Pool.usedEls p' = Pool.usedEls p /\ Pool.events p' = Pool.events p
      /\ (Pool.poolPolicy (Pool.data p) = "ignore"%string
          \/ Pool.poolPolicy (Pool.data p) = "warn"%string)
  | Pool.Thrown p' =>
      Pool.availableEls p = [] /\ Pool.availableEls p' = []
      /\ Pool.usedEls p' = Pool.usedEls p /\ Pool.events p' = Pool.events p
      /\ Pool.poolPolicy (Pool.data p) <> "ignore"%string
      /\ Pool.poolPolicy (Pool.data p) <> "warn"%string
  end.
Proof.
  intro p. unfold Pool.requestEntity.
  match goal with
  | |- context [Pool.availableEls ?q] => set (p1 := q)
  end.
  assert (H : Pool.availableEls p1 = Pool.availableEls p
              /\ Pool.usedEls p1 = Pool.usedEls p
              /\ Pool.events p1 = Pool.events p
              /\ Pool.data p1 = Pool.data p).
  { unfold p1.
    repeat match goal with
           | |- context [if ?b then _ else _] => destruct b
           end; repeat split. }
  clearbody p1. destruct H as [A [U [E D]]].
  destruct (Pool.availableEls p1) as [|el rest] eqn:Av.
  - rewrite D.
    destruct (String.eqb (Pool.poolPolicy (Pool.data p)) "ignore") eqn:Pi.
    + apply String.eqb_eq in Pi. rewrite Av. repeat split; auto.
    + destruct (String.eqb (Pool.poolPolicy (Pool.data p)) "warn") eqn:Pw.
      * apply String.eqb_eq in Pw. rewrite Av. repeat split; auto.
      * apply String.eqb_neq in Pi, Pw. rewrite Av. repeat split; auto.
  - simpl. rewrite U, E. repeat split; auto.
Qed.
